(** * CHILD erosion engine (Code/Erosion/erosion.cpp): a shallow embedding

    The C++ [double] is read as a real number: rounding, infinities and NaN
    are outside the model, so a statement below speaks of the arithmetic the
    code writes down, not of its IEEE evaluation.  A pointer to a node is an
    index into the mesh's node list.  A call that ends the run
    ([ReportFatalError], a failed [assert], a subscript out of range, a null
    pointer) is the outcome [Fatal]. *)

From Stdlib Require Import Reals Lra Lia List String Bool Arith ZArith.
Import ListNotations.
Local Open Scope R_scope.

(* ================================================================== *)
(** * Part I.  The model                                              *)
(* ================================================================== *)

(** ** Outcomes *)

(** What a call comes to: it returns, it ends the run, or (for a pass over
    the nodes that contains a while loop over the layers, which is run on a
    budget of iterations) it has not returned within the budget. *)
Inductive result (A : Type) : Type :=
| Ok (a : A)
| Fatal (msg : string)
| OutOfFuel.

Arguments Ok {A} a.
Arguments Fatal {A} msg.
Arguments OutOfFuel {A}.

Definition bind {A B : Type} (r : result A) (k : A -> result B) : result B :=
  match r with
  | Ok a => k a
  | Fatal m => Fatal m
  | OutOfFuel => OutOfFuel
  end.

Notation "x <- e ;; k" := (bind e (fun x => k))
  (at level 61, e at next level, right associativity).
Notation "' p <- e ;; k" := (bind e (fun p => k))
  (at level 61, p pattern, e at next level, right associativity).

(** [assert( c )] *)
Definition assert (c : bool) (what : string) : result unit :=
  if c then Ok tt else Fatal what.

(** Comparisons of doubles, as booleans. *)
Definition Rltb (a b : R) : bool := if Rlt_dec a b then true else false.
Definition Rleb (a b : R) : bool := if Rle_dec a b then true else false.
Definition Rgtb (a b : R) : bool := Rltb b a.
Definition Rgeb (a b : R) : bool := Rleb b a.
Definition Reqb (a b : R) : bool := if Req_dec_T a b then true else false.

Arguments Rltb : simpl never.
Arguments Rleb : simpl never.
Arguments Reqb : simpl never.

Infix "<?" := Rltb : R_scope.
Infix "<=?" := Rleb : R_scope.
Infix ">?" := Rgtb (at level 70) : R_scope.
Infix ">=?" := Rgeb (at level 70) : R_scope.
Infix "=?" := Reqb : R_scope.

(** ** <math.h> *)

Module Cmath.

(** [pow(x,y)] where C gives a finite real: [x > 0], or [x = 0] with
    [y >= 0].  ([pow(0,y)] is 0 for [y > 0] and [pow(x,0)] is 1.)  A negative
    base and [pow(0,y)] with [y < 0] are outside the model. *)
Definition pow (x y : R) : R :=
  if 0 <? x then Rpower x y
  else if y =? 0 then 1 else 0.

(** [sqrt(x)] for [x >= 0]. *)
Definition sqrt (x : R) : R := R_sqrt.sqrt x.

Definition fabs (x : R) : R := Rabs x.

Arguments pow : simpl never.

End Cmath.

(** ** The input file *)

(** [tInputFile::ReadItem]: a value per tag, read as a double or as an int. *)
Record tInputFile : Type := mkInputFile {
  ReadDouble : string -> R;
  ReadInt : string -> Z
}.

(** ** Constants of the headers

    [RHO], [RHOSED], [GRAV] and [SECPERYEAR] are macros of a header that is
    not part of this file; they enter as parameters. *)
Record tConsts : Type := mkConsts {
  RHO : R;
  RHOSED : R;
  GRAV : R;
  SECPERYEAR : R
}.

Definition YEARPERSEC : R := 3.171e-8.
Definition kSmallTimeStep : R := 1e-8.
Definition kVerySmall : R := 1e-6.
Definition kEpsOver2 : R := 0.1.
Definition secPerYear : R := 365.25 * 24 * 3600.0.

(** ** Nodes and their layers (the interface of [tLNode] used by this file) *)

Record tLayer : Type := mkLayer {
  ldepth : R;          (* getLayerDepth(i) *)
  lerody : R;          (* getLayerErody(i) *)
  lsed : Z;            (* getLayerSed(i): 0 bedrock, 1 sediment *)
  ldgrade : list R     (* getLayerDgrade(i,j) *)
}.

Record tLNode : Type := mkNode {
  z : R;                 (* getZ *)
  varea : R;             (* getVArea *)
  slope : R;             (* getSlope: an attribute supplied by the mesh *)
  q : R;                 (* getQ *)
  drarea : R;            (* getDrArea *)
  hydrwidth : R;         (* getHydrWidth *)
  hydrrough : R;         (* getHydrRough *)
  chandepth : R;         (* getChanDepth *)
  floodstatus : bool;    (* getFloodStatus *)
  boundary : bool;       (* getBoundaryFlag() != kNonBoundary *)
  tauc : R;              (* getTauCrit *)
  maxregdep : R;         (* getMaxregdep *)
  numg : nat;            (* getNumg *)
  downstrm : nat;        (* getDownstrmNbr, as an index *)
  tau : R;               (* setTau *)
  drdt : R;              (* getDrDt / setDrDt *)
  dzdt : R;              (* getDzDt / setDzDt *)
  qs : R;                (* getQs() / setQs(v) *)
  qsin : R;              (* getQsin() / setQsin(v) *)
  qsm : list R;          (* getQs(i) *)
  qsinm : list R;        (* getQsin(i) *)
  layerlist : list tLayer
}.

Definition setZ (v : R) (n : tLNode) : tLNode :=
  mkNode v (varea n) (slope n) (q n) (drarea n) (hydrwidth n) (hydrrough n)
    (chandepth n) (floodstatus n) (boundary n) (tauc n) (maxregdep n) (numg n)
    (downstrm n) (tau n) (drdt n) (dzdt n) (qs n) (qsin n) (qsm n) (qsinm n)
    (layerlist n).

Definition setTau (v : R) (n : tLNode) : tLNode :=
  mkNode (z n) (varea n) (slope n) (q n) (drarea n) (hydrwidth n) (hydrrough n)
    (chandepth n) (floodstatus n) (boundary n) (tauc n) (maxregdep n) (numg n)
    (downstrm n) v (drdt n) (dzdt n) (qs n) (qsin n) (qsm n) (qsinm n)
    (layerlist n).

Definition setDrDt (v : R) (n : tLNode) : tLNode :=
  mkNode (z n) (varea n) (slope n) (q n) (drarea n) (hydrwidth n) (hydrrough n)
    (chandepth n) (floodstatus n) (boundary n) (tauc n) (maxregdep n) (numg n)
    (downstrm n) (tau n) v (dzdt n) (qs n) (qsin n) (qsm n) (qsinm n)
    (layerlist n).

Definition setDzDt (v : R) (n : tLNode) : tLNode :=
  mkNode (z n) (varea n) (slope n) (q n) (drarea n) (hydrwidth n) (hydrrough n)
    (chandepth n) (floodstatus n) (boundary n) (tauc n) (maxregdep n) (numg n)
    (downstrm n) (tau n) (drdt n) v (qs n) (qsin n) (qsm n) (qsinm n)
    (layerlist n).

(** [setQs(double)] *)
Definition setQs (v : R) (n : tLNode) : tLNode :=
  mkNode (z n) (varea n) (slope n) (q n) (drarea n) (hydrwidth n) (hydrrough n)
    (chandepth n) (floodstatus n) (boundary n) (tauc n) (maxregdep n) (numg n)
    (downstrm n) (tau n) (drdt n) (dzdt n) v (qsin n) (qsm n) (qsinm n)
    (layerlist n).

(** [setQsin(double)] *)
Definition setQsin (v : R) (n : tLNode) : tLNode :=
  mkNode (z n) (varea n) (slope n) (q n) (drarea n) (hydrwidth n) (hydrrough n)
    (chandepth n) (floodstatus n) (boundary n) (tauc n) (maxregdep n) (numg n)
    (downstrm n) (tau n) (drdt n) (dzdt n) (qs n) v (qsm n) (qsinm n)
    (layerlist n).

Definition setQsm (v : list R) (n : tLNode) : tLNode :=
  mkNode (z n) (varea n) (slope n) (q n) (drarea n) (hydrwidth n) (hydrrough n)
    (chandepth n) (floodstatus n) (boundary n) (tauc n) (maxregdep n) (numg n)
    (downstrm n) (tau n) (drdt n) (dzdt n) (qs n) (qsin n) v (qsinm n)
    (layerlist n).

Definition setQsinm (v : list R) (n : tLNode) : tLNode :=
  mkNode (z n) (varea n) (slope n) (q n) (drarea n) (hydrwidth n) (hydrrough n)
    (chandepth n) (floodstatus n) (boundary n) (tauc n) (maxregdep n) (numg n)
    (downstrm n) (tau n) (drdt n) (dzdt n) (qs n) (qsin n) (qsm n) v
    (layerlist n).

Definition setLayerlist (v : list tLayer) (n : tLNode) : tLNode :=
  mkNode (z n) (varea n) (slope n) (q n) (drarea n) (hydrwidth n) (hydrrough n)
    (chandepth n) (floodstatus n) (boundary n) (tauc n) (maxregdep n) (numg n)
    (downstrm n) (tau n) (drdt n) (dzdt n) (qs n) (qsin n) (qsm n) (qsinm n)
    v.

(** [addQsin(double)] *)
Definition addQsin (v : R) (n : tLNode) : tLNode := setQsin (qsin n + v) n.

(** A subscript: out of range ends the run. *)
Definition subscript {A : Type} (l : list A) (i : nat) (what : string) : result A :=
  match nth_error l i with
  | Some a => Ok a
  | None => Fatal what
  end.

Fixpoint upd {A : Type} (l : list A) (i : nat) (a : A) : list A :=
  match l, i with
  | [], _ => []
  | _ :: t, O => a :: t
  | h :: t, S j => h :: upd t j a
  end.

Definition Rsum (l : list R) : R := fold_right Rplus 0 l.

Definition getLayer (n : tLNode) (i : nat) : result tLayer :=
  subscript (layerlist n) i "layer index".
Definition getLayerDepth (n : tLNode) (i : nat) : result R :=
  l <- getLayer n i ;; Ok (ldepth l).
Definition getLayerErody (n : tLNode) (i : nat) : result R :=
  l <- getLayer n i ;; Ok (lerody l).
Definition getLayerSed (n : tLNode) (i : nat) : result Z :=
  l <- getLayer n i ;; Ok (lsed l).
Definition getLayerDgrade (n : tLNode) (i j : nat) : result R :=
  l <- getLayer n i ;; subscript (ldgrade l) j "grain size index".
Definition getNumLayer (n : tLNode) : nat := List.length (layerlist n).

Definition getQsm (n : tLNode) (i : nat) : result R :=
  subscript (qsm n) i "sediment size index".
Definition getQsinm (n : tLNode) (i : nat) : result R :=
  subscript (qsinm n) i "sediment size index".

(** Modelled from the spec: the per-size accessors of [tLNode], whose bodies
    are not in this file.  [setQs(i,v)] stores the capacity of one size
    class; [addQs(i,v)] adds to the class and to the total (``this gets
    updates with update of qs of individual sizes''); [setQsin(i,v)] stores
    the class and makes the total the sum of the classes (``seting qsini for
    each size should automatically properly set qstotal''); [addQsin(i,v)]
    adds to the class and to the total. *)
Definition setQs_i (i : nat) (v : R) (n : tLNode) : result tLNode :=
  _ <- getQsm n i ;; Ok (setQsm (upd (qsm n) i v) n).

Definition addQs_i (i : nat) (v : R) (n : tLNode) : result tLNode :=
  x <- getQsm n i ;;
  Ok (setQs (qs n + v) (setQsm (upd (qsm n) i (x + v)) n)).

Definition setQsin_i (i : nat) (v : R) (n : tLNode) : result tLNode :=
  _ <- getQsinm n i ;;
  let m := upd (qsinm n) i v in
  Ok (setQsin (Rsum m) (setQsinm m n)).

Definition addQsin_i (i : nat) (v : R) (n : tLNode) : result tLNode :=
  x <- getQsinm n i ;;
  Ok (setQsin (qsin n + v) (setQsinm (upd (qsinm n) i (x + v)) n)).

(** [for( i = ...; ...; i++ )] over a list of indices, threading a state. *)
Fixpoint forM {S : Type} (idxs : list nat) (f : nat -> S -> result S) (s : S)
  : result S :=
  match idxs with
  | [] => Ok s
  | i :: rest => s' <- f i s ;; forM rest f s'
  end.

(** ** tBedErodePwrLaw *)

Module tBedErodePwrLaw.

Record t : Type := mk {
  kb : R;
  kt : R;
  mb : R;
  nb : R;
  pb : R;
  taucd : R
}.

(** The constructor: [kt] is read in SI units and multiplied by
    [secPerYear^(-mb)]. *)
Definition ctor (infile : tInputFile) : t :=
  let kb := ReadDouble infile "KB" in
  let kt := ReadDouble infile "KT" in
  let mb := ReadDouble infile "MB" in
  let nb := ReadDouble infile "NB" in
  let pb := ReadDouble infile "PB" in
  let taucd := ReadDouble infile "TAUCD" in
  mk kb (kt * Cmath.pow secPerYear (- mb)) mb nb pb taucd.

(** The shear stress all three call shapes compute. *)
Definition shear (b : t) (n : tLNode) : R :=
  kt b * Cmath.pow (q n / hydrwidth n) (mb b) * Cmath.pow (slope n) (nb b).

(** DetachCapacity (1 of 3): [DetachCapacity( tLNode * n, double dt )]. *)
Definition DetachCapacity_dt (b : t) (n : tLNode) (dt : R)
  : result (R * tLNode) :=
  let slp := slope n in
  if floodstatus n then Ok (0, n)
  else if slp <? 0 then
    Fatal "neg. slope in tBedErodePwrLaw::DetachCapacity(tLNode*,double)"
  else
    let tau := kt b * Cmath.pow (q n / hydrwidth n) (mb b)
               * Cmath.pow slp (nb b) in
    let n := setTau tau n in
    let tauex := tau - tauc n in
    let tauex := if tauex >? 0 then tauex else 0 in
    e <- getLayerErody n 0 ;;
    Ok (e * Cmath.pow tauex (pb b) * dt, n).

(** DetachCapacity (2 of 3): [DetachCapacity( tLNode * n )]. *)
Definition DetachCapacity (b : t) (n : tLNode) : result (R * tLNode) :=
  _ <- assert (q n >=? 0) "n->getQ()>=0.0" ;;
  _ <- assert (q n >=? 0) "n->getQ()>=0.0" ;;
  if floodstatus n then Ok (0, n)
  else
    let slp := slope n in
    if slp <? 0 then
      Fatal "neg. slope in tBedErodePwrLaw::DetachCapacity(tLNode*)"
    else
      let tau := kt b * Cmath.pow (q n / hydrwidth n) (mb b)
                 * Cmath.pow slp (nb b) in
      _ <- assert (q n >=? 0) "n->getQ()>=0.0" ;;
      _ <- assert (drarea n >=? 0) "n->getDrArea()>=0.0" ;;
      let n := setTau tau n in
      let erorate := tau - tauc n in
      let erorate := if erorate >? 0 then erorate else 0 in
      e <- getLayerErody n 0 ;;
      let erorate := e * Cmath.pow erorate (pb b) in
      let n := setDrDt (- erorate) n in
      Ok (erorate, n).

(** DetachCapacity (3 of 3): [DetachCapacity( tLNode * n, int i )]. *)
Definition DetachCapacity_lyr (b : t) (n : tLNode) (i : nat)
  : result (R * tLNode) :=
  if floodstatus n then Ok (0, n)
  else
    let slp := slope n in
    if slp <? 0 then
      Fatal "neg. slope in tBedErodePwrLaw::DetachCapacity(tLNode*)"
    else
      let tau := kt b * Cmath.pow (q n / hydrwidth n) (mb b)
                 * Cmath.pow slp (nb b) in
      let n := setTau tau n in
      let erorate := tau - tauc n in
      let erorate := if erorate >? 0 then erorate else 0 in
      e <- getLayerErody n i ;;
      let erorate := e * Cmath.pow erorate (pb b) in
      let n := setDrDt (- erorate) n in
      Ok (erorate, n).

(** [SetTimeStep( tLNode * n )].  [flowEdgLength n] is
    [n->getFlowEdg()->getLength()], the length of the flow edge of the node,
    which the mesh keeps. *)
Definition SetTimeStep (b : t) (flowEdgLength : tLNode -> R) (n : tLNode)
  : result R :=
  let slp := slope n in
  if slp <? 0.0 then
    Fatal "neg. slope in tBedErodePwrLaw::setTimeStep(tLNode*)"
  else
    _ <- assert (q n >=? 0) "n->getQ()>=0" ;;
    let eroterm := kb b * Cmath.pow (q n) (mb b)
                   * Cmath.pow slp (nb b - 1.0) in
    if eroterm =? 0 then Ok 100000
    else Ok (0.2 * flowEdgLength n / eroterm).

End tBedErodePwrLaw.

(** ** tSedTransPwrLaw *)

Module tSedTransPwrLaw.

Record t : Type := mk {
  kf : R;
  kt : R;
  mf : R;
  nf : R;
  pf : R;
  tauc : R
}.

Definition ctor (infile : tInputFile) : t :=
  let kf := ReadDouble infile "KF" in
  let kt := ReadDouble infile "KT" in
  let mf := ReadDouble infile "MF" in
  let nf := ReadDouble infile "NF" in
  let pf := ReadDouble infile "PF" in
  let tauc := ReadDouble infile "TAUCD" in
  mk kf (kt * Cmath.pow secPerYear (- mf)) mf nf pf tauc.

(** [TransCapacity( tLNode *node )] *)
Definition TransCapacity (p : t) (node : tLNode) : result (R * tLNode) :=
  let slp := slope node in
  if slp <? 0 then
    Fatal "neg. slope in tBedErodePwrLaw::TransCapacity(tLNode*)"
  else
    let '(cap, node) :=
      if negb (floodstatus node) then
        let tau := kt p * Cmath.pow (q node / hydrwidth node) (mf p)
                   * Cmath.pow slp (nf p) in
        let node := setTau tau node in
        let tauex := tau - tauc p in
        let tauex := if tauex >? 0 then tauex else 0 in
        (kf p * hydrwidth node * Cmath.pow tauex (pf p), node)
      else (0, node) in
    Ok (cap, setQs cap node).

(** [TransCapacity( tLNode *node, int lyr, double weight )] *)
Definition TransCapacity_w (p : t) (node : tLNode) (lyr : nat) (weight : R)
  : result (R * tLNode) :=
  let slp := slope node in
  if slp <? 0 then
    Fatal "neg. slope in tSedTransPwrLaw::TransCapacity(tLNode*)"
  else
    let '(cap, node) :=
      if negb (floodstatus node) then
        let tau := kt p * Cmath.pow (q node / hydrwidth node) (mf p)
                   * Cmath.pow slp (nf p) in
        let node := setTau tau node in
        let tauex := tau - tauc p in
        let tauex := if tauex >? 0 then tauex else 0 in
        (weight * kf p * hydrwidth node * Cmath.pow tauex (pf p), node)
      else (0, node) in
    node <- forM (seq 0 (numg node))
              (fun i node =>
                 dg <- getLayerDgrade node lyr i ;;
                 ld <- getLayerDepth node lyr ;;
                 addQs_i i (cap * dg / ld) node)
              node ;;
    Ok (cap, setQs cap node).

End tSedTransPwrLaw.

(** ** tSedTransPwrLawMulti *)

Module tSedTransPwrLawMulti.

Record t : Type := mk {
  kf : R;
  kt : R;
  mf : R;
  nf : R;
  pf : R;
  miNumgrnsizes : nat;
  mdGrndiam : list R;
  mdTauc : list R;
  mdHidingexp : R
}.

Definition ctor (infile : tInputFile) : t :=
  let kf := ReadDouble infile "KF" in
  let kt := ReadDouble infile "KT" in
  let mf := ReadDouble infile "MF" in
  let nf := ReadDouble infile "NF" in
  let pf := ReadDouble infile "PF" in
  let n := ReadInt infile "NUMGRNSIZE" in
  let n := if (9 <? n)%Z then 9%Z else n in
  let n := Z.to_nat n in
  let thetac := 0.045 in
  let sig := 2650.0 in
  let rho := 1000.0 in
  let g := 9.81 in
  (* tagline = taglinebase + digits.substr(i,i) *)
  let diam i :=
    ReadDouble infile ("GRAINDIAM" ++ substring i i "123456789")%string in
  let diams := map diam (seq 0 n) in
  let taucs := map (fun d => thetac * (sig - rho) * g * d) diams in
  mk kf (kt * Cmath.pow secPerYear (- mf)) mf nf pf n diams taucs
     (ReadDouble infile "HIDINGEXP").

(** [TransCapacity( tLNode *node, int lyr, double weight )].  The array
    [frac] is a function-local static, sized by the law that calls first;
    it has the size of [p] here, as it has in every call of that law. *)
Definition TransCapacity_w (p : t) (node : tLNode) (lyr : nat) (weight : R)
  : result (R * tLNode) :=
  let slp := slope node in
  if slp <? 0 then
    Fatal "neg. slope in tSedTransPwrLaw::TransCapacity(tLNode*)"
  else
    (* D50 and the fraction of each size *)
    '(frac, d50) <-
      forM (seq 0 (miNumgrnsizes p))
        (fun i '(frac, d50) =>
           dg <- getLayerDgrade node lyr i ;;
           ld <- getLayerDepth node lyr ;;
           d <- subscript (mdGrndiam p) i "mdGrndiam" ;;
           let f := dg / ld in
           Ok (frac ++ [f], d50 + f * d))
        ([], 0) ;;
    let slp := if floodstatus node then 0 else slp in
    let tau := kt p * Cmath.pow (q node / hydrwidth node) (mf p)
               * Cmath.pow slp (nf p) in
    let node := setTau tau node in
    '(totalcap, node) <-
      forM (seq 0 (miNumgrnsizes p))
        (fun i '(totalcap, node) =>
           tc <- subscript (mdTauc p) i "mdTauc" ;;
           d <- subscript (mdGrndiam p) i "mdGrndiam" ;;
           f <- subscript frac i "frac" ;;
           let tauc := tc * Cmath.pow (d / d50) (- mdHidingexp p) in
           let tauex := tau - tauc in
           let tauex := if tauex >? 0 then tauex else 0 in
           let cap := f * weight * kf p * hydrwidth node
                      * Cmath.pow tauex (pf p) in
           node <- addQs_i i cap node ;;
           Ok (totalcap + cap, node))
        (0, node) ;;
    Ok (totalcap, setQs totalcap node).

(** [TransCapacity( tLNode * node )]: the body is [return 0.0;]. *)
Definition TransCapacity (p : t) (node : tLNode) : result (R * tLNode) :=
  Ok (0.0, node).

End tSedTransPwrLawMulti.

(** ** The sand/gravel laws: tSedTransWilcock and tSedTransMineTailings *)

(** The critical shear stress of one fraction as a function of the sand
    fraction, as each of the four TransCapacity bodies spells it out:
    [if(persand<.10) taucrit=low; else if(persand<=.40)
    taucrit=((s*persand)+b); else taucrit=high;]. *)
Definition taucrit_of (persand low s b high : R) : R :=
  if persand <? 0.10 then low
  else if persand <=? 0.40 then (s * persand) + b
  else high.

Module tSedTransWilcock.

Record t : Type := mk {
  taudim : R;
  refs : R;
  refg : R;
  lowtaucs : R;
  lowtaucg : R;
  sands : R;
  sandb : R;
  gravs : R;
  gravb : R;
  hightaucs : R;
  hightaucg : R;
  grade : list R
}.

Definition ctor (c : tConsts) (infile : tInputFile) : t :=
  let grade0 := ReadDouble infile "GRAINDIAM1" in
  let grade1 := ReadDouble infile "GRAINDIAM2" in
  let taudim := RHO c * GRAV c in
  let refs := (RHOSED c - RHO c) * 9.81 * grade0 in
  let refg := (RHOSED c - RHO c) * 9.81 * grade1 in
  let lowtaucs := 0.8 * (grade1 / grade0) * 0.040 * refs * 0.8531 in
  let lowtaucg := 0.04 * refg * 0.8531 in
  let hightaucs := 0.04 * refs * 0.8531 in
  let hightaucg := 0.01 * refg * 0.8531 in
  let sands := (lowtaucs - hightaucs) / (- 0.3) in
  let sandb := lowtaucs - (sands * 0.1) in
  let gravs := (lowtaucg - hightaucg) / (- 0.3) in
  let gravb := lowtaucg - (gravs * 0.1) in
  mk taudim refs refg lowtaucs lowtaucg sands sandb gravs gravb
     hightaucs hightaucg [grade0; grade1].

Definition taucrit_sand (w : t) (persand : R) : R :=
  taucrit_of persand (lowtaucs w) (sands w) (sandb w) (hightaucs w).

Definition taucrit_grav (w : t) (persand : R) : R :=
  taucrit_of persand (lowtaucg w) (gravs w) (gravb w) (hightaucg w).

(** [TransCapacity( tLNode *nd )] *)
Definition TransCapacity (c : tConsts) (w : t) (nd : tLNode)
  : result (R * tLNode) :=
  dg <- getLayerDgrade nd 0 0 ;;
  ld <- getLayerDepth nd 0 ;;
  let persand := dg / ld in
  let factor := ld / maxregdep nd in
  if slope nd <? 0 then
    nd <- setQs_i 0 0 nd ;;
    nd <- setQs_i 1 0 nd ;;
    let nd := setQs 0 nd in
    Ok (0.0, nd)
  else
    let tau := taudim w
               * Cmath.pow (hydrrough nd * q nd * YEARPERSEC / hydrwidth nd) 0.6
               * Cmath.pow (slope nd) 0.7 in
    (* sand *)
    let taucrit := taucrit_sand w persand in
    nd <- (if tau >? taucrit then
             setQs_i 0 ((0.058 / RHOSED c) * factor * hydrwidth nd
                        * SECPERYEAR c * persand * Cmath.pow tau 1.5
                        * Cmath.pow (1 - Cmath.sqrt (taucrit / tau)) 4.5) nd
           else setQs_i 0 0.0 nd) ;;
    (* gravel *)
    let taucrit := taucrit_grav w persand in
    nd <- (if tau >? taucrit then
             setQs_i 1 ((0.058 * SECPERYEAR c * factor * hydrwidth nd
                         / RHOSED c)
                        * (1 - persand) * Cmath.pow tau 1.5
                        * Cmath.pow (1 - (taucrit / tau)) 4.5) nd
           else setQs_i 1 0.0 nd) ;;
    q0 <- getQsm nd 0 ;;
    q1 <- getQsm nd 1 ;;
    let nd := setQs (q0 + q1) nd in
    Ok (qs nd, nd).

(** [TransCapacity( tLNode *nd, int i, double weight )] *)
Definition TransCapacity_w (c : tConsts) (w : t) (nd : tLNode) (i : nat)
  (weight : R) : result (R * tLNode) :=
  ld <- getLayerDepth nd i ;;
  _ <- assert (ld >? 0) "nd->getLayerDepth(i)>0" ;;
  dg <- getLayerDgrade nd i 0 ;;
  let persand := dg / ld in
  if slope nd <? 0 then
    nd <- setQs_i 0 0 nd ;;
    nd <- (if Nat.eqb (numg nd) 2 then setQs_i 1 0 nd else Ok nd) ;;
    let nd := setQs 0 nd in
    Ok (0.0, nd)
  else
    let tau := taudim w * Cmath.pow 0.03 0.6
               * Cmath.pow (q nd / SECPERYEAR c) 0.3
               * Cmath.pow (slope nd) 0.7 in
    (* sand *)
    let taucrit := taucrit_sand w persand in
    '(qss, nd) <-
      (if tau >? taucrit then
         let qss := (0.058 / RHOSED c) * weight * hydrwidth nd
                    * SECPERYEAR c * persand * Cmath.pow tau 1.5
                    * Cmath.pow (1 - Cmath.sqrt (taucrit / tau)) 4.5 in
         nd <- addQs_i 0 qss nd ;; Ok (qss, nd)
       else Ok (0, nd)) ;;
    (* gravel *)
    '(qsg, nd) <-
      (if Nat.eqb (numg nd) 2 then
         let taucrit := taucrit_grav w persand in
         if tau >? taucrit then
           let qsg := (0.058 * SECPERYEAR c * weight * hydrwidth nd
                       / RHOSED c)
                      * (1 - persand) * Cmath.pow tau 1.5
                      * Cmath.pow (1 - (taucrit / tau)) 4.5 in
           nd <- addQs_i 1 qsg nd ;; Ok (qsg, nd)
         else Ok (0, nd)
       else Ok (0, nd)) ;;
    Ok (qsg + qss, nd).

End tSedTransWilcock.

Module tSedTransMineTailings.

Record t : Type := mk {
  taudim : R;
  refs : R;
  refg : R;
  lowtaucs : R;
  lowtaucg : R;
  sands : R;
  sandb : R;
  gravs : R;
  gravb : R;
  hightaucs : R;
  hightaucg : R;
  grade : list R
}.

(** The tags are built as "GRAINDIAM" followed by the digit '1', then '2'. *)
Definition ctor (c : tConsts) (infile : tInputFile) : t :=
  let grade0 := ReadDouble infile "GRAINDIAM1" in
  let grade1 := ReadDouble infile "GRAINDIAM2" in
  let taudim := RHO c * GRAV c in
  let refs := (RHOSED c - RHO c) * 9.81 * grade0 in
  let refg := (RHOSED c - RHO c) * 9.81 * grade1 in
  let lowtaucs := 0.8 * (grade1 / grade0) * 0.040 * refs * 0.8531 in
  let lowtaucg := 0.04 * refg * 0.8531 in
  let hightaucs := 0.04 * refs * 0.8531 in
  let hightaucg := 0.01 * refg * 0.8531 in
  let sands := (lowtaucs - hightaucs) / (- 0.3) in
  let sandb := lowtaucs - (sands * 0.1) in
  let gravs := (lowtaucg - hightaucg) / (- 0.3) in
  let gravb := lowtaucg - (gravs * 0.1) in
  mk taudim refs refg lowtaucs lowtaucg sands sandb gravs gravb
     hightaucs hightaucg [grade0; grade1].

Definition taucrit_sand (w : t) (persand : R) : R :=
  taucrit_of persand (lowtaucs w) (sands w) (sandb w) (hightaucs w).

Definition taucrit_grav (w : t) (persand : R) : R :=
  taucrit_of persand (lowtaucg w) (gravs w) (gravb w) (hightaucg w).

(** [TransCapacity( tLNode *nd )] *)
Definition TransCapacity (c : tConsts) (w : t) (nd : tLNode)
  : result (R * tLNode) :=
  dg <- getLayerDgrade nd 0 0 ;;
  ld <- getLayerDepth nd 0 ;;
  let persand := dg / ld in
  if slope nd <? 0 then
    nd <- setQs_i 0 0 nd ;;
    nd <- setQs_i 1 0 nd ;;
    let nd := setQs 0 nd in
    Ok (0.0, nd)
  else
    let tau := taudim w * Cmath.pow 0.03 0.6
               * Cmath.pow (q nd / SECPERYEAR c) 0.3
               * Cmath.pow (slope nd) 0.7 in
    (* sand *)
    let taucrit := taucrit_sand w persand in
    nd <- (if tau >? taucrit then
             setQs_i 0 ((0.0541 / RHOSED c) * SECPERYEAR c * persand
                        * Cmath.pow (q nd / SECPERYEAR c) 1.12
                        * Cmath.pow (slope nd) (- 0.24)
                        * (tau - taucrit)) nd
           else setQs_i 0 0.0 nd) ;;
    (* gravel *)
    let taucrit := taucrit_grav w persand in
    nd <- (if tau >? taucrit then
             setQs_i 1 ((0.0541 / RHOSED c) * SECPERYEAR c * (1 - persand)
                        * Cmath.pow (q nd / SECPERYEAR c) 1.12
                        * Cmath.pow (slope nd) (- 0.24)
                        * (tau - taucrit)) nd
           else setQs_i 1 0.0 nd) ;;
    q0 <- getQsm nd 0 ;;
    q1 <- getQsm nd 1 ;;
    let nd := setQs (q0 + q1) nd in
    Ok (qs nd, nd).

(** [TransCapacity( tLNode *nd, int i, double weight )] *)
Definition TransCapacity_w (c : tConsts) (w : t) (nd : tLNode) (i : nat)
  (weight : R) : result (R * tLNode) :=
  ld <- getLayerDepth nd i ;;
  _ <- assert (ld >? 0) "nd->getLayerDepth(i)>0" ;;
  dg <- getLayerDgrade nd i 0 ;;
  let persand := dg / ld in
  if slope nd <? 0 then
    nd <- setQs_i 0 0 nd ;;
    nd <- (if Nat.eqb (numg nd) 2 then setQs_i 1 0 nd else Ok nd) ;;
    let nd := setQs 0 nd in
    Ok (0.0, nd)
  else
    let tau := taudim w * Cmath.pow 0.03 0.6
               * Cmath.pow (q nd / SECPERYEAR c) 0.3
               * Cmath.pow (slope nd) 0.7 in
    (* sand *)
    let taucrit := taucrit_sand w persand in
    '(qss, nd) <-
      (if tau >? taucrit then
         let qss := (0.0541 / RHOSED c) * weight * SECPERYEAR c * persand
                    * Cmath.pow (q nd / SECPERYEAR c) 1.12
                    * Cmath.pow (slope nd) (- 0.24) * (tau - taucrit) in
         nd <- addQs_i 0 qss nd ;; Ok (qss, nd)
       else Ok (0, nd)) ;;
    (* gravel *)
    '(qsg, nd) <-
      (if Nat.eqb (numg nd) 2 then
         let taucrit := taucrit_grav w persand in
         if tau >? taucrit then
           let qsg := (0.0541 / RHOSED c) * weight * SECPERYEAR c
                      * (1 - persand)
                      * Cmath.pow (q nd / SECPERYEAR c) 1.12
                      * Cmath.pow (slope nd) (- 0.24) * (tau - taucrit) in
           nd <- addQs_i 1 qsg nd ;; Ok (qsg, nd)
         else Ok (0, nd)
       else Ok (0, nd)) ;;
    Ok (qsg + qss, nd).

End tSedTransMineTailings.

(** ** The transport law an engine is built with

    [tErosion] holds one [sedTrans] object whose class is fixed by the macro
    [SEDTRANSOPTION]; here it is one of the four laws of this file. *)
Inductive tSedTrans : Type :=
| PwrLaw (p : tSedTransPwrLaw.t)
| PwrLawMulti (p : tSedTransPwrLawMulti.t)
| Wilcock (p : tSedTransWilcock.t)
| MineTailings (p : tSedTransMineTailings.t).

Definition TransCapacity (c : tConsts) (s : tSedTrans) (n : tLNode)
  : result (R * tLNode) :=
  match s with
  | PwrLaw p => tSedTransPwrLaw.TransCapacity p n
  | PwrLawMulti p => tSedTransPwrLawMulti.TransCapacity p n
  | Wilcock p => tSedTransWilcock.TransCapacity c p n
  | MineTailings p => tSedTransMineTailings.TransCapacity c p n
  end.

Definition TransCapacity_w (c : tConsts) (s : tSedTrans) (n : tLNode)
  (lyr : nat) (weight : R) : result (R * tLNode) :=
  match s with
  | PwrLaw p => tSedTransPwrLaw.TransCapacity_w p n lyr weight
  | PwrLawMulti p => tSedTransPwrLawMulti.TransCapacity_w p n lyr weight
  | Wilcock p => tSedTransWilcock.TransCapacity_w c p n lyr weight
  | MineTailings p => tSedTransMineTailings.TransCapacity_w c p n lyr weight
  end.

(** ** The mesh *)

Record tEdge : Type := mkEdge {
  origin : nat;          (* getOriginPtrNC, as an index *)
  destination : nat;     (* getDestinationPtrNC, as an index *)
  elength : R;           (* getLength *)
  vedglen : R            (* getVEdgLen *)
}.

(** A node pointer is an index into [nodes].  [order] is the node list as
    the list iterators walk it, the active nodes first; [nactive] is
    [getNodeList()->getActiveSize()].  [edges] is the active part of the edge
    list, each edge followed by its complement. *)
Record tMesh : Type := mkMesh {
  nodes : list tLNode;
  order : list nat;
  nactive : nat;
  edges : list tEdge
}.

Definition setNodes (ns : list tLNode) (m : tMesh) : tMesh :=
  mkMesh ns (order m) (nactive m) (edges m).

(** [*p] for a node pointer. *)
Definition getNode (ns : list tLNode) (i : nat) : result tLNode :=
  subscript ns i "null node pointer".

(** [for( cn = ni.FirstP(); ni.IsActive(); cn = ni.NextP() )] visits these. *)
Definition active (m : tMesh) : list nat := firstn (nactive m) (order m).

(** ** tEquilibCheck *)

Module tEquilibCheck.

(** An entry of [massList] is the array [tmp]: [tmp[0]] the time, [tmp[1]]
    the mean elevation. *)
Record t : Type := mk {
  massList : list (R * R);
  longTime : R;
  longRate : R;
  shortRate : R
}.

Definition setLongTime (val : R) (e : t) : t :=
  mk (massList e) (if val >? 0 then val else 0.0) (longRate e) (shortRate e).

(** [mI.LastP()] *)
Definition LastP (l : list (R * R)) : result (R * R) :=
  match rev l with
  | x :: _ => Ok x
  | [] => Fatal "null list pointer"
  end.

(** [FindIterChngRate()], with the current time of [timePtr] and the mesh of
    [meshPtr]. *)
Definition FindIterChngRate (time : R) (m : tMesh) (e : t) : result (R * t) :=
  let tmp0 := time in
  '(mass, area) <-
    forM (active m)
      (fun i '(mass, area) =>
         cn <- getNode (nodes m) i ;;
         Ok (mass + z cn * varea cn, area + varea cn))
      (0.0, 0.0) ;;
  let tmp1 := mass / area in
  shortRate <-
    (if negb (Nat.eqb (List.length (massList e)) 0) then
       last <- LastP (massList e) ;;
       let dt := tmp0 - fst last in
       _ <- assert (dt >? 0.0) "dt > 0.0" ;;
       Ok ((tmp1 - snd last) / dt)
     else
       _ <- assert (tmp0 >? 0) "tmp[0] > 0" ;;
       Ok (tmp1 / tmp0)) ;;
  Ok (shortRate,
      mk (massList e ++ [(tmp0, tmp1)]) (longTime e) (longRate e) shortRate).

(** The constructors: without arguments; given the mesh and the timer;
    given the mesh, the timer and the input file.  The last two take a first
    sample. *)
Definition ctor : t := mk [] 0.0 0.0 0.0.

Definition ctor_mesh (time : R) (m : tMesh) : result t :=
  '(_, e) <- FindIterChngRate time m (mk [] 0.0 0.0 0.0) ;;
  Ok e.

Definition ctor_file (time : R) (m : tMesh) (fileRef : tInputFile)
  : result t :=
  '(_, e) <- FindIterChngRate time m
               (mk [] (ReadDouble fileRef "EQUITIME") 0.0 0.0) ;;
  Ok e.

(** Modelled from the spec: the list iterator [tListIter], which is not in
    this file.  [scan] is the loop
    [while( na[0] < targetTime && !(mI.AtEnd()) ) { ca = na; na = *(mI.NextP()); }]
    with the iterator standing on [na] and [rest] the entries after it: the
    iterator is not at the end while it stands on an entry, and [NextP()]
    after the last entry yields a null pointer. *)
Fixpoint scan (targetTime : R) (ca na : R * R) (rest : list (R * R))
  : result (R * R) :=
  if fst na <? targetTime then
    match rest with
    | nx :: rest' => scan targetTime na nx rest'
    | [] => Fatal "null list pointer"
    end
  else Ok ca.

(** [FindLongTermChngRate()] *)
Definition FindLongTermChngRate (time : R) (m : tMesh) (e : t)
  : result (R * t) :=
  '(_, e) <- FindIterChngRate time m e ;;
  last <- LastP (massList e) ;;
  let targetTime := fst last - longTime e in
  if (longTime e =? 0.0) || Nat.eqb (List.length (massList e)) 1 then
    Ok (shortRate e,
        mk (massList e) (longTime e) (shortRate e) (shortRate e))
  else
    match massList e with
    | ca :: na :: rest =>
        ca <- scan targetTime ca na rest ;;
        let dt := fst last - fst ca in
        _ <- assert (dt >? 0) "dt > 0" ;;
        let longRate := (snd last - snd ca) / dt in
        Ok (longRate, mk (massList e) (longTime e) longRate (shortRate e))
    | _ => Fatal "null list pointer"
    end.

(** [FindLongTermChngRate( double newtime )] *)
Definition FindLongTermChngRate_new (newtime : R) (time : R) (m : tMesh)
  (e : t) : result (R * t) :=
  FindLongTermChngRate time m (setLongTime newtime e).

(** The long-term rate as the specification words it: between the latest
    entry and the earliest entry whose time is at least the latest time
    minus [longTime]. *)
Definition spec_LongTermChngRate (l : list (R * R)) (longTime shortRate : R)
  : option R :=
  match rev l with
  | [] => None
  | last :: older =>
      if (longTime =? 0) || Nat.eqb (List.length older) 0 then Some shortRate
      else
        match find (fun en => fst last - longTime <=? fst en) l with
        | Some en => Some ((snd last - snd en) / (fst last - fst en))
        | None => None
        end
  end.

End tEquilibCheck.

(** ** Attributes written by the hydraulics collaborator

    Discharge and slope are inputs of this file; these two setters are used
    to compare a node with itself under another discharge or slope. *)
Definition setQ (v : R) (n : tLNode) : tLNode :=
  mkNode (z n) (varea n) (slope n) v (drarea n) (hydrwidth n) (hydrrough n)
    (chandepth n) (floodstatus n) (boundary n) (tauc n) (maxregdep n) (numg n)
    (downstrm n) (tau n) (drdt n) (dzdt n) (qs n) (qsin n) (qsm n) (qsinm n)
    (layerlist n).

Definition setSlope (v : R) (n : tLNode) : tLNode :=
  mkNode (z n) (varea n) v (q n) (drarea n) (hydrwidth n) (hydrrough n)
    (chandepth n) (floodstatus n) (boundary n) (tauc n) (maxregdep n) (numg n)
    (downstrm n) (tau n) (drdt n) (dzdt n) (qs n) (qsin n) (qsm n) (qsinm n)
    (layerlist n).

(** The value a capacity call returns, when it returns. *)
Definition returned {A : Type} (r : result (R * A)) : option R :=
  match r with
  | Ok (v, _) => Some v
  | _ => None
  end.

(** Both calls return, the first no more than the second. *)
Definition returns_le {A : Type} (r1 r2 : result (R * A)) : Prop :=
  match returned r1, returned r2 with
  | Some v1, Some v2 => v1 <= v2
  | _, _ => False
  end.

(** ** Collaborators of the engine

    The bodies of these operations are not part of this file; the engine is
    modelled for every behaviour they may have. *)

(** Methods of [tLNode] and [tEdge]. *)
Record tNodeOps : Type := mkNodeOps {
  (* tLNode::EroDep( double dz ) *)
  EroDep_dz : R -> tLNode -> tLNode;
  (* tLNode::EroDep( int i, tArray<double> valgrd, double tt ): the amounts
     actually eroded or deposited per size, and the node afterwards *)
  EroDep : nat -> list R -> R -> tLNode -> result (list R * tLNode);
  OnBedrock : tLNode -> bool;
  getAlluvThickness : tLNode -> R;
  (* tEdge::CalcSlope() *)
  CalcSlope : tEdge -> list tLNode -> R
}.

(** [tStreamNet]: the data the engine reads and the operations it calls. *)
Record tStreamNet : Type := mkStreamNet {
  getRainRate : R;
  getInfilt : R;
  getInletNodePtr : option nat;      (* None: the null pointer *)
  getInSedLoad : R;
  getInSedLoadm : list R;
  FindChanGeom : tMesh -> tMesh;
  FindHydrGeom : tMesh -> tMesh;
  SortNodesByNetOrder : tMesh -> tMesh
}.

(** [tUplift] *)
Record tUplift : Type := mkUplift {
  getRate : R
}.

(** [tErosion] (the mesh it points to is passed along). *)
Record tErosion : Type := mkErosion {
  bedErode : tBedErodePwrLaw.t;
  sedTrans : tSedTrans;
  kd : R;
  mdMeshAdaptMaxFlux : R
}.

(** [cn == inletNode] *)
Definition isInlet (strmNet : tStreamNet) (i : nat) : bool :=
  match getInletNodePtr strmNet with
  | Some k => Nat.eqb k i
  | None => false
  end.

(** [cn->f(...)] on the node store. *)
Definition withNode (ns : list tLNode) (i : nat)
  (f : tLNode -> result tLNode) : result (list tLNode) :=
  cn <- getNode ns i ;;
  cn <- f cn ;;
  Ok (upd ns i cn).

Definition onNode (ns : list tLNode) (i : nat) (f : tLNode -> tLNode)
  : result (list tLNode) :=
  withNode ns i (fun cn => Ok (f cn)).

(** A write into a [tArray<double>]. *)
Definition setA (a : list R) (i : nat) (v : R) : result (list R) :=
  _ <- subscript a i "array index" ;; Ok (upd a i v).

(** ** The sub-step loop

    [do { ... dtg -= dtmax; } while( dtg > tol );] where one pass of the
    body, given the time that remains, yields the sub-step [dtmax] it used
    and the new state.  The loop is run on a budget of [fuel] passes: [None]
    when the budget does not suffice.  The result carries the sub-steps in
    the order they were applied. *)
Fixpoint do_while {S : Type} (fuel : nat) (body : R -> S -> result (R * S))
  (tol : R) (dtg : R) (s : S) : option (result (S * list R)) :=
  match fuel with
  | O => None
  | Datatypes.S fuel' =>
      match body dtg s with
      | Ok (dtmax, s) =>
          let dtg := dtg - dtmax in
          if dtg >? tol then
            match do_while fuel' body tol dtg s with
            | Some (Ok (s, steps)) => Some (Ok (s, dtmax :: steps))
            | Some (Fatal msg) => Some (Fatal msg)
            | Some OutOfFuel => Some OutOfFuel
            | None => None
            end
          else Some (Ok (s, [dtmax]))
      | Fatal msg => Some (Fatal msg)
      | OutOfFuel => Some OutOfFuel
      end
  end.

(** The mesh a run ends with, out of the state of its loop. *)
Definition finish {S : Type} (f : S -> tMesh)
  (r : option (result (S * list R))) : option (result (tMesh * list R)) :=
  match r with
  | Some (Ok (s, steps)) => Some (Ok (f s, steps))
  | Some (Fatal msg) => Some (Fatal msg)
  | Some OutOfFuel => Some OutOfFuel
  | None => None
  end.

(** The run of an integrator terminates: some budget of sub-steps suffices,
    and so does every larger one. *)
Definition terminates {A : Type} (run : nat -> option A) : Prop :=
  exists N : nat, forall fuel : nat, (N <= fuel)%nat -> run fuel <> None.

(** Whenever the run returns, the sub-steps it applied sum to a value
    between [lo] and [hi]. *)
Definition substeps_within {A : Type}
  (run : nat -> option (result (A * list R))) (lo hi : R) : Prop :=
  forall (fuel : nat) (a : A) (steps : list R),
    run fuel = Some (Ok (a, steps)) -> lo <= Rsum steps <= hi.

(** ** tErosion::ErodeDetachLim( double dtg, tStreamNet *strmNet ) *)

(** first find erosion rate *)
Definition ErodeDetachLim_rates (er : tErosion) (act : list nat)
  (ns : list tLNode) : result (list tLNode) :=
  forM act
    (fun i ns =>
       withNode ns i
         (fun cn =>
            '(cap, cn) <- tBedErodePwrLaw.DetachCapacity (bedErode er) cn ;;
            Ok (setDzDt (- cap) cn)))
    ns.

(** find max. time step s.t. slope does not reverse *)
Definition ErodeDetachLim_dtmax (act : list nat) (ns : list tLNode) (dtg : R)
  : result R :=
  let frac := 0.9 in
  forM act
    (fun i dtmax =>
       cn <- getNode ns i ;;
       dn <- getNode ns (downstrm cn) ;;
       let ratediff := dzdt dn - dzdt cn in
       if ratediff >? 0 then
         let dt := (z cn - z dn) / ratediff * frac in
         if (dt >? 0.000005) && (dt <? dtmax) then Ok dt else Ok dtmax
       else Ok dtmax)
    dtg.

(** apply erosion *)
Definition ErodeDetachLim_apply (ops : tNodeOps) (act : list nat) (dtmax : R)
  (ns : list tLNode) : result (list tLNode) :=
  forM act
    (fun i ns =>
       withNode ns i
         (fun cn =>
            let valgrd := [dzdt cn * dtmax] in
            '(_, cn) <- EroDep ops 0 valgrd 0 cn ;;
            Ok cn))
    ns.

Definition ErodeDetachLim_body (ops : tNodeOps) (er : tErosion) (dtg : R)
  (m : tMesh) : result (R * tMesh) :=
  ns <- ErodeDetachLim_rates er (active m) (nodes m) ;;
  dtmax <- ErodeDetachLim_dtmax (active m) ns dtg ;;
  ns <- ErodeDetachLim_apply ops (active m) dtmax ns ;;
  Ok (dtmax, setNodes ns m).

Definition ErodeDetachLim (fuel : nat) (ops : tNodeOps) (er : tErosion)
  (dtg : R) (strmNet : tStreamNet) (m : tMesh)
  : option (result (tMesh * list R)) :=
  let m := FindChanGeom strmNet m in
  let m := FindHydrGeom strmNet m in
  do_while fuel (ErodeDetachLim_body ops er) 0.0000001 dtg m.

(** ** tErosion::ErodeDetachLim( double dtg, tStreamNet *strmNet,
       tUplift *UPtr ) *)

Definition ErodeDetachLimU_dtmax (UPtr : tUplift) (dtmin : R)
  (act : list nat) (ns : list tLNode) (dtg : R) : result R :=
  let frac := 0.1 in
  forM act
    (fun i dtmax =>
       cn <- getNode ns i ;;
       dn <- getNode ns (downstrm cn) ;;
       let ratediff :=
         if negb (boundary dn) then dzdt dn - dzdt cn
         else dzdt dn - dzdt cn - getRate UPtr in
       if (ratediff >? 0) && (z cn >? z dn) then
         let dt := (z cn - z dn) / ratediff * frac in
         if (dt >? dtmin) && (dt <? dtmax) then Ok dt else Ok dtmin
       else Ok dtmax)
    dtg.

Definition ErodeDetachLimU_body (ops : tNodeOps) (er : tErosion)
  (UPtr : tUplift) (dtmin : R) (dtg : R) (m : tMesh) : result (R * tMesh) :=
  ns <- ErodeDetachLim_rates er (active m) (nodes m) ;;
  dtmax <- ErodeDetachLimU_dtmax UPtr dtmin (active m) ns dtg ;;
  ns <- ErodeDetachLim_apply ops (active m) dtmax ns ;;
  Ok (dtmax, setNodes ns m).

Definition ErodeDetachLimU (fuel : nat) (ops : tNodeOps) (er : tErosion)
  (dtg : R) (strmNet : tStreamNet) (UPtr : tUplift) (m : tMesh)
  : option (result (tMesh * list R)) :=
  let dtmin := dtg * 0.0001 in
  let m := FindChanGeom strmNet m in
  let m := FindHydrGeom strmNet m in
  do_while fuel (ErodeDetachLimU_body ops er UPtr dtmin) 0 dtg m.

(** ** tErosion::StreamErode( double dtg, tStreamNet *strmNet ) *)

(** Zero out sed influx *)
Definition zeroQsin (act : list nat) (ns : list tLNode)
  : result (list tLNode) :=
  forM act (fun i ns => onNode ns i (setQsin 0.0)) ns.

(** Compute erosion rates *)
Definition StreamErode_rates (c : tConsts) (ops : tNodeOps) (er : tErosion)
  (strmNet : tStreamNet) (act : list nat) (ns : list tLNode)
  : result (list tLNode) :=
  forM act
    (fun i ns =>
       cn <- getNode ns i ;;
       '(cap, cn) <- TransCapacity c (sedTrans er) cn ;;
       let pedr := (qsin cn - cap) / varea cn in
       let pedr :=
         if isInlet strmNet i then pedr + getInSedLoad strmNet / varea cn
         else pedr in
       '(pedr, cn) <-
         (if OnBedrock ops cn && (pedr <? 0) then
            '(d, cn) <- tBedErodePwrLaw.DetachCapacity (bedErode er) cn ;;
            let dcap := - d in
            Ok (if dcap >? pedr then dcap else pedr, cn)
          else Ok (pedr, cn)) ;;
       let cn := setDzDt pedr cn in
       let ns := upd ns i cn in
       onNode ns (downstrm cn) (addQsin (qsin cn - pedr * varea cn)))
    ns.

(** figure out how big a time-step we can get away with *)
Definition StreamErode_dtmax (act : list nat) (ns : list tLNode) (dtg : R)
  : result R :=
  let frac := 0.3 in
  dtmax <-
    forM act
      (fun i dtmax =>
         cn <- getNode ns i ;;
         dn <- getNode ns (downstrm cn) ;;
         let ratediff := dzdt dn - dzdt cn in
         if (ratediff >? 0) && (z cn >? z dn) then
           let dt := (z cn - z dn) / ratediff in
           if dt <? dtmax then Ok dt else Ok dtmax
         else Ok dtmax)
      (dtg / frac) ;;
  let dtmax := dtmax * frac in
  Ok (if dtmax <? kSmallTimeStep then kSmallTimeStep else dtmax).

(** do erosion/deposition by integrating rates over dtmax *)
Definition StreamErode_apply (ops : tNodeOps) (act : list nat) (dtmax : R)
  (ns : list tLNode) : result (list tLNode) :=
  forM act
    (fun i ns =>
       cn <- getNode ns i ;;
       let dz := ((qsin cn - qs cn) / varea cn) * dtmax in
       let dz :=
         if OnBedrock ops cn && (dz <? 0.0) then
           let dzr := drdt cn * dtmax in
           if - dz >? - dzr + getAlluvThickness ops cn
           then dzr - getAlluvThickness ops cn
           else dz
         else dz in
       let cn := EroDep_dz ops dz cn in
       let ns := upd ns i cn in
       _ <- assert (dtmax >? 0) "dtmax>0" ;;
       onNode ns (downstrm cn) (addQsin (qsin cn - dz * varea cn / dtmax)))
    ns.

Definition StreamErode_body (c : tConsts) (ops : tNodeOps) (er : tErosion)
  (strmNet : tStreamNet) (dtg : R) (m : tMesh) : result (R * tMesh) :=
  ns <- zeroQsin (active m) (nodes m) ;;
  ns <- StreamErode_rates c ops er strmNet (active m) ns ;;
  dtmax <- StreamErode_dtmax (active m) ns dtg ;;
  ns <- zeroQsin (active m) ns ;;
  ns <- (match getInletNodePtr strmNet with
         | Some k => onNode ns k (setQsin (getInSedLoad strmNet))
         | None => Ok ns
         end) ;;
  ns <- StreamErode_apply ops (active m) dtmax ns ;;
  Ok (dtmax, setNodes ns m).

Definition StreamErode (fuel : nat) (c : tConsts) (ops : tNodeOps)
  (er : tErosion) (dtg : R) (strmNet : tStreamNet) (m : tMesh)
  : option (result (tMesh * list R)) :=
  let m := SortNodesByNetOrder strmNet m in
  do_while fuel (StreamErode_body c ops er strmNet) 1e-6 dtg m.

(** ** tErosion::StreamErodeMulti( double dtg, tStreamNet *strmNet,
       double time ) *)

(** The local arrays [dz], [dzr], [retbr] and [retsed], which live across
    the nodes and the sub-steps. *)
Record tMultiArrays : Type := mkMultiArrays {
  a_dz : list R;
  a_dzr : list R;
  a_retbr : list R;
  a_retsed : list R
}.

(** [ni.FirstP()->getNumg()] *)
Definition firstNumg (m : tMesh) : result nat :=
  match order m with
  | k :: _ => cn <- getNode (nodes m) k ;; Ok (numg cn)
  | [] => Fatal "null node pointer"
  end.

(** Zero out sed influx of all sizes *)
Definition StreamErodeMulti_zero (act : list nat) (ns : list tLNode)
  : result (list tLNode) :=
  forM act
    (fun i ns =>
       ns <- onNode ns i (setQsin 0.0) ;;
       ns <- onNode ns i (setQs 0.0) ;;
       cn <- getNode ns i ;;
       forM (seq 0 (numg cn))
         (fun j ns =>
            ns <- withNode ns i (setQsin_i j 0.0) ;;
            withNode ns i (setQs_i j 0.0))
         ns)
    ns.

Definition StreamErodeMulti_rates (c : tConsts) (er : tErosion)
  (strmNet : tStreamNet) (act : list nat) (ns : list tLNode)
  : result (list tLNode) :=
  forM act
    (fun i ns =>
       cn <- getNode ns i ;;
       s0 <- getLayerSed cn 0 ;;
       '(pedr, cn) <-
         (if (0 <? s0)%Z then
            (* Sediment in first layer so transport cap *)
            '(cap, cn) <- TransCapacity c (sedTrans er) cn ;;
            let pedr := (qsin cn - cap) / varea cn in
            let pedr :=
              if isInlet strmNet i then pedr + getInSedLoad strmNet / varea cn
              else pedr in
            s1 <- getLayerSed cn 1 ;;
            if (s1 =? 0)%Z && (pedr <? 0) then
              ld <- getLayerDepth cn 0 ;;
              if Cmath.fabs (ld - maxregdep cn) >? 0.001 then
                '(d, cn) <- tBedErodePwrLaw.DetachCapacity (bedErode er) cn ;;
                ld <- getLayerDepth cn 0 ;;
                let dcap := - d * (1 - (ld / maxregdep cn)) in
                Ok (pedr + dcap, cn)
              else Ok (pedr, cn)
            else Ok (pedr, cn)
          else
            (* Top layer is bedrock, so just detach and go *)
            '(d, cn) <- tBedErodePwrLaw.DetachCapacity (bedErode er) cn ;;
            Ok (- d, cn)) ;;
       let cn := setDzDt pedr cn in
       let ns := upd ns i cn in
       onNode ns (downstrm cn) (addQsin (qsin cn - pedr * varea cn)))
    ns.

Definition StreamErodeMulti_dtmax (act : list nat) (ns : list tLNode)
  (dtg : R) : result R :=
  let frac := 0.3 in
  dtmax <-
    forM act
      (fun i dtmax =>
         cn <- getNode ns i ;;
         dn <- getNode ns (downstrm cn) ;;
         let ratediff := dzdt dn - dzdt cn in
         if (ratediff >? 0) && (z cn >? z dn) then
           let dt := (z cn - z dn) / ratediff in
           let dtmax := if dt <? dtmax then dt else dtmax in
           let dtmax := if dt <? 1e-6 then 0.005 else dtmax in
           Ok dtmax
         else Ok dtmax)
      (dtg / frac) ;;
  Ok (dtmax * frac).

(** Zero out sed influx again *)
Definition StreamErodeMulti_zero2 (act : list nat) (ns : list tLNode)
  : result (list tLNode) :=
  forM act
    (fun i ns =>
       ns <- onNode ns i (setQsin 0.0) ;;
       cn <- getNode ns i ;;
       forM (seq 0 (numg cn)) (fun j ns => withNode ns i (setQsin_i j 0.0)) ns)
    ns.

(** [dzr[i] = cn->getDrDt()*cn->getLayerDgrade(lyr,i)/cn->getLayerDepth(lyr)
    *dtmax...; dzrt += dzr[i];] for the sizes of [cn]; [scale] is the
    multiplication by [dtmax] and what follows it. *)
Definition bedrock_depths (cn : tLNode) (lyr : nat) (scale : R -> R)
  (dzr : list R) : result (R * list R) :=
  forM (seq 0 (numg cn))
    (fun j '(dzrt, dzr) =>
       dg <- getLayerDgrade cn lyr j ;;
       ld <- getLayerDepth cn lyr ;;
       let v := scale (drdt cn * dg / ld) in
       dzr <- setA dzr j v ;;
       Ok (dzrt + v, dzr))
    (0, dzr).

Definition StreamErodeMulti_apply (ops : tNodeOps) (act : list nat)
  (dtmax timegb : R) (st : list tLNode * tMultiArrays)
  : result (list tLNode * tMultiArrays) :=
  forM act
    (fun i '(ns, a) =>
       cn <- getNode ns i ;;
       (* Depth of potential erosion due to excess transport capacity *)
       '(dzt, a) <-
         forM (seq 0 (numg cn))
           (fun j '(dzt, a) =>
              qi <- getQsinm cn j ;;
              qo <- getQsm cn j ;;
              let v := ((qi - qo) / varea cn) * dtmax in
              dz <- setA (a_dz a) j v ;;
              retbr <- setA (a_retbr a) j 0 ;;
              retsed <- setA (a_retsed a) j 0 ;;
              Ok (dzt + v, mkMultiArrays dz (a_dzr a) retbr retsed))
           (0, a) ;;
       (* If we're on bedrock, scour the bedrock *)
       s0 <- getLayerSed cn 0 ;;
       '(cn, a) <-
         (if (s0 <? 1)%Z then
            (* Bedrock at surface *)
            '(dzrt, dzr) <-
              bedrock_depths cn 0 (fun x => x * dtmax) (a_dzr a) ;;
            let a := mkMultiArrays (a_dz a) dzr (a_retbr a) (a_retsed a) in
            if dzrt <? 0 then
              '(ret, cn) <- EroDep ops 0 dzr timegb cn ;;
              Ok (cn, mkMultiArrays (a_dz a) dzr ret (a_retsed a))
            else Ok (cn, a)
          else
            ld0 <- getLayerDepth cn 0 ;;
            if (Cmath.fabs (ld0 - maxregdep cn) >? 0.001) && (dzt <? 0.0) then
              s1 <- getLayerSed cn 1 ;;
              if (s1 <? 1)%Z then
                (* Bedrock not at surface, but not enough sediment either *)
                '(dzrt, dzr) <-
                  bedrock_depths cn 1
                    (fun x => x * dtmax
                              * ((maxregdep cn - ld0) / maxregdep cn))
                    (a_dzr a) ;;
                let a := mkMultiArrays (a_dz a) dzr (a_retbr a) (a_retsed a) in
                if dzrt <? 0 then
                  '(ret, cn) <- EroDep ops 1 dzr timegb cn ;;
                  Ok (cn, mkMultiArrays (a_dz a) dzr ret (a_retsed a))
                else Ok (cn, a)
              else Ok (cn, a)
            else Ok (cn, a)) ;;
       (* Update alluvium thickness and node elevation *)
       '(cn, a) <-
         (if Cmath.fabs dzt >? 0 then
            '(ret, cn) <- EroDep ops 0 (a_dz a) timegb cn ;;
            Ok (cn, mkMultiArrays (a_dz a) (a_dzr a) (a_retbr a) ret)
          else Ok (cn, a)) ;;
       let ns := upd ns i cn in
       (* Send sediment downstream *)
       ns <-
         forM (seq 0 (numg cn))
           (fun j ns =>
              cn <- getNode ns i ;;
              qi <- getQsinm cn j ;;
              rb <- subscript (a_retbr a) j "retbr" ;;
              rs <- subscript (a_retsed a) j "retsed" ;;
              withNode ns (downstrm cn)
                (addQsin_i j (qi - (rb + rs) * varea cn / dtmax)))
           ns ;;
       Ok (ns, a))
    st.

(** The state of the loop: the time gone by, the mesh and the arrays. *)
Definition StreamErodeMulti_body (c : tConsts) (ops : tNodeOps)
  (er : tErosion) (strmNet : tStreamNet) (dtg : R)
  (st : R * tMesh * tMultiArrays) : result (R * (R * tMesh * tMultiArrays)) :=
  let '(timegb, m, a) := st in
  ns <- StreamErodeMulti_zero (active m) (nodes m) ;;
  ns <- StreamErodeMulti_rates c er strmNet (active m) ns ;;
  dtmax <- StreamErodeMulti_dtmax (active m) ns dtg ;;
  ns <- StreamErodeMulti_zero2 (active m) ns ;;
  let timegb := timegb + dtmax in
  '(ns, a) <- StreamErodeMulti_apply ops (active m) dtmax timegb (ns, a) ;;
  Ok (dtmax, (timegb, setNodes ns m, a)).

Definition StreamErodeMulti (fuel : nat) (c : tConsts) (ops : tNodeOps)
  (er : tErosion) (dtg : R) (strmNet : tStreamNet) (time : R) (m : tMesh)
  : option (result (tMesh * list R)) :=
  match firstNumg m with
  | Ok n =>
      let a :=
        mkMultiArrays (repeat 0 n) (repeat 0 n) (repeat 0 n) (repeat 0 n) in
      let m := SortNodesByNetOrder strmNet m in
      let m := FindChanGeom strmNet m in
      let m := FindHydrGeom strmNet m in
      finish (fun st => snd (fst st))
        (do_while fuel (StreamErodeMulti_body c ops er strmNet) 1e-6 dtg
           (time, m, a))
  | Fatal msg => Some (Fatal msg)
  | OutOfFuel => Some OutOfFuel
  end.

(** ** tErosion::DetachErode( double dtg, tStreamNet *strmNet, double time ) *)

(** Zero out sed influx of all sizes *)
Definition DetachErode_zero (strmNet : tStreamNet) (act : list nat)
  (ns : list tLNode) : result (list tLNode) :=
  let insedloadtotal := getInSedLoad strmNet in
  let insed := getInSedLoadm strmNet in
  forM act
    (fun i ns =>
       ns <- onNode ns i (setQs 0.0) ;;
       cn <- getNode ns i ;;
       if negb (isInlet strmNet i) then
         ns <- onNode ns i (setQsin 0.0) ;;
         forM (seq 0 (numg cn))
           (fun j ns =>
              ns <- withNode ns i (setQsin_i j 0.0) ;;
              withNode ns i (setQs_i j 0.0))
           ns
       else
         ns <- onNode ns i (setQsin insedloadtotal) ;;
         forM (seq 0 (numg cn))
           (fun j ns =>
              ns <- withNode ns i (setQs_i j 0.0) ;;
              v <- subscript insed j "insed" ;;
              withNode ns i (setQsin_i j v))
           ns)
    ns.

(** [while((cn->getChanDepth()-depck)>0.0001)]: the transport capacity as a
    depth-weighted sum over the layers within the channel depth.  Yields the
    layer index, [depck], [qs] and the node. *)
Fixpoint capacity_loop (lfuel : nat) (c : tConsts) (s : tSedTrans)
  (cn : tLNode) (i : nat) (depck qs : R) : result (nat * R * R * tLNode) :=
  if (chandepth cn - depck) >? 0.0001 then
    match lfuel with
    | O => OutOfFuel
    | Datatypes.S lfuel' =>
        ld <- getLayerDepth cn i ;;
        '(cap, cn) <-
          (if (depck + ld) <=? chandepth cn then
             TransCapacity_w c s cn i (ld / chandepth cn)
           else
             TransCapacity_w c s cn i (1 - (depck / chandepth cn))) ;;
        ld <- getLayerDepth cn i ;;
        capacity_loop lfuel' c s cn (S i) (depck + ld) (qs + cap)
    end
  else Ok (i, depck, qs, cn).

(** Estimate erosion rates: the body of the loop for one node.  ([i-1] is
    read at [i >= 1]; on a negative channel depth the loop is not entered
    and the source passes the index -1: that corner is outside the model.) *)
Definition DetachErode_rate_node (lfuel : nat) (c : tConsts) (er : tErosion)
  (i : nat) (ns : list tLNode) : result (list tLNode) :=
  cn <- getNode ns i ;;
  _ <- assert (chandepth cn <? 1000) "cn->getChanDepth()<1000" ;;
  '(k, depck, qs, cn) <- capacity_loop lfuel c (sedTrans er) cn 0 0 0 ;;
  '(d, cn) <-
    (if depck >? chandepth cn then
       tBedErodePwrLaw.DetachCapacity_lyr (bedErode er) cn (k - 1)
     else tBedErodePwrLaw.DetachCapacity_lyr (bedErode er) cn k) ;;
  let drdt := - d in
  let cn := setDrDt drdt cn in
  let cn := setDzDt drdt cn in
  let excap := (qs - qsin cn) / varea cn in
  (* Limit erosion to capacity of flow or deposition *)
  let cn := if - drdt >? excap then setDzDt (- excap) cn else cn in
  let ns := upd ns i cn in
  onNode ns (downstrm cn) (addQsin (qsin cn - dzdt cn * varea cn)).

Definition DetachErode_rates (lfuel : nat) (c : tConsts) (er : tErosion)
  (act : list nat) (ns : list tLNode) : result (list tLNode) :=
  forM act (DetachErode_rate_node lfuel c er) ns.

(** Find local time-step based on dzdt (the loop also resets the influx of
    each size).  Yields [dtmax] before it is multiplied by [frac]. *)
Definition DetachErode_dtmax (strmNet : tStreamNet) (act : list nat)
  (dtg : R) (ns : list tLNode) : result (R * list tLNode) :=
  let frac := 0.3 in
  let insed := getInSedLoadm strmNet in
  forM act
    (fun i '(dtmax, ns) =>
       cn <- getNode ns i ;;
       ns <-
         (if negb (isInlet strmNet i) then
            forM (seq 0 (numg cn))
              (fun j ns => withNode ns i (setQsin_i j 0.0)) ns
          else
            forM (seq 0 (numg cn))
              (fun j ns =>
                 v <- subscript insed j "insed" ;;
                 withNode ns i (setQsin_i j v))
              ns) ;;
       cn <- getNode ns i ;;
       dn <- getNode ns (downstrm cn) ;;
       let ratediff := dzdt dn - dzdt cn in
       if (ratediff >? 0) && (slope cn >? 1e-7) then
         let dt := (z cn - z dn) / ratediff in
         let dtmax := if dt <? dtmax then dt else dtmax in
         let dtmax := if dt <? 0.0001 then 0.0001 else dtmax in
         Ok (dtmax, ns)
       else Ok (dtmax, ns))
    (dtg / frac, ns).

(** The depth a node is to change by in the sub-step, and the flag: 0 when
    detachment-limited, 1 when transport-limited. *)
Definition substep_dz (cn : tLNode) (dtmax : R) : R * nat :=
  let excap := (qs cn - qsin cn) / varea cn in
  if - drdt cn <? excap then (drdt cn * dtmax, 0%nat)
  else (- excap * dtmax, 1%nat).

(** [(cn->getQsin(j)-cn->getQs(j))*dtmax/cn->getVArea()] *)
Definition size_balance (cn : tLNode) (j : nat) (dtmax : R) : result R :=
  qi <- getQsinm cn j ;;
  qo <- getQsm cn j ;;
  Ok ((qi - qo) * dtmax / varea cn).

(** [for(j...) cn->getDownstrmNbr()->addQsin(j,-ret[j]*cn->getVArea()/dtmax);] *)
Definition send_down (ns : list tLNode) (i : nat) (ret : list R) (dtmax : R)
  : result (list tLNode) :=
  cn <- getNode ns i ;;
  forM (seq 0 (numg cn))
    (fun j ns =>
       cn <- getNode ns i ;;
       r <- subscript ret j "ret" ;;
       withNode ns (downstrm cn) (addQsin_i j (- r * varea cn / dtmax)))
    ns.

(** The amounts asked of layer [lyr] when it can supply the whole of [dz]. *)
Definition erolist_top (lyr : nat) (dz dtmax : R) (st : tLNode * list R)
  : result (tLNode * list R) :=
  forM (seq 0 (numg (fst st)))
    (fun j '(cn, erolist) =>
       dg <- getLayerDgrade cn lyr j ;;
       ld <- getLayerDepth cn lyr ;;
       erolist <- setA erolist j (dz * dg / ld) ;;
       e <- subscript erolist j "erolist" ;;
       lim <- size_balance cn j dtmax ;;
       if e <? lim then
         (* decrease total dz because of capacity limitations *)
         erolist <- setA erolist j lim ;;
         cn <- setQsin_i j 0.0 cn ;;
         cn <- setQs_i j 0.0 cn ;;
         Ok (cn, erolist)
       else Ok (cn, erolist))
    st.

(** The amounts asked of layer [lyr] when it is not deep enough: all of it,
    unless the capacity of a size limits it ([flag] becomes 1); [dz] is
    reduced by what is asked. *)
Definition erolist_all (lyr : nat) (dtmax : R)
  (st : tLNode * list R * R * nat) : result (tLNode * list R * R * nat) :=
  let '(cn0, _, _, _) := st in
  forM (seq 0 (numg cn0))
    (fun j '(cn, erolist, dz, flag) =>
       dg <- getLayerDgrade cn lyr j ;;
       erolist <- setA erolist j (- dg) ;;
       e <- subscript erolist j "erolist" ;;
       lim <- size_balance cn j dtmax ;;
       '(cn, erolist, flag) <-
         (if e <? lim then
            erolist <- setA erolist j lim ;;
            cn <- setQsin_i j 0.0 cn ;;
            cn <- setQs_i j 0.0 cn ;;
            Ok (cn, erolist, 1%nat)
          else Ok (cn, erolist, flag)) ;;
       e <- subscript erolist j "erolist" ;;
       Ok (cn, erolist, dz - e, flag))
    st.

(** detach-lim:
    [while(dz<-0.000000001&&depck<cn->getChanDepth()&&i<cn->getNumLayer())] *)
Fixpoint detach_loop (lfuel : nat) (ops : tNodeOps) (dtmax timegb : R)
  (i : nat) (ns : list tLNode) (erolist : list R) (lyr : nat) (depck dz : R)
  : result (list tLNode * list R) :=
  cn <- getNode ns i ;;
  if (dz <? - 0.000000001) && (depck <? chandepth cn)
     && (lyr <? getNumLayer cn)%nat then
    match lfuel with
    | O => OutOfFuel
    | Datatypes.S lfuel' =>
        ld <- getLayerDepth cn lyr ;;
        let depck := depck + ld in
        if - dz <=? ld then
          (* top layer can supply total depth *)
          '(cn, erolist) <- erolist_top lyr dz dtmax (cn, erolist) ;;
          '(ret, cn) <- EroDep ops lyr erolist timegb cn ;;
          ns <- send_down (upd ns i cn) i ret dtmax ;;
          detach_loop lfuel' ops dtmax timegb i ns erolist lyr depck 0
        else
          (* top layer is not deep enough, need to erode more layers *)
          '(cn, erolist, dz, flag) <-
            erolist_all lyr dtmax (cn, erolist, dz, 0%nat) ;;
          '(ret, cn) <- EroDep ops lyr erolist timegb cn ;;
          ns <- send_down (upd ns i cn) i ret dtmax ;;
          let lyr := if Nat.eqb flag 1 then S lyr else lyr in
          detach_loop lfuel' ops dtmax timegb i ns erolist lyr depck dz
    end
  else Ok (ns, erolist).

(** trans-lim: [while(depck<cn->getChanDepth())] *)
Fixpoint trans_loop (lfuel : nat) (ops : tNodeOps) (dtmax timegb : R)
  (i : nat) (ns : list tLNode) (erolist : list R) (lyr : nat) (depck : R)
  : result (list tLNode * list R) :=
  cn <- getNode ns i ;;
  if depck <? chandepth cn then
    match lfuel with
    | O => OutOfFuel
    | Datatypes.S lfuel' =>
        ld <- getLayerDepth cn lyr ;;
        let depck := depck + ld in
        let flag := getNumLayer cn in
        '(ret, cn) <- EroDep ops lyr erolist timegb cn ;;
        let ns := upd ns i cn in
        '(ns, erolist, sum) <-
          forM (seq 0 (numg cn))
            (fun j '(ns, erolist, sum) =>
               cn <- getNode ns i ;;
               r <- subscript ret j "ret" ;;
               ns <- withNode ns (downstrm cn)
                       (addQsin_i j (- r * varea cn / dtmax)) ;;
               e <- subscript erolist j "erolist" ;;
               erolist <- setA erolist j (e - r) ;;
               Ok (ns, erolist, sum + (e - r)))
            (ns, erolist, 0) ;;
        cn <- getNode ns i ;;
        let depck := if sum >? - 0.0000001 then chandepth cn else depck in
        let lyr := if Nat.eqb flag (getNumLayer cn) then S lyr else lyr in
        trans_loop lfuel' ops dtmax timegb i ns erolist lyr depck
    end
  else Ok (ns, erolist).

(** [erolist[j]=(cn->getQsin(j)-cn->getQs(j))*dtmax/cn->getVArea();] *)
Definition erolist_balance (cn : tLNode) (dtmax : R) (erolist : list R)
  : result (list R) :=
  forM (seq 0 (numg cn))
    (fun j erolist =>
       v <- size_balance cn j dtmax ;;
       setA erolist j v)
    erolist.

(** [for(i...) cn->getDownstrmNbr()->addQsin(i,cn->getQsin(i));] *)
Definition forward_influx (ns : list tLNode) (i : nat)
  : result (list tLNode) :=
  cn <- getNode ns i ;;
  forM (seq 0 (numg cn))
    (fun j ns =>
       cn <- getNode ns i ;;
       qi <- getQsinm cn j ;;
       withNode ns (downstrm cn) (addQsin_i j qi))
    ns.

(** Do erosion/deposition: the body of the loop for one node. *)
Definition DetachErode_apply_node (lfuel : nat) (ops : tNodeOps)
  (dtmax timegb : R) (i : nat) (st : list tLNode * list R)
  : result (list tLNode * list R) :=
  let '(ns, erolist) := st in
  cn <- getNode ns i ;;
  let '(dz, flag) := substep_dz cn dtmax in
  ns <- forward_influx ns i ;;
  if dz <? 0 then
    (* total erosion *)
    if Nat.eqb flag 0 then
      detach_loop lfuel ops dtmax timegb i ns erolist 0 0 dz
    else
      cn <- getNode ns i ;;
      erolist <- erolist_balance cn dtmax erolist ;;
      trans_loop lfuel ops dtmax timegb i ns erolist 0 0
  else if dz >? 0 then
    (* total deposition *)
    cn <- getNode ns i ;;
    erolist <- erolist_balance cn dtmax erolist ;;
    '(ret, cn) <- EroDep ops 0 erolist timegb cn ;;
    ns <- send_down (upd ns i cn) i ret dtmax ;;
    Ok (ns, erolist)
  else Ok (ns, erolist).

(** The state of the loop: the time gone by, the mesh and [erolist]. *)
Definition DetachErode_body (lfuel : nat) (c : tConsts) (ops : tNodeOps)
  (er : tErosion) (strmNet : tStreamNet) (dtg : R)
  (st : R * tMesh * list R) : result (R * (R * tMesh * list R)) :=
  let frac := 0.3 in
  let '(timegb, m, erolist) := st in
  ns <- DetachErode_zero strmNet (active m) (nodes m) ;;
  ns <- DetachErode_rates lfuel c er (active m) ns ;;
  '(dtmax, ns) <- DetachErode_dtmax strmNet (active m) dtg ns ;;
  let dtmax := dtmax * frac in
  let timegb := timegb + dtmax in
  '(ns, erolist) <-
    forM (active m) (DetachErode_apply_node lfuel ops dtmax timegb)
      (ns, erolist) ;;
  Ok (dtmax, (timegb, setNodes ns m, erolist)).

Definition DetachErode (fuel lfuel : nat) (c : tConsts) (ops : tNodeOps)
  (er : tErosion) (dtg : R) (strmNet : tStreamNet) (time : R) (m : tMesh)
  : option (result (tMesh * list R)) :=
  if getRainRate strmNet - getInfilt strmNet >? 0 then
    match firstNumg m with
    | Ok n =>
        let erolist := repeat 0 n in
        let m := SortNodesByNetOrder strmNet m in
        let m := FindChanGeom strmNet m in
        let m := FindHydrGeom strmNet m in
        finish (fun st => snd (fst st))
          (do_while fuel (DetachErode_body lfuel c ops er strmNet) 1e-6 dtg
             (time, m, erolist))
    | Fatal msg => Some (Fatal msg)
    | OutOfFuel => Some OutOfFuel
    end
  else Some (Ok (m, [])).

(** ** tErosion::Diffuse( double rt, int noDepoFlag ) *)

(** Compute maximum stable time-step size based on Courant condition *)
Definition Diffuse_dtmax (er : tErosion) (es : list tEdge) (rt : R) : R :=
  fold_left
    (fun dtmax ce =>
       let denom := kd er * vedglen ce in
       if denom >? kVerySmall then
         let delt := kEpsOver2 * (elength ce / denom) in
         if delt <? dtmax then delt else dtmax
       else dtmax)
    es rt.

(** Compute sediment volume transfer along each edge; the complementary edge
    that follows each edge is skipped. *)
Fixpoint Diffuse_edges (ops : tNodeOps) (er : tErosion) (dtmax : R)
  (es : list tEdge) (ns : list tLNode) : result (list tLNode) :=
  match es with
  | [] => Ok ns
  | ce :: rest =>
      let volout := kd er * CalcSlope ops ce ns * vedglen ce * dtmax in
      (* Record outgoing flux from origin *)
      ns <- onNode ns (origin ce) (addQsin (- volout)) ;;
      (* Record incoming flux to dest'n *)
      ns <- onNode ns (destination ce) (addQsin volout) ;;
      match rest with
      | [] => Ok ns
      | _ :: rest' => Diffuse_edges ops er dtmax rest' ns
      end
  end.

(** Compute erosion/deposition for each node *)
Definition Diffuse_apply (ops : tNodeOps) (noDepoFlag : bool)
  (act : list nat) (ns : list tLNode) : result (list tLNode) :=
  forM act
    (fun i ns =>
       withNode ns i
         (fun cn =>
            let cn :=
              if noDepoFlag then
                if qsin cn >? 0.0 then setQsin 0.0 cn else cn
              else cn in
            Ok (EroDep_dz ops (qsin cn / varea cn) cn)))
    ns.

(** The state of the loop: [dtmax] and the mesh. *)
Definition Diffuse_body (ops : tNodeOps) (er : tErosion) (noDepoFlag : bool)
  (rt : R) (st : R * tMesh) : result (R * (R * tMesh)) :=
  let '(dtmax, m) := st in
  ns <- forM (active m) (fun i ns => onNode ns i (setQsin 0)) (nodes m) ;;
  ns <- Diffuse_edges ops er dtmax (edges m) ns ;;
  ns <- Diffuse_apply ops noDepoFlag (active m) ns ;;
  let rt := rt - dtmax in
  Ok (dtmax, (if dtmax >? rt then rt else dtmax, setNodes ns m)).

Definition Diffuse (fuel : nat) (ops : tNodeOps) (er : tErosion) (rt : R)
  (noDepoFlag : bool) (m : tMesh) : option (result (tMesh * list R)) :=
  let dtmax := Diffuse_dtmax er (edges m) rt in
  finish snd (do_while fuel (Diffuse_body ops er noDepoFlag) 0.0 rt (dtmax, m)).

(* ================================================================== *)
(** * Part II.  Properties                                            *)
(* ================================================================== *)

(** ** Comparisons *)

Lemma Rltb_true (a b : R) : a < b -> (a <? b) = true.
Proof. intros H; unfold Rltb; destruct (Rlt_dec a b); [reflexivity | contradiction]. Qed.

Lemma Rltb_false (a b : R) : b <= a -> (a <? b) = false.
Proof. intros H; unfold Rltb; destruct (Rlt_dec a b); [lra | reflexivity]. Qed.

Lemma Rleb_true (a b : R) : a <= b -> (a <=? b) = true.
Proof. intros H; unfold Rleb; destruct (Rle_dec a b); [reflexivity | contradiction]. Qed.

Lemma Rleb_false (a b : R) : b < a -> (a <=? b) = false.
Proof. intros H; unfold Rleb; destruct (Rle_dec a b); [lra | reflexivity]. Qed.

Lemma Reqb_true (a b : R) : a = b -> (a =? b) = true.
Proof. intros H; unfold Reqb; destruct (Req_dec_T a b); [reflexivity | contradiction]. Qed.

Lemma Reqb_false (a b : R) : a <> b -> (a =? b) = false.
Proof. intros H; unfold Reqb; destruct (Req_dec_T a b); [contradiction | reflexivity]. Qed.

Lemma Rltb_spec (a b : R) : reflect (a < b) (a <? b).
Proof. unfold Rltb; destruct (Rlt_dec a b); constructor; assumption. Qed.

Lemma Rleb_spec (a b : R) : reflect (a <= b) (a <=? b).
Proof. unfold Rleb; destruct (Rle_dec a b); constructor; assumption. Qed.

Lemma Reqb_spec (a b : R) : reflect (a = b) (a =? b).
Proof. unfold Reqb; destruct (Req_dec_T a b); constructor; assumption. Qed.

(** Decide the comparisons of the goal whose outcome [lra] can settle. *)
Ltac rdecide :=
  unfold Rgtb, Rgeb in *;
  repeat match goal with
    | |- context [Rltb ?a ?b] =>
        first [ rewrite (Rltb_true a b) by lra | rewrite (Rltb_false a b) by lra ]
    | |- context [Rleb ?a ?b] =>
        first [ rewrite (Rleb_true a b) by lra | rewrite (Rleb_false a b) by lra ]
    | |- context [Reqb ?a ?b] =>
        first [ rewrite (Reqb_true a b) by lra | rewrite (Reqb_false a b) by lra ]
    end.

(** Split on the comparisons of the goal. *)
Ltac rcases :=
  unfold Rgtb, Rgeb in *;
  repeat match goal with
    | |- context [Rltb ?a ?b] => destruct (Rltb_spec a b)
    | |- context [Rleb ?a ?b] => destruct (Rleb_spec a b)
    | |- context [Reqb ?a ?b] => destruct (Reqb_spec a b)
    end.

(** ** [pow] *)

Lemma pow_nonneg (x y : R) : 0 <= Cmath.pow x y.
Proof.
  unfold Cmath.pow. rcases; try lra.
  unfold Rpower. left. apply exp_pos.
Qed.

Lemma pow_pos_base (x y : R) : 0 < x -> Cmath.pow x y = Rpower x y.
Proof. intros H. unfold Cmath.pow. now rewrite Rltb_true. Qed.

Lemma pow_exp_0 (x : R) : Cmath.pow x 0 = 1.
Proof.
  unfold Cmath.pow. rcases; try lra. now apply Rpower_O.
Qed.

Lemma pow_exp_1 (x : R) : 0 <= x -> Cmath.pow x 1 = x.
Proof.
  intros H. unfold Cmath.pow. rcases; try lra. now apply Rpower_1.
Qed.

Lemma pow_base_0 (y : R) : 0 < y -> Cmath.pow 0 y = 0.
Proof. intros H. unfold Cmath.pow. rdecide. reflexivity. Qed.

(** [pow] is non-decreasing in a non-negative base when the exponent is
    non-negative. *)
Lemma pow_mono_base (a b y : R) :
  0 <= y -> 0 <= a <= b -> Cmath.pow a y <= Cmath.pow b y.
Proof.
  intros Hy [Ha Hab]. unfold Cmath.pow.
  destruct (Rltb_spec 0 a) as [Hpa|Hna].
  - rewrite Rltb_true by lra. apply Rle_Rpower_l; lra.
  - destruct (Rltb_spec 0 b) as [Hpb|Hnb]; [|lra].
    destruct (Reqb_spec y 0) as [E|E].
    + subst y. rewrite Rpower_O by assumption. lra.
    + left. unfold Rpower. apply exp_pos.
Qed.

(** ** The piecewise critical shear stress *)

Section Taucrit.

Variables low s b high : R.
Hypothesis at_low : s * 0.10 + b = low.
Hypothesis at_high : s * 0.40 + b = high.

(** With the interpolant meeting the two reference values, the function has
    no jump anywhere: it is Lipschitz with constant [|s|]. *)
Lemma taucrit_of_lipschitz (p p' : R) :
  Rabs (taucrit_of p' low s b high - taucrit_of p low s b high)
  <= Rabs s * Rabs (p' - p).
Proof using at_low at_high.
  unfold taucrit_of. rcases; unfold Rabs;
    repeat match goal with |- context [Rcase_abs ?x] => destruct (Rcase_abs x) end;
    nra.
Qed.

Lemma taucrit_of_continuity :
  continuity (fun p => taucrit_of p low s b high).
Proof using at_low at_high.
  intros x. unfold continuity_pt, continue_in, limit1_in, limit_in.
  intros eps Heps. exists (eps / (Rabs s + 1)).
  assert (Hs : 0 <= Rabs s) by apply Rabs_pos.
  split.
  - apply Rdiv_lt_0_compat; lra.
  - intros x' [_ Hd]. simpl in *. unfold Rdist in *.
    pose proof (taucrit_of_lipschitz x x') as HL.
    assert (Hm : Rabs (x' - x) * (Rabs s + 1) < eps).
    { apply (Rmult_lt_compat_r (Rabs s + 1)) in Hd; [|lra].
      unfold Rdiv in Hd. rewrite Rmult_assoc, Rinv_l, Rmult_1_r in Hd by lra.
      exact Hd. }
    pose proof (Rabs_pos (x' - x)). nra.
Qed.

End Taucrit.

Lemma Wilcock_ctor_meets (c : tConsts) (infile : tInputFile) :
  let w := tSedTransWilcock.ctor c infile in
  (tSedTransWilcock.sands w * 0.10 + tSedTransWilcock.sandb w
   = tSedTransWilcock.lowtaucs w) /\
  (tSedTransWilcock.sands w * 0.40 + tSedTransWilcock.sandb w
   = tSedTransWilcock.hightaucs w) /\
  (tSedTransWilcock.gravs w * 0.10 + tSedTransWilcock.gravb w
   = tSedTransWilcock.lowtaucg w) /\
  (tSedTransWilcock.gravs w * 0.40 + tSedTransWilcock.gravb w
   = tSedTransWilcock.hightaucg w).
Proof. cbn. repeat split; lra. Qed.

Lemma MineTailings_ctor_meets (c : tConsts) (infile : tInputFile) :
  let w := tSedTransMineTailings.ctor c infile in
  (tSedTransMineTailings.sands w * 0.10 + tSedTransMineTailings.sandb w
   = tSedTransMineTailings.lowtaucs w) /\
  (tSedTransMineTailings.sands w * 0.40 + tSedTransMineTailings.sandb w
   = tSedTransMineTailings.hightaucs w) /\
  (tSedTransMineTailings.gravs w * 0.10 + tSedTransMineTailings.gravb w
   = tSedTransMineTailings.lowtaucg w) /\
  (tSedTransMineTailings.gravs w * 0.40 + tSedTransMineTailings.gravb w
   = tSedTransMineTailings.hightaucg w).
Proof. cbn. repeat split; lra. Qed.

Lemma taucrit_of_low (p low s b high : R) :
  p < 0.10 -> taucrit_of p low s b high = low.
Proof. intros H. unfold taucrit_of. now rewrite Rltb_true. Qed.

Lemma taucrit_of_mid (p low s b high : R) :
  0.10 <= p <= 0.40 -> taucrit_of p low s b high = s * p + b.
Proof.
  intros [H1 H2]. unfold taucrit_of.
  now rewrite Rltb_false, Rleb_true.
Qed.

Lemma taucrit_of_high (p low s b high : R) :
  0.40 < p -> taucrit_of p low s b high = high.
Proof.
  intros H. unfold taucrit_of.
  rewrite Rltb_false, Rleb_false by lra. reflexivity.
Qed.

(** ** C5 *)

(** C5.  In the Wilcock and the mine-tailings law, built by their
    constructors from any input file, the critical shear stress of the sand
    and of the gravel fraction is the low reference value for a sand
    fraction below 0.10, the high reference value above 0.40 and the linear
    interpolant in between, and it is continuous at 0.10 and at 0.40. *)
Theorem C5_taucrit_piecewise_continuous (c : tConsts) (infile : tInputFile) :
  let w := tSedTransWilcock.ctor c infile in
  let m := tSedTransMineTailings.ctor c infile in
  (forall p, p < 0.10 ->
     tSedTransWilcock.taucrit_sand w p = tSedTransWilcock.lowtaucs w /\
     tSedTransWilcock.taucrit_grav w p = tSedTransWilcock.lowtaucg w /\
     tSedTransMineTailings.taucrit_sand m p = tSedTransMineTailings.lowtaucs m /\
     tSedTransMineTailings.taucrit_grav m p = tSedTransMineTailings.lowtaucg m) /\
  (forall p, 0.40 < p ->
     tSedTransWilcock.taucrit_sand w p = tSedTransWilcock.hightaucs w /\
     tSedTransWilcock.taucrit_grav w p = tSedTransWilcock.hightaucg w /\
     tSedTransMineTailings.taucrit_sand m p = tSedTransMineTailings.hightaucs m /\
     tSedTransMineTailings.taucrit_grav m p = tSedTransMineTailings.hightaucg m) /\
  (forall p, 0.10 <= p <= 0.40 ->
     tSedTransWilcock.taucrit_sand w p
       = tSedTransWilcock.sands w * p + tSedTransWilcock.sandb w /\
     tSedTransWilcock.taucrit_grav w p
       = tSedTransWilcock.gravs w * p + tSedTransWilcock.gravb w /\
     tSedTransMineTailings.taucrit_sand m p
       = tSedTransMineTailings.sands m * p + tSedTransMineTailings.sandb m /\
     tSedTransMineTailings.taucrit_grav m p
       = tSedTransMineTailings.gravs m * p + tSedTransMineTailings.gravb m) /\
  (forall p0, p0 = 0.10 \/ p0 = 0.40 ->
     continuity_pt (tSedTransWilcock.taucrit_sand w) p0 /\
     continuity_pt (tSedTransWilcock.taucrit_grav w) p0 /\
     continuity_pt (tSedTransMineTailings.taucrit_sand m) p0 /\
     continuity_pt (tSedTransMineTailings.taucrit_grav m) p0).
Proof.
  intros w m.
  destruct (Wilcock_ctor_meets c infile) as (Ws1 & Ws2 & Wg1 & Wg2).
  destruct (MineTailings_ctor_meets c infile) as (Ms1 & Ms2 & Mg1 & Mg2).
  fold w in Ws1, Ws2, Wg1, Wg2. fold m in Ms1, Ms2, Mg1, Mg2.
  split; [|split; [|split]].
  - intros p Hp. repeat split; apply taucrit_of_low; assumption.
  - intros p Hp. repeat split; apply taucrit_of_high; assumption.
  - intros p Hp. repeat split; apply taucrit_of_mid; assumption.
  - intros p0 _. repeat split.
    + exact (taucrit_of_continuity _ _ _ _ Ws1 Ws2 p0).
    + exact (taucrit_of_continuity _ _ _ _ Wg1 Wg2 p0).
    + exact (taucrit_of_continuity _ _ _ _ Ms1 Ms2 p0).
    + exact (taucrit_of_continuity _ _ _ _ Mg1 Mg2 p0).
Qed.

(** ** C10 *)

Lemma forM_qs_last {S : Type} (idxs : list nat) (f : nat -> S -> result S)
  (P : S -> Prop) (s s' : S) :
  (forall i a a', f i a = Ok a' -> P a -> P a') ->
  forM idxs f s = Ok s' -> P s -> P s'.
Proof.
  intros Hf. revert s. induction idxs as [|i rest IH]; simpl; intros s H Hs.
  - inversion H; subst; assumption.
  - destruct (f i s) as [a| |] eqn:E; simpl in H; try discriminate.
    eapply IH; eauto.
Qed.

(** C10.  The whole-node shape of the multi-fraction power law returns 0 for
    every node and leaves the node as it was, whatever the law's parameters.
    The weighted shape of the same law, and the whole-node shape of the three
    other laws, store the capacity they return in the node's [Qs]. *)
Theorem C10_PwrLawMulti_whole_node_is_zero
  (p : tSedTransPwrLawMulti.t) (node : tLNode) :
  tSedTransPwrLawMulti.TransCapacity p node = Ok (0, node) /\
  (forall lyr weight cap node',
      tSedTransPwrLawMulti.TransCapacity_w p node lyr weight = Ok (cap, node') ->
      qs node' = cap) /\
  (forall p1 cap node',
      tSedTransPwrLaw.TransCapacity p1 node = Ok (cap, node') ->
      qs node' = cap) /\
  (forall c p2 cap node',
      tSedTransWilcock.TransCapacity c p2 node = Ok (cap, node') ->
      qs node' = cap) /\
  (forall c p3 cap node',
      tSedTransMineTailings.TransCapacity c p3 node = Ok (cap, node') ->
      qs node' = cap).
Proof.
  split; [|split; [|split; [|split]]].
  - unfold tSedTransPwrLawMulti.TransCapacity. do 2 f_equal. lra.
  - intros lyr weight cap node'. unfold tSedTransPwrLawMulti.TransCapacity_w.
    destruct (slope node <? 0); [discriminate|].
    destruct (forM _ _ ([], 0)) as [[frac d50]| |]; simpl; try discriminate.
    destruct (forM _ _ (0, _)) as [[tc nd]| |]; simpl; try discriminate.
    intros H; inversion H; subst. reflexivity.
  - intros p1 cap node'. unfold tSedTransPwrLaw.TransCapacity.
    destruct (slope node <? 0); [discriminate|].
    destruct (negb (floodstatus node)); intros H; inversion H; subst; reflexivity.
  - intros c p2 cap node'. unfold tSedTransWilcock.TransCapacity.
    destruct (getLayerDgrade node 0 0); simpl; try discriminate.
    destruct (getLayerDepth node 0); simpl; try discriminate.
    destruct (slope node <? 0).
    + destruct (setQs_i 0 0 node); simpl; try discriminate.
      destruct (setQs_i 1 0 _); simpl; try discriminate.
      intros H; inversion H; subst. simpl. lra.
    + match goal with |- context [bind ?e _] => destruct e end; simpl; try discriminate.
      match goal with |- context [bind ?e _] => destruct e end; simpl; try discriminate.
      match goal with |- context [bind ?e _] => destruct e end; simpl; try discriminate.
      match goal with |- context [bind ?e _] => destruct e end; simpl; try discriminate.
      intros H; inversion H; subst. reflexivity.
  - intros c p3 cap node'. unfold tSedTransMineTailings.TransCapacity.
    destruct (getLayerDgrade node 0 0); simpl; try discriminate.
    destruct (getLayerDepth node 0); simpl; try discriminate.
    destruct (slope node <? 0).
    + destruct (setQs_i 0 0 node); simpl; try discriminate.
      destruct (setQs_i 1 0 _); simpl; try discriminate.
      intros H; inversion H; subst. simpl. lra.
    + match goal with |- context [bind ?e _] => destruct e end; simpl; try discriminate.
      match goal with |- context [bind ?e _] => destruct e end; simpl; try discriminate.
      match goal with |- context [bind ?e _] => destruct e end; simpl; try discriminate.
      match goal with |- context [bind ?e _] => destruct e end; simpl; try discriminate.
      intros H; inversion H; subst. reflexivity.
Qed.

(** ** The power-law detachment capacity (C4, C9) *)

Import tBedErodePwrLaw.

(** [(x>0.0) ? x : 0.0] *)
Lemma pos_part_max (x : R) : (if x >? 0 then x else 0) = Rmax 0 x.
Proof.
  unfold Rgtb. destruct (Rltb_spec 0 x); unfold Rmax; destruct (Rle_dec 0 x); lra.
Qed.

Lemma getLayerErody_Some (n : tLNode) (i : nat) (l : tLayer) :
  nth_error (layerlist n) i = Some l -> getLayerErody n i = Ok (lerody l).
Proof.
  intros H. unfold getLayerErody, getLayer, subscript. now rewrite H.
Qed.

(** The detachment rate of the law for a layer of erodibility [e]. *)
Definition rate_of (b : t) (n : tLNode) (e : R) : R :=
  e * Cmath.pow (Rmax 0 (shear b n - tauc n)) (pb b).

Lemma DetachCapacity_dt_flooded b n dt :
  floodstatus n = true -> DetachCapacity_dt b n dt = Ok (0, n).
Proof. intros H. unfold DetachCapacity_dt. now rewrite H. Qed.

Lemma DetachCapacity_lyr_flooded b n i :
  floodstatus n = true -> DetachCapacity_lyr b n i = Ok (0, n).
Proof. intros H. unfold DetachCapacity_lyr. now rewrite H. Qed.

Lemma DetachCapacity_flooded b n :
  floodstatus n = true -> 0 <= q n -> DetachCapacity b n = Ok (0, n).
Proof.
  intros H Hq. unfold DetachCapacity, Rgeb. rewrite Rleb_true by lra. simpl.
  now rewrite H.
Qed.

Lemma DetachCapacity_negQ b n :
  q n < 0 -> DetachCapacity b n = Fatal "n->getQ()>=0.0".
Proof.
  intros Hq. unfold DetachCapacity, Rgeb. rewrite Rleb_false by lra. reflexivity.
Qed.

Lemma DetachCapacity_dt_value b n dt l :
  floodstatus n = false -> 0 <= slope n ->
  nth_error (layerlist n) 0 = Some l ->
  DetachCapacity_dt b n dt
  = Ok (rate_of b n (lerody l) * dt, setTau (shear b n) n).
Proof.
  intros Hf Hs Hl. unfold DetachCapacity_dt. rewrite Hf, Rltb_false by lra.
  cbv zeta. rewrite (getLayerErody_Some _ _ l) by exact Hl. simpl.
  rewrite pos_part_max. reflexivity.
Qed.

Lemma DetachCapacity_value b n l :
  floodstatus n = false -> 0 <= slope n -> 0 <= q n -> 0 <= drarea n ->
  nth_error (layerlist n) 0 = Some l ->
  DetachCapacity b n
  = Ok (rate_of b n (lerody l),
        setDrDt (- rate_of b n (lerody l)) (setTau (shear b n) n)).
Proof.
  intros Hf Hs Hq Hd Hl. unfold DetachCapacity, Rgeb.
  rewrite !(Rleb_true 0 (q n)) by lra. simpl.
  rewrite Hf, Rltb_false by lra. rewrite Rleb_true by lra. simpl.
  cbv zeta. rewrite (getLayerErody_Some _ _ l) by exact Hl. simpl.
  rewrite pos_part_max. reflexivity.
Qed.

Lemma DetachCapacity_lyr_value b n i l :
  floodstatus n = false -> 0 <= slope n ->
  nth_error (layerlist n) i = Some l ->
  DetachCapacity_lyr b n i
  = Ok (rate_of b n (lerody l),
        setDrDt (- rate_of b n (lerody l)) (setTau (shear b n) n)).
Proof.
  intros Hf Hs Hl. unfold DetachCapacity_lyr. rewrite Hf, Rltb_false by lra.
  cbv zeta. rewrite (getLayerErody_Some _ _ l) by exact Hl. simpl.
  rewrite pos_part_max. reflexivity.
Qed.

(** C4.  The three call shapes of the power-law detachment capacity.  A
    flooded node: 0 is returned and the node is untouched (the rate form
    [DetachCapacity( tLNode *n )] first asserts a non-negative discharge).  A node
    that is not flooded, with a non-negative slope: the shear stress
    [kt*(Q/W)^mb*S^nb] is stored on the node and
    [erodibility * max(0, tau - tauc)^pb] is returned, times [dt] in the depth
    form, and stored negated as DrDt in the two rate forms (the rate form
    [DetachCapacity( tLNode *n )] also asserts a non-negative drainage area).  A
    node that is not flooded, with a negative slope: the run ends.  The rate
    form [DetachCapacity( tLNode *n )] ends the run for a negative discharge,
    flooded or not. *)
Theorem C4_DetachCapacity_cases (b : t) (n : tLNode) (dt : R) (i : nat) :
  (floodstatus n = true ->
     DetachCapacity_dt b n dt = Ok (0, n) /\
     DetachCapacity_lyr b n i = Ok (0, n) /\
     (0 <= q n -> DetachCapacity b n = Ok (0, n))) /\
  (floodstatus n = false -> 0 <= slope n ->
     shear b n
       = kt b * Cmath.pow (q n / hydrwidth n) (mb b) * Cmath.pow (slope n) (nb b) /\
     (forall l, nth_error (layerlist n) 0 = Some l ->
        DetachCapacity_dt b n dt
        = Ok (lerody l * Cmath.pow (Rmax 0 (shear b n - tauc n)) (pb b) * dt,
              setTau (shear b n) n) /\
        (0 <= q n -> 0 <= drarea n ->
         DetachCapacity b n
         = Ok (lerody l * Cmath.pow (Rmax 0 (shear b n - tauc n)) (pb b),
               setDrDt (- (lerody l * Cmath.pow (Rmax 0 (shear b n - tauc n)) (pb b)))
                 (setTau (shear b n) n)))) /\
     (forall l, nth_error (layerlist n) i = Some l ->
        DetachCapacity_lyr b n i
        = Ok (lerody l * Cmath.pow (Rmax 0 (shear b n - tauc n)) (pb b),
              setDrDt (- (lerody l * Cmath.pow (Rmax 0 (shear b n - tauc n)) (pb b)))
                (setTau (shear b n) n)))) /\
  (floodstatus n = false -> slope n < 0 ->
     (exists msg, DetachCapacity_dt b n dt = Fatal msg) /\
     (exists msg, DetachCapacity_lyr b n i = Fatal msg) /\
     (exists msg, DetachCapacity b n = Fatal msg)) /\
  (q n < 0 -> DetachCapacity b n = Fatal "n->getQ()>=0.0") /\
  (floodstatus n = false -> 0 <= slope n -> 0 <= q n -> drarea n < 0 ->
     DetachCapacity b n = Fatal "n->getDrArea()>=0.0").
Proof.
  split; [|split; [|split; [|split]]].
  - intros Hf. split; [|split].
    + now apply DetachCapacity_dt_flooded.
    + now apply DetachCapacity_lyr_flooded.
    + intros. now apply DetachCapacity_flooded.
  - intros Hf Hs. split; [reflexivity|]. split.
    + intros l Hl. split.
      * now apply DetachCapacity_dt_value.
      * intros Hq Hd. now apply DetachCapacity_value.
    + intros l Hl. now apply DetachCapacity_lyr_value.
  - intros Hf Hs. split; [|split].
    + eexists. unfold DetachCapacity_dt. rewrite Hf, Rltb_true by lra. reflexivity.
    + eexists. unfold DetachCapacity_lyr. rewrite Hf, Rltb_true by lra. reflexivity.
    + unfold DetachCapacity, Rgeb. destruct (Rleb_spec 0 (q n)); simpl.
      * rewrite Hf, Rltb_true by lra. eexists; reflexivity.
      * eexists; reflexivity.
  - apply DetachCapacity_negQ.
  - intros Hf Hs Hq Hd. unfold DetachCapacity, Rgeb.
    rewrite !(Rleb_true 0 (q n)) by lra. simpl.
    rewrite Hf, Rltb_false by lra. rewrite Rleb_false by lra. reflexivity.
Qed.

Lemma shear_mono_q (b : t) (n : tLNode) (x1 x2 : R) :
  0 <= kt b -> 0 <= mb b -> 0 < hydrwidth n -> 0 <= x1 <= x2 ->
  shear b (setQ x1 n) <= shear b (setQ x2 n).
Proof.
  intros Hk Hm Hw [H1 H12]. unfold shear. simpl.
  assert (Hb : 0 <= x1 / hydrwidth n <= x2 / hydrwidth n).
  { unfold Rdiv. pose proof (Rinv_0_lt_compat _ Hw). split; nra. }
  pose proof (pow_mono_base _ _ (mb b) Hm Hb).
  pose proof (pow_nonneg (x1 / hydrwidth n) (mb b)).
  pose proof (pow_nonneg (slope n) (nb b)).
  apply Rmult_le_compat_r; [assumption|].
  apply Rmult_le_compat_l; assumption.
Qed.

Lemma shear_mono_slope (b : t) (n : tLNode) (x1 x2 : R) :
  0 <= kt b -> 0 <= nb b -> 0 <= x1 <= x2 ->
  shear b (setSlope x1 n) <= shear b (setSlope x2 n).
Proof.
  intros Hk Hn H12. unfold shear. simpl.
  pose proof (pow_mono_base _ _ (nb b) Hn H12).
  pose proof (pow_nonneg (q n / hydrwidth n) (mb b)).
  apply Rmult_le_compat_l; [|assumption].
  apply Rmult_le_pos; assumption.
Qed.

Lemma rate_mono (e pb t1 t2 tc : R) :
  0 <= e -> 0 <= pb -> t1 <= t2 ->
  e * Cmath.pow (Rmax 0 (t1 - tc)) pb <= e * Cmath.pow (Rmax 0 (t2 - tc)) pb.
Proof.
  intros He Hp H12. apply Rmult_le_compat_l; [assumption|].
  apply pow_mono_base; [assumption|]. split.
  - apply Rmax_l.
  - apply Rle_max_compat_l. lra.
Qed.

(** The three call shapes on two nodes that agree on everything the law
    reads but the shear stress. *)
Lemma DetachCapacity_le_of_shear (b : t) (n1 n2 : tLNode) (dt : R) (i : nat) :
  0 <= pb b -> 0 <= dt ->
  floodstatus n1 = floodstatus n2 -> tauc n1 = tauc n2 ->
  layerlist n1 = layerlist n2 ->
  0 <= slope n1 -> 0 <= slope n2 -> 0 <= q n1 -> 0 <= q n2 ->
  0 <= drarea n1 -> 0 <= drarea n2 ->
  (forall l, nth_error (layerlist n1) 0 = Some l -> 0 <= lerody l) ->
  (forall l, nth_error (layerlist n1) i = Some l -> 0 <= lerody l) ->
  nth_error (layerlist n1) 0 <> None ->
  nth_error (layerlist n1) i <> None ->
  shear b n1 <= shear b n2 ->
  returns_le (DetachCapacity b n1) (DetachCapacity b n2) /\
  returns_le (DetachCapacity_dt b n1 dt) (DetachCapacity_dt b n2 dt) /\
  returns_le (DetachCapacity_lyr b n1 i) (DetachCapacity_lyr b n2 i).
Proof.
  intros Hp Hdt Hf Htc Hl Hs1 Hs2 Hq1 Hq2 Hd1 Hd2 He0 Hei H0 Hi Hsh.
  destruct (floodstatus n1) eqn:F1; symmetry in Hf.
  - rewrite !DetachCapacity_flooded, !DetachCapacity_dt_flooded,
      !DetachCapacity_lyr_flooded by assumption.
    unfold returns_le; simpl. lra.
  - destruct (nth_error (layerlist n1) 0) as [l0|] eqn:E0; [|congruence].
    destruct (nth_error (layerlist n1) i) as [li|] eqn:Ei; [|congruence].
    rewrite (DetachCapacity_value b n1 l0), (DetachCapacity_value b n2 l0),
      (DetachCapacity_dt_value b n1 dt l0), (DetachCapacity_dt_value b n2 dt l0),
      (DetachCapacity_lyr_value b n1 i li), (DetachCapacity_lyr_value b n2 i li)
      by (assumption || congruence).
    unfold returns_le, rate_of; simpl. rewrite <- Htc.
    pose proof (rate_mono (lerody l0) (pb b) _ _ (tauc n1) (He0 _ eq_refl) Hp Hsh).
    pose proof (rate_mono (lerody li) (pb b) _ _ (tauc n1) (Hei _ eq_refl) Hp Hsh).
    repeat split; try assumption.
    apply Rmult_le_compat_r; assumption.
Qed.

(** C9.  For the power-law detachment law with non-negative [mb], [nb],
    [kt], [pb] and layer erodibility, on a node with a positive channel
    width (and, where the code asserts it, non-negative drainage area), the
    value returned by each of the three call shapes does not decrease when
    the discharge grows from [x1 >= 0] to [x2], nor when the slope does, the
    rest of the node being the same. *)
Theorem C9_DetachCapacity_monotone
  (b : t) (n : tLNode) (dt : R) (i : nat) (x1 x2 : R) :
  0 <= mb b -> 0 <= nb b -> 0 <= kt b -> 0 <= pb b ->
  0 < hydrwidth n -> 0 <= drarea n -> 0 <= dt ->
  (forall l, In l (layerlist n) -> 0 <= lerody l) ->
  (i < getNumLayer n)%nat ->
  0 <= x1 <= x2 ->
  (0 <= slope n ->
     returns_le (DetachCapacity b (setQ x1 n)) (DetachCapacity b (setQ x2 n)) /\
     returns_le (DetachCapacity_dt b (setQ x1 n) dt)
                (DetachCapacity_dt b (setQ x2 n) dt) /\
     returns_le (DetachCapacity_lyr b (setQ x1 n) i)
                (DetachCapacity_lyr b (setQ x2 n) i)) /\
  (0 <= q n ->
     returns_le (DetachCapacity b (setSlope x1 n))
                (DetachCapacity b (setSlope x2 n)) /\
     returns_le (DetachCapacity_dt b (setSlope x1 n) dt)
                (DetachCapacity_dt b (setSlope x2 n) dt) /\
     returns_le (DetachCapacity_lyr b (setSlope x1 n) i)
                (DetachCapacity_lyr b (setSlope x2 n) i)).
Proof.
  intros Hmb Hnb Hkt Hpb Hw Hd Hdt He Hi H12.
  assert (Hin : forall k l, nth_error (layerlist n) k = Some l -> 0 <= lerody l).
  { intros k l Hk. apply He. eapply nth_error_In; eassumption. }
  assert (Hi' : nth_error (layerlist n) i <> None).
  { apply nth_error_Some. exact Hi. }
  assert (H0' : nth_error (layerlist n) 0 <> None).
  { apply nth_error_Some. unfold getNumLayer in Hi. lia. }
  split; intros Hs.
  - apply DetachCapacity_le_of_shear; try assumption; try reflexivity;
      try (cbn [q setQ]; lra); try exact (Hin 0%nat); try exact (Hin i).
    apply shear_mono_q; assumption.
  - apply DetachCapacity_le_of_shear; try assumption; try reflexivity;
      try (cbn [slope setSlope]; lra); try exact (Hin 0%nat); try exact (Hin i).
    apply shear_mono_slope; assumption.
Qed.

(** ** Sample inputs *)

(** A power-law detachment law with [mb = nb = 0] and [pb = 1]: the shear
    stress is [kt] and the rate is [erodibility * max(0, kt - tauc)]. *)
Definition bedErode0 : tBedErodePwrLaw.t := tBedErodePwrLaw.mk 1 2 0 0 1 0.

Definition layer0 : tLayer := mkLayer 1 1 1 [0.3; 0.7].

(** An active node draining to node 1. *)
Definition node0 : tLNode :=
  mkNode 10 1 0.01 10 100 2 0.03 1 false false 1 1 2 1
         0 0 0 0 0 [0; 0] [0; 0] [layer0].

(** The same node, flooded and with a negative discharge. *)
Definition node_flooded_negQ : tLNode :=
  mkNode 10 1 0.01 (-1) 100 2 0.03 1 true false 1 1 2 1
         0 0 0 0 0 [0; 0] [0; 0] [layer0].

(** Counterexample to C4 as stated: on a flooded node the rate form
    [DetachCapacity( tLNode *n )] does not return 0 when the discharge is
    negative; its first statement is [assert( n->getQ()>=0.0 )]. *)
Lemma C4_counterexample :
  floodstatus node_flooded_negQ = true /\
  DetachCapacity bedErode0 node_flooded_negQ = Fatal "n->getQ()>=0.0".
Proof.
  split; [reflexivity|]. apply DetachCapacity_negQ. simpl. lra.
Qed.

Lemma C9_witness :
  returns_le (DetachCapacity bedErode0 (setQ 1 node0))
             (DetachCapacity bedErode0 (setQ 2 node0)).
Proof.
  refine (proj1 (proj1
    (C9_DetachCapacity_monotone bedErode0 node0 1 0 1 2 _ _ _ _ _ _ _ _ _ _) _));
    simpl; try lra.
  - intros l [<-|[]]. simpl. lra.
  - unfold getNumLayer. simpl. lia.
Defined.

(** ** C6: a negative slope in the sand/gravel laws *)

Lemma upd_length {A : Type} (l : list A) (i : nat) (a : A) :
  List.length (upd l i a) = List.length l.
Proof.
  revert i; induction l as [|h t IH]; intros [|i]; simpl; auto.
Qed.

Lemma subscript_lt {A : Type} (l : list A) (i : nat) (what : string) :
  (i < List.length l)%nat -> exists a, subscript l i what = Ok a.
Proof.
  intros H. unfold subscript.
  destruct (nth_error l i) eqn:E; [eauto|].
  apply nth_error_None in E. lia.
Qed.

Lemma setQs_i_ok (i : nat) (v : R) (n : tLNode) :
  (i < List.length (qsm n))%nat ->
  setQs_i i v n = Ok (setQsm (upd (qsm n) i v) n).
Proof.
  intros H. unfold setQs_i, getQsm.
  destruct (subscript_lt (qsm n) i "sediment size index" H) as [a ->].
  reflexivity.
Qed.

Lemma getLayerDepth_Some (n : tLNode) (i : nat) (l : tLayer) :
  nth_error (layerlist n) i = Some l -> getLayerDepth n i = Ok (ldepth l).
Proof.
  intros H. unfold getLayerDepth, getLayer, subscript. now rewrite H.
Qed.

Lemma getLayerDgrade_Some (n : tLNode) (i j : nat) (l : tLayer) :
  nth_error (layerlist n) i = Some l -> (j < List.length (ldgrade l))%nat ->
  exists g, getLayerDgrade n i j = Ok g.
Proof.
  intros H Hj. unfold getLayerDgrade, getLayer, subscript at 1. rewrite H. simpl.
  apply subscript_lt. exact Hj.
Qed.

(** What the negative-slope branch leaves on a node with two size classes,
    and on a node where only class 0 is cleared. *)
Definition zeroed2 (nd : tLNode) : tLNode :=
  setQs 0 (setQsm (upd (upd (qsm nd) 0 0) 1 0) nd).

Definition zeroed1 (nd : tLNode) : tLNode :=
  setQs 0 (setQsm (upd (qsm nd) 0 0) nd).

Lemma zero_literal : 0.0 = 0.
Proof. lra. Qed.

(** C6.  On a node of negative slope the Wilcock and the mine-tailings
    TransCapacity return 0 and leave the node with a zero total [Qs] and
    zero [Qs] of the size classes they clear: classes 0 and 1 in the
    whole-node shape (the node has its two classes), class 0 and, when the
    node has exactly two classes, class 1 in the weighted shape.  The
    weighted shape asserts a positive depth of the layer it is given before
    it looks at the slope: with a depth that is not positive it ends the
    run. *)
Theorem C6_negative_slope_zero_capacity
  (c : tConsts) (w : tSedTransWilcock.t) (m : tSedTransMineTailings.t)
  (nd : tLNode) (i : nat) (weight : R) :
  slope nd < 0 ->
  (forall l0, nth_error (layerlist nd) 0 = Some l0 ->
     (0 < List.length (ldgrade l0))%nat -> (2 <= List.length (qsm nd))%nat ->
     tSedTransWilcock.TransCapacity c w nd = Ok (0, zeroed2 nd) /\
     tSedTransMineTailings.TransCapacity c m nd = Ok (0, zeroed2 nd) /\
     qs (zeroed2 nd) = 0 /\
     nth_error (qsm (zeroed2 nd)) 0 = Some 0 /\
     nth_error (qsm (zeroed2 nd)) 1 = Some 0) /\
  (forall li, nth_error (layerlist nd) i = Some li ->
     (0 < List.length (ldgrade li))%nat ->
     (0 < ldepth li -> numg nd = 2%nat -> (2 <= List.length (qsm nd))%nat ->
        tSedTransWilcock.TransCapacity_w c w nd i weight = Ok (0, zeroed2 nd) /\
        tSedTransMineTailings.TransCapacity_w c m nd i weight
          = Ok (0, zeroed2 nd)) /\
     (0 < ldepth li -> numg nd <> 2%nat -> (1 <= List.length (qsm nd))%nat ->
        tSedTransWilcock.TransCapacity_w c w nd i weight = Ok (0, zeroed1 nd) /\
        tSedTransMineTailings.TransCapacity_w c m nd i weight
          = Ok (0, zeroed1 nd) /\
        qs (zeroed1 nd) = 0 /\
        nth_error (qsm (zeroed1 nd)) 0 = Some 0) /\
     (ldepth li <= 0 ->
        tSedTransWilcock.TransCapacity_w c w nd i weight
          = Fatal "nd->getLayerDepth(i)>0" /\
        tSedTransMineTailings.TransCapacity_w c m nd i weight
          = Fatal "nd->getLayerDepth(i)>0")).
Proof.
  intros Hs. split.
  - intros l0 Hl Hg Hq.
    destruct (getLayerDgrade_Some nd 0 0 l0 Hl Hg) as [g Eg].
    assert (E2 : setQs_i 1 0 (setQsm (upd (qsm nd) 0 0) nd)
                 = Ok (setQsm (upd (upd (qsm nd) 0 0) 1 0) nd)).
    { rewrite setQs_i_ok; [reflexivity|]. simpl. rewrite upd_length. lia. }
    split; [|split; [|split; [|split]]].
    + unfold tSedTransWilcock.TransCapacity.
      rewrite Eg, (getLayerDepth_Some _ _ _ Hl). simpl.
      rewrite Rltb_true by assumption.
      rewrite setQs_i_ok by lia. simpl. rewrite E2. simpl.
      rewrite zero_literal. reflexivity.
    + unfold tSedTransMineTailings.TransCapacity.
      rewrite Eg, (getLayerDepth_Some _ _ _ Hl). simpl.
      rewrite Rltb_true by assumption.
      rewrite setQs_i_ok by lia. simpl. rewrite E2. simpl.
      rewrite zero_literal. reflexivity.
    + reflexivity.
    + simpl. destruct (qsm nd) as [|a [|a' t]]; simpl in *; try lia. reflexivity.
    + simpl. destruct (qsm nd) as [|a [|a' t]]; simpl in *; try lia. reflexivity.
  - intros li Hl Hg.
    destruct (getLayerDgrade_Some nd i 0 li Hl Hg) as [g Eg].
    split; [|split].
    + intros Hd Hn Hq.
      assert (E2 : setQs_i 1 0 (setQsm (upd (qsm nd) 0 0) nd)
                   = Ok (setQsm (upd (upd (qsm nd) 0 0) 1 0) nd)).
      { rewrite setQs_i_ok; [reflexivity|]. simpl. rewrite upd_length. lia. }
      split.
      * unfold tSedTransWilcock.TransCapacity_w.
        rewrite (getLayerDepth_Some _ _ _ Hl). simpl.
        unfold Rgtb. rewrite (Rltb_true 0 (ldepth li)) by assumption. simpl.
        rewrite Eg. simpl. rewrite Rltb_true by assumption.
        rewrite setQs_i_ok by lia. simpl. rewrite Hn. simpl. rewrite E2. simpl.
        rewrite zero_literal. reflexivity.
      * unfold tSedTransMineTailings.TransCapacity_w.
        rewrite (getLayerDepth_Some _ _ _ Hl). simpl.
        unfold Rgtb. rewrite (Rltb_true 0 (ldepth li)) by assumption. simpl.
        rewrite Eg. simpl. rewrite Rltb_true by assumption.
        rewrite setQs_i_ok by lia. simpl. rewrite Hn. simpl. rewrite E2. simpl.
        rewrite zero_literal. reflexivity.
    + intros Hd Hn Hq.
      apply Nat.eqb_neq in Hn.
      split; [|split; [|split]].
      * unfold tSedTransWilcock.TransCapacity_w.
        rewrite (getLayerDepth_Some _ _ _ Hl). simpl.
        unfold Rgtb. rewrite (Rltb_true 0 (ldepth li)) by assumption. simpl.
        rewrite Eg. simpl. rewrite Rltb_true by assumption.
        rewrite setQs_i_ok by lia. simpl. rewrite Hn. simpl.
        rewrite zero_literal. reflexivity.
      * unfold tSedTransMineTailings.TransCapacity_w.
        rewrite (getLayerDepth_Some _ _ _ Hl). simpl.
        unfold Rgtb. rewrite (Rltb_true 0 (ldepth li)) by assumption. simpl.
        rewrite Eg. simpl. rewrite Rltb_true by assumption.
        rewrite setQs_i_ok by lia. simpl. rewrite Hn. simpl.
        rewrite zero_literal. reflexivity.
      * reflexivity.
      * simpl. destruct (qsm nd) as [|a t]; simpl in *; try lia. reflexivity.
    + intros Hd. split.
      * unfold tSedTransWilcock.TransCapacity_w.
        rewrite (getLayerDepth_Some _ _ _ Hl). simpl.
        unfold Rgtb. rewrite (Rltb_false 0 (ldepth li)) by assumption. reflexivity.
      * unfold tSedTransMineTailings.TransCapacity_w.
        rewrite (getLayerDepth_Some _ _ _ Hl). simpl.
        unfold Rgtb. rewrite (Rltb_false 0 (ldepth li)) by assumption. reflexivity.
Qed.

Definition consts0 : tConsts := mkConsts 1000 2650 9.81 31536000.

(** An input file that answers 0.001 to every double and 2 to every int. *)
Definition infile0 : tInputFile := mkInputFile (fun _ => 0.001) (fun _ => 2%Z).

Definition wilcock0 : tSedTransWilcock.t := tSedTransWilcock.ctor consts0 infile0.
Definition tailings0 : tSedTransMineTailings.t :=
  tSedTransMineTailings.ctor consts0 infile0.

(** [node0] with a negative slope. *)
Definition node_negslope : tLNode := setSlope (- 0.01) node0.

(** A node of negative slope whose top layer has no depth. *)
Definition node_negslope_thin : tLNode :=
  mkNode 10 1 (- 0.01) 10 100 2 0.03 1 false false 1 1 2 1
         0 0 0 0 0 [0; 0] [0; 0] [mkLayer 0 1 1 [0; 0]].

(** Counterexample to C6 as stated: the weighted shape ends the run on a node
    of negative slope when the layer it is given has depth 0 (the
    [assert( nd->getLayerDepth(i)>0 )] comes before the slope test). *)
Lemma C6_counterexample :
  slope node_negslope_thin < 0 /\
  tSedTransWilcock.TransCapacity_w consts0 wilcock0 node_negslope_thin 0 1
  = Fatal "nd->getLayerDepth(i)>0" /\
  tSedTransMineTailings.TransCapacity_w consts0 tailings0 node_negslope_thin 0 1
  = Fatal "nd->getLayerDepth(i)>0".
Proof.
  split; [simpl; lra|]. split.
  - unfold tSedTransWilcock.TransCapacity_w. simpl. rdecide. reflexivity.
  - unfold tSedTransMineTailings.TransCapacity_w. simpl. rdecide. reflexivity.
Qed.

Lemma C6_witness :
  slope node_negslope < 0 /\
  tSedTransWilcock.TransCapacity consts0 wilcock0 node_negslope
  = Ok (0, zeroed2 node_negslope).
Proof.
  assert (H : slope node_negslope < 0) by (simpl; lra).
  split; [exact H|].
  refine (proj1 (proj1
    (C6_negative_slope_zero_capacity consts0 wilcock0 tailings0 node_negslope
       0%nat 1 H) layer0 eq_refl _ _)); simpl; lia.
Defined.

(** ** The equilibrium tracker (C3) *)

Import tEquilibCheck.

Lemma LastP_app (l : list (R * R)) (x : R * R) : LastP (l ++ [x]) = Ok x.
Proof. unfold LastP. rewrite rev_app_distr. reflexivity. Qed.

(** [FindIterChngRate] appends one entry and keeps the window length. *)
Lemma FindIterChngRate_inv (time : R) (m : tMesh) (e e1 : t) (sr : R) :
  FindIterChngRate time m e = Ok (sr, e1) ->
  exists mean, massList e1 = massList e ++ [(time, mean)] /\
               longTime e1 = longTime e /\ shortRate e1 = sr.
Proof.
  unfold FindIterChngRate.
  destruct (forM _ _ _) as [[mass area]| |]; simpl; try discriminate.
  match goal with |- context [bind ?x _] => destruct x as [a| |] end;
    simpl; try discriminate.
  intros H; inversion H; subst; simpl. eauto.
Qed.

(** The scan stops on the entry before the first entry, past the oldest,
    whose time has reached the target. *)
Lemma scan_stops (target : R) (pre : list (R * R)) :
  forall (ca0 na0 : R * R) (rest : list (R * R)) (ca na : R * R)
         (post : list (R * R)),
    ca0 :: na0 :: rest = pre ++ ca :: na :: post ->
    (forall en, In en (tl (pre ++ [ca])) -> fst en < target) ->
    target <= fst na ->
    scan target ca0 na0 rest = Ok ca.
Proof.
  induction pre as [|p pre IH]; intros ca0 na0 rest ca na post E Hlt Hge.
  - simpl in E. inversion E; subst.
    destruct post; simpl; rewrite Rltb_false by assumption; reflexivity.
  - simpl in E. inversion E as [[E1 E2]]. subst ca0.
    assert (Hna : fst na0 < target).
    { apply Hlt. simpl. destruct pre; simpl in *; inversion E2; subst; left; reflexivity. }
    destruct rest as [|nx rest'].
    { destruct pre as [|? [|? ?]]; simpl in E2; discriminate. }
    simpl. rewrite Rltb_true by assumption.
    apply (IH na0 nx rest' ca na post E2); [|assumption].
    intros en Hen. apply Hlt. simpl.
    destruct pre; simpl in *; [contradiction|]. right. exact Hen.
Qed.

Lemma FindLongTermChngRate_short (time : R) (m : tMesh) (e e1 : t) (sr : R) :
  FindIterChngRate time m e = Ok (sr, e1) ->
  longTime e = 0 \/ massList e = [] ->
  FindLongTermChngRate time m e
  = Ok (sr, mk (massList e1) (longTime e1) sr sr).
Proof.
  intros H Hc. destruct (FindIterChngRate_inv _ _ _ _ _ H) as (mean & Em & El & Es).
  unfold FindLongTermChngRate. rewrite H. simpl.
  rewrite Em, LastP_app. simpl. rewrite <- Em, El, Es.
  destruct Hc as [Hc|Hc].
  - rewrite Reqb_true by lra. reflexivity.
  - rewrite Em, Hc. simpl. rewrite orb_true_r. reflexivity.
Qed.

Lemma FindLongTermChngRate_long (time : R) (m : tMesh) (e e1 : t) (sr : R)
  (pre post : list (R * R)) (ca na last : R * R) :
  FindIterChngRate time m e = Ok (sr, e1) ->
  longTime e <> 0 ->
  massList e1 = pre ++ ca :: na :: post ->
  LastP (massList e1) = Ok last ->
  (forall en, In en (tl (pre ++ [ca])) -> fst en < fst last - longTime e) ->
  fst last - longTime e <= fst na ->
  fst ca < fst last ->
  FindLongTermChngRate time m e
  = Ok ((snd last - snd ca) / (fst last - fst ca),
        mk (massList e1) (longTime e1)
           ((snd last - snd ca) / (fst last - fst ca)) sr).
Proof.
  intros H Hlt Em HL Hpre Hna Hca.
  destruct (FindIterChngRate_inv _ _ _ _ _ H) as (mean & _ & El & Es).
  unfold FindLongTermChngRate. rewrite H. simpl. rewrite HL. simpl.
  rewrite El. rewrite Reqb_false by lra. simpl.
  assert (Hlen : Nat.eqb (List.length (massList e1)) 1 = false).
  { rewrite Em, length_app. simpl. apply Nat.eqb_neq. lia. }
  rewrite Hlen.
  destruct (massList e1) as [|ca0 [|na0 rest]] eqn:EL.
  - destruct pre; discriminate.
  - destruct pre as [|? [|? ?]]; discriminate.
  - rewrite (scan_stops _ pre ca0 na0 rest ca na post Em Hpre Hna). simpl.
    unfold Rgtb. rewrite Rltb_true by lra. simpl. rewrite Es. reflexivity.
Qed.

(** A mesh of one active node of unit area at elevation 13.5. *)
Definition mesh_13_5 : tMesh := mkMesh [setZ 13.5 node0] [0%nat] 1 [].

(** A history of two entries, with the window given. *)
Definition history2 (window : R) : t := mk [(0, 10); (1, 11)] window 0 1.

(** A mesh of one active node of unit area at the elevation [h]. *)
Definition mesh_level (h : R) : tMesh := mkMesh [setZ h node0] [0%nat] 1 [].

(** C3.  [FindLongTermChngRate], called when [FindIterChngRate] succeeds
    with short-term rate [sr].  If [longTime] is
    zero or the history held no entry before the call (one entry after it),
    the long-term rate is the short-term rate.  Otherwise it is the rate
    between the latest entry and the entry that stands just before the first
    entry, past the oldest, whose time is at least the latest time minus
    [longTime]: the window spans at least [longTime] whenever the history is
    that long.  A first sample at time zero is never taken: on an empty
    history neither call returns at time zero, nor does the constructor that
    takes a first sample.  On a tracker built at time 1 with mean 10, a
    second sample (2,11) and a third sample (3,13.5), the short-term rate is
    2.5 and the long-term rate with window 2 is 1.75. *)
Theorem C3_FindLongTermChngRate :
  (forall time m e e1 sr,
     FindIterChngRate time m e = Ok (sr, e1) ->
     (longTime e = 0 \/ massList e = [] ->
      exists e2, FindLongTermChngRate time m e = Ok (sr, e2) /\
                 longRate e2 = sr /\ shortRate e2 = sr) /\
     (forall pre ca na post last,
        longTime e <> 0 ->
        massList e1 = pre ++ ca :: na :: post ->
        LastP (massList e1) = Ok last ->
        (forall en, In en (tl (pre ++ [ca])) -> fst en < fst last - longTime e) ->
        fst last - longTime e <= fst na ->
        fst ca < fst last ->
        exists e2,
          FindLongTermChngRate time m e
          = Ok ((snd last - snd ca) / (fst last - fst ca), e2) /\
          longRate e2 = (snd last - snd ca) / (fst last - fst ca) /\
          shortRate e2 = sr)) /\
  (forall m e,
     massList e = [] ->
     (forall r, FindIterChngRate 0 m e <> Ok r) /\
     (forall r, FindLongTermChngRate 0 m e <> Ok r) /\
     (forall e', ctor_mesh 0 m <> Ok e')) /\
  (exists e1 sr2 e2 r e3,
     ctor_mesh 1 (mesh_level 10) = Ok e1 /\
     FindIterChngRate 2 (mesh_level 11) e1 = Ok (sr2, e2) /\
     FindLongTermChngRate_new 2 3 (mesh_level 13.5) e2 = Ok (r, e3) /\
     r = 1.75 /\ longRate e3 = 1.75 /\ shortRate e3 = 2.5 /\
     exists m1 m2 m3,
       massList e3 = [(1, m1); (2, m2); (3, m3)] /\
       m1 = 10 /\ m2 = 11 /\ m3 = 13.5).
Proof.
  split; [|split].
  - intros time m e e1 sr H. split.
    + intros Hc. eexists. split; [apply FindLongTermChngRate_short; eassumption|].
      split; reflexivity.
    + intros pre ca na post last Hlt Em HL Hpre Hna Hca. eexists. split.
      * eapply FindLongTermChngRate_long; eassumption.
      * split; reflexivity.
  - intros m e He.
    assert (H0 : forall e0, massList e0 = [] ->
                            forall r, FindIterChngRate 0 m e0 <> Ok r).
    { intros e0 He0 r. unfold FindIterChngRate. rewrite He0.
      cbn [List.length Nat.eqb negb].
      destruct (forM _ _ _) as [[mass area]|msg|]; cbn [bind];
        try discriminate.
      cbv zeta. unfold Rgtb. rewrite Rltb_false by lra. discriminate. }
    split; [exact (H0 e He)|]. split.
    + intros r. unfold FindLongTermChngRate.
      destruct (FindIterChngRate 0 m e) as [[sr e1]|msg|] eqn:E;
        cbn [bind]; try discriminate.
      exfalso. exact (H0 e He _ E).
    + intros e'. unfold ctor_mesh.
      destruct (FindIterChngRate 0 m (mk [] 0.0 0.0 0.0)) as [[sr e1]|msg|] eqn:E;
        cbn [bind]; try discriminate.
      exfalso. exact (H0 (mk [] 0.0 0.0 0.0) eq_refl _ E).
  - do 5 eexists. split; [|split; [|split]].
    + unfold ctor_mesh, FindIterChngRate, mesh_level. simpl. rdecide.
      simpl. reflexivity.
    + unfold FindIterChngRate, mesh_level. simpl. rdecide. simpl. reflexivity.
    + unfold FindLongTermChngRate_new, FindLongTermChngRate, FindIterChngRate,
        setLongTime, mesh_level.
      simpl. rdecide. simpl. rdecide. simpl. rdecide. simpl. rdecide. simpl.
      reflexivity.
    + simpl. repeat split; try lra.
      do 3 eexists. split; [reflexivity|]. repeat split; lra.
Qed.

(** Counterexample to C3 as stated: on the tracker built at time 1 with
    mean 10, with a second sample (2,11), a third sample (3,13.5) and a
    window of 1, the earliest entry whose time is at least 3 - 1 is (2,11),
    which gives 2.5; the code stops one entry earlier, on (1,10), and
    returns 1.75. *)
Lemma C3_counterexample :
  exists e1 sr2 e2 r e3,
    ctor_mesh 1 (mesh_level 10) = Ok e1 /\
    FindIterChngRate 2 (mesh_level 11) e1 = Ok (sr2, e2) /\
    FindLongTermChngRate_new 1 3 (mesh_level 13.5) e2 = Ok (r, e3) /\
    r = 1.75 /\
    exists rspec,
      spec_LongTermChngRate (massList e3) (longTime e3) (shortRate e3)
      = Some rspec /\ rspec = 2.5 /\ r <> rspec.
Proof.
  do 5 eexists. split; [|split; [|split]].
  - unfold ctor_mesh, FindIterChngRate, mesh_level. simpl. rdecide.
    simpl. reflexivity.
  - unfold FindIterChngRate, mesh_level. simpl. rdecide. simpl. reflexivity.
  - unfold FindLongTermChngRate_new, FindLongTermChngRate, FindIterChngRate,
      setLongTime, mesh_level.
    simpl. rdecide. simpl. rdecide. simpl. rdecide. simpl. rdecide. simpl.
    reflexivity.
  - split; [simpl; lra|].
    unfold spec_LongTermChngRate. simpl. rdecide. simpl. rdecide. simpl.
    rdecide. simpl.
    eexists. split; [reflexivity|]. split; lra.
Qed.

(** ** The sub-step loop *)

(** A sub-step [dt] taken with [dtg] remaining: at least the smaller of
    [dtg] and the floor [delta], at most the larger of [dtg] and [c]. *)
Definition step_ok (delta c dtg dt : R) : Prop :=
  Rmin dtg delta <= dt <= Rmax dtg c.

Section DoWhile.

Context {S : Type}.
Variable body : R -> S -> result (R * S).
Variables tol delta c : R.
Variable Inv : R -> S -> Prop.
Hypothesis tol_nonneg : 0 <= tol.
Hypothesis delta_pos : 0 < delta.
Hypothesis c_nonneg : 0 <= c.
Hypothesis body_step :
  forall dtg s dt s',
    0 < dtg -> Inv dtg s -> body dtg s = Ok (dt, s') ->
    step_ok delta c dtg dt /\ (tol < dtg - dt -> Inv (dtg - dt) s').

(** With [n] floors to go at most, [n+1] passes suffice. *)
Lemma do_while_fuel (n : nat) :
  forall dtg s,
    0 < dtg -> Inv dtg s -> dtg <= tol + INR n * delta ->
    forall fuel, (n < fuel)%nat -> do_while fuel body tol dtg s <> None.
Proof using tol_nonneg delta_pos body_step.
  induction n as [|n IH]; intros dtg s Hpos HI Hle fuel Hf;
    (destruct fuel as [|fuel]; [lia|]); simpl;
    destruct (body dtg s) as [[dt s1]| |] eqn:Eb; try discriminate;
    destruct (body_step _ _ _ _ Hpos HI Eb) as [[Hlo _] Hinv];
    unfold Rgtb; destruct (Rltb_spec tol (dtg - dt)) as [Hc|Hc]; try discriminate.
  - exfalso. simpl in Hle. unfold Rmin in Hlo.
    destruct (Rle_dec dtg delta); lra.
  - assert (Hd : delta <= dt).
    { unfold Rmin in Hlo. destruct (Rle_dec dtg delta); lra. }
    assert (Hne : do_while fuel body tol (dtg - dt) s1 <> None).
    { apply IH; try lra; try lia. { now apply Hinv. }
      rewrite S_INR in Hle. lra. }
    destruct (do_while fuel body tol (dtg - dt) s1) as [[[s2 st]| |]|];
      try discriminate. contradiction.
Qed.

Lemma do_while_terminates (dtg : R) (s : S) :
  0 < dtg -> Inv dtg s ->
  terminates (fun fuel => do_while fuel body tol dtg s).
Proof using tol_nonneg delta_pos body_step.
  intros Hpos HI.
  destruct (INR_unbounded (dtg / delta)) as [n Hn].
  exists (Datatypes.S n). intros fuel Hf.
  apply (do_while_fuel n); try assumption; try lia.
  assert (dtg < INR n * delta).
  { apply (Rmult_lt_compat_r delta) in Hn; [|assumption].
    unfold Rdiv in Hn. rewrite Rmult_assoc, Rinv_l, Rmult_1_r in Hn by lra.
    exact Hn. }
  lra.
Qed.

(** The sub-steps sum to the time asked for, short of it by the exit
    tolerance at most and past it by [c] at most. *)
Lemma do_while_sum (fuel : nat) :
  forall dtg s s' steps,
    0 < dtg -> Inv dtg s ->
    do_while fuel body tol dtg s = Some (Ok (s', steps)) ->
    dtg - tol <= Rsum steps <= dtg + c.
Proof using tol_nonneg c_nonneg body_step.
  induction fuel as [|fuel IH]; intros dtg s s' steps Hpos HI H;
    [discriminate|]. simpl in H.
  destruct (body dtg s) as [[dt s1]| |] eqn:Eb; try discriminate.
  destruct (body_step _ _ _ _ Hpos HI Eb) as [[_ Hhi] Hinv].
  unfold Rgtb in H. destruct (Rltb_spec tol (dtg - dt)) as [Hc|Hc].
  - destruct (do_while fuel body tol (dtg - dt) s1) as [[[s2 st]| |]|] eqn:Er;
      try discriminate.
    inversion H; subst. simpl.
    assert (Hp : 0 < dtg - dt) by lra.
    assert (Hr := IH _ _ _ _ Hp (Hinv Hc) Er). lra.
  - inversion H; subst. simpl.
    unfold Rmax in Hhi. destruct (Rle_dec dtg c); lra.
Qed.

End DoWhile.

Lemma finish_terminates {S : Type} (f : S -> tMesh)
  (run : nat -> option (result (S * list R))) :
  terminates run -> terminates (fun fuel => finish f (run fuel)).
Proof.
  intros [N HN]. exists N. intros fuel Hf. specialize (HN fuel Hf).
  unfold finish. destruct (run fuel) as [[[s st]| |]|]; try discriminate.
  contradiction.
Qed.

Lemma finish_within {S : Type} (f : S -> tMesh)
  (run : nat -> option (result (S * list R))) (lo hi : R) :
  substeps_within run lo hi ->
  substeps_within (fun fuel => finish f (run fuel)) lo hi.
Proof.
  intros H fuel a steps E. unfold finish in E.
  destruct (run fuel) as [[[s st]| |]|] eqn:Er; try discriminate.
  inversion E; subst. eapply H; eassumption.
Qed.

(** ** Inversion of the passes over the nodes *)

Lemma bind_Ok {A B : Type} (r : result A) (k : A -> result B) (b : B) :
  bind r k = Ok b -> exists a, r = Ok a /\ k a = Ok b.
Proof. destruct r; simpl; try discriminate. eauto. Qed.

(** A property of the value a fold ends with, kept by each pass. *)
Lemma forM_inv {S : Type} (P : S -> Prop) (f : nat -> S -> result S) :
  (forall i a a', P a -> f i a = Ok a' -> P a') ->
  forall idxs s s', P s -> forM idxs f s = Ok s' -> P s'.
Proof.
  intros Hf. induction idxs as [|i rest IH]; simpl; intros s s' Hs H.
  - inversion H; subst; assumption.
  - apply bind_Ok in H. destruct H as (a & Ha & Hk). eauto.
Qed.

(** Take apart an equation [e = Ok v] along the binds and tests of [e]. *)
Ltac break_ok H :=
  unfold Rgtb, Rgeb in H;
  repeat match type of H with
    | bind ?r _ = Ok _ =>
        let a := fresh "a" in
        let E := fresh "E" in
        destruct r as [a| |] eqn:E; simpl in H;
        [|discriminate H|discriminate H]
    | (let '(_, _) := ?p in _) = Ok _ => destruct p; simpl in H
    | context [Rltb ?a ?b] => destruct (Rltb_spec a b); simpl in H
    | context [Rleb ?a ?b] => destruct (Rleb_spec a b); simpl in H
    | (if ?b then _ else _) = Ok _ => destruct b eqn:?; simpl in H
    | Fatal _ = Ok _ => discriminate H
    | OutOfFuel = Ok _ => discriminate H
    | Ok _ = Ok _ => inversion H; subst; clear H
    end.

Ltac minmax :=
  unfold step_ok, Rmin, Rmax in *;
  repeat match goal with
    | |- context [Rle_dec ?a ?b] => destruct (Rle_dec a b)
    | H : context [Rle_dec ?a ?b] |- _ => destruct (Rle_dec a b)
    end.

(** *** ErodeDetachLim *)

Lemma ErodeDetachLim_dtmax_ok (act : list nat) (ns : list tLNode)
  (dtg dtmax : R) :
  0 < dtg ->
  ErodeDetachLim_dtmax act ns dtg = Ok dtmax ->
  step_ok 0.000005 0 dtg dtmax.
Proof.
  intros Hpos H. unfold ErodeDetachLim_dtmax in H.
  revert H. apply forM_inv.
  - intros i a a' Ha Hf. cbv zeta in Hf. break_ok Hf; minmax; lra.
  - minmax; lra.
Qed.

Lemma ErodeDetachLim_body_ok (ops : tNodeOps) (er : tErosion) (dtg : R)
  (m m' : tMesh) (dt : R) :
  0 < dtg ->
  ErodeDetachLim_body ops er dtg m = Ok (dt, m') ->
  step_ok 0.000005 0 dtg dt.
Proof.
  intros Hpos H. unfold ErodeDetachLim_body in H. break_ok H.
  eapply ErodeDetachLim_dtmax_ok; eassumption.
Qed.

(** *** ErodeDetachLim with uplift *)

Lemma ErodeDetachLimU_dtmax_ok (UPtr : tUplift) (dtmin : R) (act : list nat)
  (ns : list tLNode) (dtg dtmax : R) :
  0 < dtg -> 0 < dtmin ->
  ErodeDetachLimU_dtmax UPtr dtmin act ns dtg = Ok dtmax ->
  step_ok dtmin dtmin dtg dtmax.
Proof.
  intros Hpos Hmin H. unfold ErodeDetachLimU_dtmax in H.
  revert H. apply forM_inv.
  - intros i a a' Ha Hf. cbv zeta in Hf. break_ok Hf; minmax; lra.
  - minmax; lra.
Qed.

Lemma ErodeDetachLimU_body_ok (ops : tNodeOps) (er : tErosion)
  (UPtr : tUplift) (dtmin dtg : R) (m m' : tMesh) (dt : R) :
  0 < dtg -> 0 < dtmin ->
  ErodeDetachLimU_body ops er UPtr dtmin dtg m = Ok (dt, m') ->
  step_ok dtmin dtmin dtg dt.
Proof.
  intros Hpos Hmin H. unfold ErodeDetachLimU_body in H. break_ok H.
  eapply ErodeDetachLimU_dtmax_ok; eassumption.
Qed.

(** *** StreamErode *)

Lemma StreamErode_dtmax_ok (act : list nat) (ns : list tLNode)
  (dtg dtmax : R) :
  0 < dtg ->
  StreamErode_dtmax act ns dtg = Ok dtmax ->
  step_ok 1e-8 1e-8 dtg dtmax.
Proof.
  intros Hpos H. unfold StreamErode_dtmax in H. cbv zeta in H.
  apply bind_Ok in H. destruct H as (d & Hd & H).
  assert (Hle : d <= dtg / 0.3).
  { revert Hd. apply (forM_inv (fun d => d <= dtg / 0.3)); [|lra].
    intros i a a' Ha Hf. break_ok Hf; lra. }
  unfold kSmallTimeStep in H. break_ok H; minmax; lra.
Qed.

Lemma StreamErode_body_ok (c : tConsts) (ops : tNodeOps) (er : tErosion)
  (strmNet : tStreamNet) (dtg : R) (m m' : tMesh) (dt : R) :
  0 < dtg ->
  StreamErode_body c ops er strmNet dtg m = Ok (dt, m') ->
  step_ok 1e-8 1e-8 dtg dt.
Proof.
  intros Hpos H. unfold StreamErode_body in H. break_ok H.
  eapply StreamErode_dtmax_ok; eassumption.
Qed.

(** *** StreamErodeMulti *)

Lemma StreamErodeMulti_dtmax_ok (act : list nat) (ns : list tLNode)
  (dtg dtmax : R) :
  0 < dtg ->
  StreamErodeMulti_dtmax act ns dtg = Ok dtmax ->
  step_ok 3e-7 0.0015 dtg dtmax.
Proof.
  intros Hpos H. unfold StreamErodeMulti_dtmax in H. cbv zeta in H.
  apply bind_Ok in H. destruct H as (d & Hd & H).
  assert (Hle : Rmin (dtg / 0.3) 1e-6 <= d <= Rmax (dtg / 0.3) 0.005).
  { revert Hd.
    apply (forM_inv (fun d => Rmin (dtg / 0.3) 1e-6 <= d
                              <= Rmax (dtg / 0.3) 0.005)); [|minmax; lra].
    intros i a a' Ha Hf. break_ok Hf; minmax; lra. }
  inversion H; subst. minmax; lra.
Qed.

Lemma StreamErodeMulti_body_ok (c : tConsts) (ops : tNodeOps) (er : tErosion)
  (strmNet : tStreamNet) (dtg : R) (st st' : R * tMesh * tMultiArrays)
  (dt : R) :
  0 < dtg ->
  StreamErodeMulti_body c ops er strmNet dtg st = Ok (dt, st') ->
  step_ok 3e-7 0.0015 dtg dt.
Proof.
  intros Hpos H. unfold StreamErodeMulti_body in H.
  destruct st as [[timegb m] a]. break_ok H.
  eapply StreamErodeMulti_dtmax_ok; eassumption.
Qed.

(** *** DetachErode *)

Lemma DetachErode_dtmax_ok (strmNet : tStreamNet) (act : list nat)
  (ns ns' : list tLNode) (dtg dtmax : R) :
  0 < dtg ->
  DetachErode_dtmax strmNet act dtg ns = Ok (dtmax, ns') ->
  Rmin (dtg / 0.3) 0.0001 <= dtmax <= Rmax (dtg / 0.3) 0.0001.
Proof.
  intros Hpos H. unfold DetachErode_dtmax in H. cbv zeta in H.
  change (Rmin (dtg / 0.3) 0.0001 <= fst (dtmax, ns')
          <= Rmax (dtg / 0.3) 0.0001).
  revert H.
  apply (forM_inv (fun st : R * list tLNode =>
                     Rmin (dtg / 0.3) 0.0001 <= fst st
                     <= Rmax (dtg / 0.3) 0.0001)); [|simpl; minmax; lra].
  intros i [a ns1] [a' ns2] Ha Hf. simpl in Ha |- *.
  break_ok Hf; minmax; lra.
Qed.

Lemma DetachErode_body_ok (lfuel : nat) (c : tConsts) (ops : tNodeOps)
  (er : tErosion) (strmNet : tStreamNet) (dtg : R)
  (st st' : R * tMesh * list R) (dt : R) :
  0 < dtg ->
  DetachErode_body lfuel c ops er strmNet dtg st = Ok (dt, st') ->
  step_ok 3e-5 3e-5 dtg dt.
Proof.
  intros Hpos H. unfold DetachErode_body in H.
  destruct st as [[timegb m] erolist]. cbv zeta in H.
  apply bind_Ok in H. destruct H as (ns1 & _ & H).
  apply bind_Ok in H. destruct H as (ns2 & _ & H).
  apply bind_Ok in H. destruct H as ([d ns3] & Hd & H).
  apply bind_Ok in H. destruct H as ([ns4 ero] & _ & H).
  inversion H; subst.
  pose proof (DetachErode_dtmax_ok _ _ _ _ _ _ Hpos Hd). minmax; lra.
Qed.

(** *** Diffuse *)

Lemma Diffuse_dtmax_ok (er : tErosion) (es : list tEdge) (rt : R) :
  0 < rt -> (forall ce, In ce es -> 0 < elength ce) ->
  0 < Diffuse_dtmax er es rt <= rt.
Proof.
  intros Hpos Hlen. unfold Diffuse_dtmax.
  assert (G : forall d, 0 < d <= rt ->
            0 < fold_left
                  (fun dtmax ce =>
                     let denom := kd er * vedglen ce in
                     if denom >? kVerySmall then
                       let delt := kEpsOver2 * (elength ce / denom) in
                       if delt <? dtmax then delt else dtmax
                     else dtmax) es d <= rt).
  { induction es as [|ce es IH]; intros d Hd; simpl; [exact Hd|].
    apply IH.
    - intros ce' Hin. apply Hlen. now right.
    - unfold Rgtb, kVerySmall, kEpsOver2.
      destruct (Rltb_spec 1e-6 (kd er * vedglen ce)); [|exact Hd].
      assert (0 < elength ce / (kd er * vedglen ce)).
      { apply Rdiv_lt_0_compat; [apply Hlen; now left | lra]. }
      destruct (Rltb_spec (0.1 * (elength ce / (kd er * vedglen ce))) d); lra. }
  apply G. lra.
Qed.

(** The state of the loop of Diffuse: the sub-step in store is the first
    one, or what remains when that is less. *)
Definition Diffuse_inv (d0 : R) (rt : R) (st : R * tMesh) : Prop :=
  Rmin rt d0 <= fst st <= rt.

Lemma Diffuse_body_ok (ops : tNodeOps) (er : tErosion) (noDepoFlag : bool)
  (d0 rt : R) (st st' : R * tMesh) (dt : R) :
  0 < d0 -> 0 < rt -> Diffuse_inv d0 rt st ->
  Diffuse_body ops er noDepoFlag rt st = Ok (dt, st') ->
  step_ok d0 0 rt dt /\ (0.0 < rt - dt -> Diffuse_inv d0 (rt - dt) st').
Proof.
  intros Hd Hpos HI H. unfold Diffuse_body in H. destruct st as [dtmax m].
  unfold Diffuse_inv in *. simpl in HI. cbv zeta in H.
  apply bind_Ok in H. destruct H as (ns1 & _ & H).
  apply bind_Ok in H. destruct H as (ns2 & _ & H).
  apply bind_Ok in H. destruct H as (ns3 & _ & H).
  inversion H; subst. simpl. split.
  - minmax; lra.
  - intros Hc. unfold Rgtb.
    destruct (Rltb_spec (rt - dt) dt); minmax; lra.
Qed.

(** *** C2 *)

Lemma loop_ok {S : Type} (body : R -> S -> result (R * S))
  (tol delta c : R) (dtg : R) (s : S) :
  0 <= tol -> 0 < delta -> 0 <= c -> 0 < dtg ->
  (forall dtg s dt s',
     0 < dtg -> body dtg s = Ok (dt, s') -> step_ok delta c dtg dt) ->
  terminates (fun fuel => do_while fuel body tol dtg s) /\
  substeps_within (fun fuel => do_while fuel body tol dtg s)
    (dtg - tol) (dtg + c).
Proof.
  intros Ht Hd Hc Hpos Hb.
  assert (Hstep : forall dtg s dt s',
             0 < dtg -> (fun (_ : R) (_ : S) => True) dtg s ->
             body dtg s = Ok (dt, s') ->
             step_ok delta c dtg dt /\
             (tol < dtg - dt -> (fun (_ : R) (_ : S) => True) (dtg - dt) s')).
  { intros. split; [eauto|trivial]. }
  split.
  - eapply (do_while_terminates body tol delta c _ Ht Hd Hstep); trivial.
  - intros fuel a steps E.
    eapply (do_while_sum body tol delta c _ Ht Hc Hstep fuel); eauto.
Qed.

(** C2.  Given a positive time increment [dtg], each of the six integrators
    stops after finitely many sub-steps, whatever the collaborators do, and
    when it returns the sub-steps it applied sum to [dtg] up to the exit
    tolerance of its loop below and up to its minimum sub-step above:
    ErodeDetachLim to within [dtg - 1e-7, dtg]; ErodeDetachLim with uplift to
    within [dtg, dtg + dtg*1e-4]; StreamErode to within
    [dtg - 1e-6, dtg + 1e-8]; StreamErodeMulti to within
    [dtg - 1e-6, dtg + 0.0015]; DetachErode (when rain exceeds infiltration)
    to within [dtg - 1e-6, dtg + 3e-5]; Diffuse, on edges of positive length,
    to exactly [dtg]. *)
Theorem C2_substeps_terminate_and_sum (dtg : R) :
  0 < dtg ->
  (forall ops er strmNet m,
     terminates (fun fuel => ErodeDetachLim fuel ops er dtg strmNet m) /\
     substeps_within (fun fuel => ErodeDetachLim fuel ops er dtg strmNet m)
       (dtg - 0.0000001) dtg) /\
  (forall ops er strmNet UPtr m,
     terminates (fun fuel => ErodeDetachLimU fuel ops er dtg strmNet UPtr m) /\
     substeps_within
       (fun fuel => ErodeDetachLimU fuel ops er dtg strmNet UPtr m)
       dtg (dtg + dtg * 0.0001)) /\
  (forall c ops er strmNet m,
     terminates (fun fuel => StreamErode fuel c ops er dtg strmNet m) /\
     substeps_within (fun fuel => StreamErode fuel c ops er dtg strmNet m)
       (dtg - 1e-6) (dtg + 1e-8)) /\
  (forall c ops er strmNet time m,
     terminates
       (fun fuel => StreamErodeMulti fuel c ops er dtg strmNet time m) /\
     substeps_within
       (fun fuel => StreamErodeMulti fuel c ops er dtg strmNet time m)
       (dtg - 1e-6) (dtg + 0.0015)) /\
  (forall lfuel c ops er strmNet time m,
     terminates
       (fun fuel => DetachErode fuel lfuel c ops er dtg strmNet time m) /\
     (0 < getRainRate strmNet - getInfilt strmNet ->
      substeps_within
        (fun fuel => DetachErode fuel lfuel c ops er dtg strmNet time m)
        (dtg - 1e-6) (dtg + 3e-5))) /\
  (forall ops er noDepoFlag m,
     (forall ce, In ce (edges m) -> 0 < elength ce) ->
     terminates (fun fuel => Diffuse fuel ops er dtg noDepoFlag m) /\
     substeps_within (fun fuel => Diffuse fuel ops er dtg noDepoFlag m)
       dtg dtg).
Proof.
  intros Hpos. repeat apply conj.
  - intros ops er strmNet m. unfold ErodeDetachLim.
    destruct (loop_ok (ErodeDetachLim_body ops er) 0.0000001 0.000005 0 dtg
                (FindHydrGeom strmNet (FindChanGeom strmNet m)))
      as [T W]; try lra.
    { intros. eapply ErodeDetachLim_body_ok; eassumption. }
    split; [exact T|]. intros fuel a steps E. specialize (W fuel a steps E). lra.
  - intros ops er strmNet UPtr m. unfold ErodeDetachLimU.
    destruct (loop_ok (ErodeDetachLimU_body ops er UPtr (dtg * 0.0001)) 0
                (dtg * 0.0001) (dtg * 0.0001) dtg
                (FindHydrGeom strmNet (FindChanGeom strmNet m)))
      as [T W]; try lra.
    { intros. eapply ErodeDetachLimU_body_ok; try eassumption. lra. }
    split; [exact T|]. intros fuel a steps E. specialize (W fuel a steps E). lra.
  - intros c ops er strmNet m. unfold StreamErode.
    destruct (loop_ok (StreamErode_body c ops er strmNet) 1e-6 1e-8 1e-8 dtg
                (SortNodesByNetOrder strmNet m)) as [T W]; try lra.
    { intros. eapply StreamErode_body_ok; eassumption. }
    split; [exact T|]. intros fuel a steps E. specialize (W fuel a steps E). lra.
  - intros c ops er strmNet time m. unfold StreamErodeMulti.
    destruct (firstNumg m) as [n| |].
    + match goal with
      | |- context [do_while _ ?b ?tol dtg ?s] =>
          destruct (loop_ok b tol 3e-7 0.0015 dtg s) as [T W]; try lra
      end.
      { intros. eapply StreamErodeMulti_body_ok; eassumption. }
      split.
      * apply finish_terminates. exact T.
      * apply finish_within. exact W.
    + split; [exists 0%nat; discriminate | intros fuel a steps E; discriminate].
    + split; [exists 0%nat; discriminate | intros fuel a steps E; discriminate].
  - intros lfuel c ops er strmNet time m. unfold DetachErode, Rgtb.
    destruct (Rltb_spec 0 (getRainRate strmNet - getInfilt strmNet)) as [Hr|Hr].
    + destruct (firstNumg m) as [n| |].
      * match goal with
        | |- context [do_while _ ?b ?tol dtg ?s] =>
            destruct (loop_ok b tol 3e-5 3e-5 dtg s) as [T W]; try lra
        end.
        { intros. eapply DetachErode_body_ok; eassumption. }
        split.
        -- apply finish_terminates. exact T.
        -- intros _. apply finish_within. exact W.
      * split; [exists 0%nat; discriminate | intros _ fuel a steps E; discriminate].
      * split; [exists 0%nat; discriminate | intros _ fuel a steps E; discriminate].
    + split; [exists 0%nat; discriminate | intros Hr'; lra].
  - intros ops er noDepoFlag m Hlen. unfold Diffuse.
    destruct (Diffuse_dtmax_ok er (edges m) dtg Hpos Hlen) as [Hd0 Hd1].
    set (d0 := Diffuse_dtmax er (edges m) dtg) in *.
    assert (Hstep : forall rt st dt st',
               0 < rt -> Diffuse_inv d0 rt st ->
               Diffuse_body ops er noDepoFlag rt st = Ok (dt, st') ->
               step_ok d0 0 rt dt /\
               (0.0 < rt - dt -> Diffuse_inv d0 (rt - dt) st')).
    { intros. eapply Diffuse_body_ok; eassumption. }
    assert (HI : Diffuse_inv d0 dtg (d0, m)).
    { unfold Diffuse_inv. simpl. minmax; lra. }
    split.
    + apply finish_terminates.
      eapply (do_while_terminates _ 0.0 d0 0 (Diffuse_inv d0)); try eassumption; lra.
    + apply finish_within. intros fuel a steps E.
      assert (Hs := do_while_sum _ 0.0 d0 0 (Diffuse_inv d0)
                      ltac:(lra) ltac:(lra) Hstep fuel _ _ _ _ Hpos HI E).
      lra.
Qed.

(** ** Stand-ins for the collaborators, for the concrete runs below *)

(** Modelled from the spec: [tLNode::EroDep( double dz )], whose body is not
    in this file: the elevation changes by [dz]. *)
Definition EroDep_dz0 (dz : R) (n : tLNode) : tLNode := setZ (z n + dz) n.

(** Modelled from the spec: [tLNode::EroDep( int i, tArray<double> valgrd,
    double tt )], whose body is not in this file: the elevation changes by
    the depths asked for, and these are returned as the amounts realized (the
    layer stack of this stand-in is left as it is). *)
Definition EroDep0 (i : nat) (valgrd : list R) (tt : R) (n : tLNode)
  : result (list R * tLNode) :=
  Ok (valgrd, setZ (z n + Rsum valgrd) n).

Definition ops0 : tNodeOps :=
  mkNodeOps EroDep_dz0 EroDep0 (fun _ => false) (fun _ => 0)
    (fun ce ns => 0).

(** A stream net with rain, no inlet, and geometry updates that leave the
    mesh as it is. *)
Definition strmNet0 : tStreamNet :=
  mkStreamNet 1 0 None 0 [] (fun m => m) (fun m => m) (fun m => m).

Definition uplift0 : tUplift := mkUplift 0.

Definition erosion0 : tErosion :=
  mkErosion bedErode0 (PwrLawMulti (tSedTransPwrLawMulti.ctor infile0)) 0.01 1.

(** A boundary node at elevation 0. *)
Definition outlet0 : tLNode :=
  mkNode 0 1 0 0 0 1 0.03 1 false true 1 1 2 1
         0 0 0 0 0 [0; 0] [0; 0] [layer0].

(** An active node like [node0], draining to node 1, at elevation [zc] and
    with the scratch fields [tau], [drdt] and [dzdt] as given. *)
Definition node_at (zc t d dz : R) : tLNode :=
  mkNode zc 1 0.01 10 100 2 0.03 1 false false 1 1 2 1
         t d dz 0 0 [0; 0] [0; 0] [layer0].

(** One active node draining to the outlet. *)
Definition mesh_of (cn : tLNode) : tMesh :=
  mkMesh [cn; outlet0] [0%nat; 1%nat] 1 [].

Lemma rate_of_bedErode0 (n : tLNode) (e : R) :
  rate_of bedErode0 n e = e * Rmax 0 (2 - tauc n).
Proof.
  unfold rate_of, shear, bedErode0. simpl.
  rewrite !pow_exp_0. rewrite pow_exp_1 by apply Rmax_l.
  do 2 f_equal. lra.
Qed.

(** Evaluation of the field updates and reads of concrete nodes. *)
Ltac node_cbv :=
  cbv beta iota zeta delta
    [setZ setTau setDrDt setDzDt setQs setQsin setNodes
     z varea slope q drarea hydrwidth hydrrough chandepth floodstatus
     boundary tauc maxregdep numg downstrm tau drdt dzdt qs qsin qsm qsinm
     layerlist nodes order nactive edges bind].

(** Equality of the mesh after one pass over [mesh_of (node_at ...)] with
    the expected one: the real components are brought to the same form. *)
Ltac node_eq :=
  unfold shear, bedErode0, node_at, tBedErodePwrLaw.kt, tBedErodePwrLaw.mb,
    tBedErodePwrLaw.nb;
  node_cbv; rewrite !pow_exp_0;
  replace (2 * 1 * 1) with 2 by lra;
  replace (- (1 * 1)) with (- 1) by lra;
  match goal with
  | |- context [ Ok (?b, _) ] =>
      match goal with
      | |- context [ ?a + (- 1 * b + 0) ] =>
          replace (a + (- 1 * b + 0)) with (a - b) by lra
      end
  end;
  reflexivity.

(** The sub-step ErodeDetachLim with uplift selects on [mesh_of]: the node
    erodes at rate 1 above an outlet that stays at 0. *)
Definition selU (zc dtmin dtg : R) : R :=
  if zc >? 0 then
    if (zc * 0.1 >? dtmin) && (zc * 0.1 <? dtg) then zc * 0.1 else dtmin
  else dtg.

Lemma Rmax_0_1 : Rmax 0 (2 - 1) = 1.
Proof. rewrite Rmax_right; lra. Qed.

Lemma ErodeDetachLimU_pass (zc t d dz dtmin dtg : R) :
  ErodeDetachLimU_body ops0 erosion0 uplift0 dtmin dtg
    (mesh_of (node_at zc t d dz))
  = Ok (selU zc dtmin dtg,
        mesh_of (node_at (zc - selU zc dtmin dtg) 2 (- 1) (- 1))).
Proof.
  unfold ErodeDetachLimU_body, ErodeDetachLim_rates, mesh_of, active. simpl.
  unfold withNode at 1. simpl.
  rewrite (DetachCapacity_value bedErode0 _ layer0);
    simpl; try lra; try reflexivity.
  rewrite rate_of_bedErode0. simpl. rewrite Rmax_0_1.
  unfold ErodeDetachLimU_dtmax. simpl.
  replace (0 - - (1 * 1) - 0) with 1 by lra.
  unfold selU, Rgtb.
  destruct (Rltb_spec 0 zc) as [Hz|Hz].
  - rewrite (Rltb_true 0 1) by lra. simpl.
    replace ((zc - 0) / 1 * 0.1) with (zc * 0.1) by lra.
    destruct ((dtmin <? zc * 0.1) && (zc * 0.1 <? dtg)); node_eq.
  - rewrite (Rltb_true 0 1) by lra. simpl. node_eq.
Qed.

(** Counterexample to C2 as stated: ErodeDetachLim with uplift, asked for a
    time increment of 1 on a node of elevation 9.99995 that erodes at rate 1
    above its outlet, takes the sub-steps 0.999995 and then its minimum
    sub-step 0.0001 (with 0.000005 left): they sum to 1.000095, which is
    past the increment by more than 1e-6. *)
Lemma C2_counterexample :
  exists m' steps,
    ErodeDetachLimU 2 ops0 erosion0 1 strmNet0 uplift0
      (mesh_of (node_at 9.99995 0 0 0)) = Some (Ok (m', steps)) /\
    Rsum steps = 1.000095 /\
    1e-6 < Rabs (Rsum steps - 1).
Proof.
  unfold ErodeDetachLimU. simpl.
  rewrite ErodeDetachLimU_pass.
  assert (E1 : selU 9.99995 (1 * 0.0001) 1 = 0.999995).
  { unfold selU. rdecide. simpl. lra. }
  rewrite E1. unfold Rgtb. rewrite (Rltb_true 0 (1 - 0.999995)) by lra.
  rewrite ErodeDetachLimU_pass.
  assert (E2 : selU (9.99995 - 0.999995) (1 * 0.0001) (1 - 0.999995)
               = 0.0001).
  { unfold selU. rdecide. simpl. lra. }
  rewrite E2. rewrite Rltb_false by lra.
  do 2 eexists. split; [reflexivity|]. simpl. split; [lra|].
  unfold Rabs. destruct (Rcase_abs _); lra.
Qed.

Lemma C2_witness :
  0 < 1 /\
  terminates
    (fun fuel =>
       ErodeDetachLim fuel ops0 erosion0 1 strmNet0
         (mesh_of (node_at 10 0 0 0))).
Proof.
  assert (H : 0 < 1) by lra.
  split; [exact H|].
  exact (proj1 (proj1 (C2_substeps_terminate_and_sum 1 H)
                  ops0 erosion0 strmNet0 (mesh_of (node_at 10 0 0 0)))).
Defined.

(** ** C7 *)

(** C7.  When the rain rate minus the infiltration is not positive,
    DetachErode returns at once: it applies no sub-step and the mesh (every
    node with its elevation, layers and flux fields) is the one it was
    given; no arithmetic beyond that subtraction is carried out. *)
Theorem C7_DetachErode_without_runoff
  (fuel lfuel : nat) (c : tConsts) (ops : tNodeOps) (er : tErosion)
  (dtg : R) (strmNet : tStreamNet) (time : R) (m : tMesh) :
  getRainRate strmNet - getInfilt strmNet <= 0 ->
  DetachErode fuel lfuel c ops er dtg strmNet time m = Some (Ok (m, [])).
Proof.
  intros H. unfold DetachErode, Rgtb. now rewrite Rltb_false.
Qed.

(** A stream net whose infiltration exceeds the rain. *)
Definition strmNet_dry : tStreamNet :=
  mkStreamNet 1 2 None 0 [] (fun m => m) (fun m => m) (fun m => m).

Lemma C7_witness :
  DetachErode 0 0 consts0 ops0 erosion0 100 strmNet_dry 0
    (mesh_of (node_at 10 0 0 0))
  = Some (Ok (mesh_of (node_at 10 0 0 0), [])).
Proof.
  apply C7_DetachErode_without_runoff. simpl. lra.
Defined.

(** ** Diffusion without deposition (C8) *)

(** No node of [ns'] stands higher than in [ns]; the areas are the same. *)
Definition no_rise (ns ns' : list tLNode) : Prop :=
  List.length ns' = List.length ns /\
  forall i n n',
    nth_error ns i = Some n -> nth_error ns' i = Some n' ->
    z n' <= z n /\ varea n' = varea n.

Lemma no_rise_refl (ns : list tLNode) : no_rise ns ns.
Proof.
  split; [reflexivity|]. intros i n n' H H'. rewrite H in H'.
  inversion H'; subst. split; [lra|reflexivity].
Qed.

Lemma no_rise_trans (a b c : list tLNode) :
  no_rise a b -> no_rise b c -> no_rise a c.
Proof.
  intros [L1 H1] [L2 H2]. split; [congruence|].
  intros i n n' Ha Hc.
  destruct (nth_error b i) as [nb|] eqn:Eb.
  - destruct (H1 _ _ _ Ha Eb), (H2 _ _ _ Eb Hc). split; [lra|congruence].
  - apply nth_error_None in Eb.
    assert (nth_error a i <> None) by congruence.
    apply nth_error_Some in H. lia.
Qed.

Lemma nth_error_upd {A : Type} (l : list A) (i j : nat) (a : A) :
  nth_error (upd l i a) j
  = if Nat.eqb i j then (if (i <? List.length l)%nat then Some a else None)
    else nth_error l j.
Proof.
  revert i j. induction l as [|h t IH]; intros i j; simpl.
  - destruct (Nat.eqb i j); destruct j; reflexivity.
  - destruct i as [|i], j as [|j]; simpl; try reflexivity.
    rewrite IH. destruct (Nat.eqb i j); [|reflexivity].
    change (S i <? S (List.length t))%nat with (i <? List.length t)%nat.
    reflexivity.
Qed.

Lemma no_rise_upd (ns : list tLNode) (i : nat) (cn cn' : tLNode) :
  nth_error ns i = Some cn ->
  z cn' <= z cn -> varea cn' = varea cn ->
  no_rise ns (upd ns i cn').
Proof.
  intros E Hz Ha. split; [apply upd_length|].
  intros j n n' Hn Hn'. rewrite nth_error_upd in Hn'.
  destruct (Nat.eqb_spec i j) as [->|Hij].
  - rewrite E in Hn. inversion Hn; subst.
    destruct (j <? List.length ns)%nat; inversion Hn'; subst. auto.
  - rewrite Hn in Hn'. inversion Hn'; subst. split; [lra|reflexivity].
Qed.

Lemma getNode_Ok (ns : list tLNode) (i : nat) (cn : tLNode) :
  getNode ns i = Ok cn -> nth_error ns i = Some cn.
Proof.
  unfold getNode, subscript. destruct (nth_error ns i); intros H;
    inversion H; reflexivity.
Qed.

(** A pass that changes [Qsin] only. *)
Lemma onNode_qsin_no_rise (ns ns' : list tLNode) (i : nat) (v : R -> R) :
  onNode ns i (fun cn => setQsin (v (qsin cn)) cn) = Ok ns' -> no_rise ns ns'.
Proof.
  unfold onNode, withNode. intros H. break_ok H.
  eapply no_rise_upd; [apply getNode_Ok; eassumption| |]; simpl; [lra|reflexivity].
Qed.

(** A fold over indices of the list, with the index known to be one. *)
Lemma forM_inv_in {S : Type} (P : S -> Prop) (f : nat -> S -> result S)
  (idxs : list nat) :
  (forall i a a', In i idxs -> P a -> f i a = Ok a' -> P a') ->
  forall s s', P s -> forM idxs f s = Ok s' -> P s'.
Proof.
  induction idxs as [|i rest IH]; simpl; intros Hf s s' Hs H.
  - inversion H; subst; assumption.
  - apply bind_Ok in H. destruct H as (a & Ha & Hk).
    apply (IH (fun j b b' Hj => Hf j b b' (or_intror Hj)) a s').
    + eapply Hf; eauto.
    + exact Hk.
Qed.

Lemma Diffuse_edges_no_rise (ops : tNodeOps) (er : tErosion) (dtmax : R)
  (es : list tEdge) :
  forall ns0 ns ns',
    no_rise ns0 ns ->
    Diffuse_edges ops er dtmax es ns = Ok ns' -> no_rise ns0 ns'.
Proof.
  assert (G : forall n es ns0 ns ns',
             (List.length es <= n)%nat -> no_rise ns0 ns ->
             Diffuse_edges ops er dtmax es ns = Ok ns' -> no_rise ns0 ns').
  { induction n as [|n IH]; intros es' ns0 ns ns' Hl H0 H.
    - destruct es'; simpl in *; [|lia]. inversion H; subst; assumption.
    - destruct es' as [|ce rest]; simpl in H.
      + inversion H; subst; assumption.
      + apply bind_Ok in H. destruct H as (ns1 & H1 & H).
        apply bind_Ok in H. destruct H as (ns2 & H2 & H).
        assert (R2 : no_rise ns0 ns2).
        { eapply no_rise_trans; [eassumption|].
          eapply no_rise_trans.
          - apply (onNode_qsin_no_rise ns ns1 (origin ce)
                     (fun x => x + - (kd er * CalcSlope ops ce ns
                                      * vedglen ce * dtmax))).
            exact H1.
          - apply (onNode_qsin_no_rise ns1 ns2 (destination ce)
                     (fun x => x + kd er * CalcSlope ops ce ns
                                   * vedglen ce * dtmax)).
            exact H2. }
        destruct rest as [|ce' rest'].
        * inversion H; subst; assumption.
        * apply (IH rest' ns0 ns2 ns'); try assumption. simpl in Hl. lia. }
  intros ns0 ns ns'. apply (G (List.length es)). lia.
Qed.

Section NoDeposition.

Variable ops : tNodeOps.
Hypothesis EroDep_dz_z : forall dz n, z (EroDep_dz ops dz n) = z n + dz.
Hypothesis EroDep_dz_varea : forall dz n, varea (EroDep_dz ops dz n) = varea n.

Lemma Diffuse_apply_no_rise (act : list nat) (ns0 ns ns' : list tLNode) :
  (forall i n, In i act -> nth_error ns0 i = Some n -> 0 < varea n) ->
  no_rise ns0 ns ->
  Diffuse_apply ops true act ns = Ok ns' -> no_rise ns0 ns'.
Proof using EroDep_dz_z EroDep_dz_varea.
  intros Hpos H0 H. unfold Diffuse_apply in H. revert H0 H.
  apply (forM_inv_in (fun ns1 => no_rise ns0 ns1)).
  intros i a a' Hi Ha Hf. unfold withNode in Hf.
  apply bind_Ok in Hf. destruct Hf as (cn & Ecn & Hf). simpl in Hf.
  inversion Hf; subst; clear Hf.
  apply getNode_Ok in Ecn.
  eapply no_rise_trans; [exact Ha|].
  assert (Hv : 0 < varea cn).
  { destruct Ha as [La Ha].
    destruct (nth_error ns0 i) as [n0|] eqn:E0.
    - destruct (Ha _ _ _ E0 Ecn) as [_ Hv]. rewrite Hv. eapply Hpos; eassumption.
    - apply nth_error_None in E0.
      assert (nth_error a i <> None) by congruence.
      apply nth_error_Some in H. lia. }
  eapply no_rise_upd; [exact Ecn| |].
  - rewrite EroDep_dz_z. unfold Rgtb.
    destruct (Rltb_spec 0.0 (qsin cn)) as [Hq|Hq]; simpl.
    + unfold Rdiv. lra.
    + assert (qsin cn / varea cn <= 0).
      { unfold Rdiv. pose proof (Rinv_0_lt_compat _ Hv). nra. }
      lra.
  - rewrite EroDep_dz_varea.
    destruct (qsin cn >? 0.0); reflexivity.
Qed.

Lemma Diffuse_body_no_rise (er : tErosion) (rt dtmax dt : R) (m : tMesh)
  (ns0 : list tLNode) (st' : R * tMesh) :
  (forall i n, In i (active m) -> nth_error ns0 i = Some n -> 0 < varea n) ->
  no_rise ns0 (nodes m) ->
  Diffuse_body ops er true rt (dtmax, m) = Ok (dt, st') ->
  no_rise ns0 (nodes (snd st')) /\ active (snd st') = active m.
Proof using EroDep_dz_z EroDep_dz_varea.
  intros Hpos H0 H. unfold Diffuse_body in H. cbv zeta in H.
  apply bind_Ok in H. destruct H as (ns1 & H1 & H).
  apply bind_Ok in H. destruct H as (ns2 & H2 & H).
  apply bind_Ok in H. destruct H as (ns3 & H3 & H).
  inversion H; subst. simpl. split; [|reflexivity].
  eapply Diffuse_apply_no_rise; [exact Hpos| |exact H3].
  eapply Diffuse_edges_no_rise; [|exact H2].
  revert H0 H1. apply (forM_inv (fun ns => no_rise ns0 ns)).
  intros i a a' Ha Hf. eapply no_rise_trans; [exact Ha|].
  apply (onNode_qsin_no_rise a a' i (fun _ => 0)). exact Hf.
Qed.

Lemma Diffuse_loop_no_rise (er : tErosion) (ns0 : list tLNode)
  (act : list nat) (fuel : nat) :
  (forall i n, In i act -> nth_error ns0 i = Some n -> 0 < varea n) ->
  forall rt st st' steps,
    no_rise ns0 (nodes (snd st)) -> active (snd st) = act ->
    do_while fuel (Diffuse_body ops er true) 0.0 rt st = Some (Ok (st', steps)) ->
    no_rise ns0 (nodes (snd st')).
Proof using EroDep_dz_z EroDep_dz_varea.
  intros Hpos. induction fuel as [|fuel IH]; intros rt st st' steps H0 Ha H;
    [discriminate|]. simpl in H.
  destruct (Diffuse_body ops er true rt st) as [[dt s1]| |] eqn:Eb;
    try discriminate.
  destruct st as [dtmax m]. simpl in H0, Ha.
  assert (Hp : forall i n, In i (active m) -> nth_error ns0 i = Some n ->
                           0 < varea n) by (rewrite Ha; exact Hpos).
  destruct (Diffuse_body_no_rise er rt dtmax dt m ns0 s1 Hp H0 Eb) as [R1 A1].
  destruct (rt - dt >? 0.0).
  - destruct (do_while fuel _ 0.0 (rt - dt) s1) as [[[s2 st2]| |]|] eqn:Er;
      try discriminate.
    inversion H; subst. eapply IH; [exact R1| |exact Er]. congruence.
  - inversion H; subst. exact R1.
Qed.

End NoDeposition.

(** C8.  Diffuse with [noDepoFlag] set, for an [EroDep( dz )] that changes
    the elevation by [dz] and keeps the Voronoi area, on a mesh whose active
    nodes have positive area, and for every way [CalcSlope] may evaluate the
    edges: a node's positive [Qsin] is replaced by zero before
    [Qsin/VArea] is applied, so that in each pass of the loop, and over the
    whole call, no node ends higher than it started. *)
Theorem C8_Diffuse_noDepo_never_raises
  (ops : tNodeOps) (er : tErosion) (m : tMesh) :
  (forall dz n, z (EroDep_dz ops dz n) = z n + dz) ->
  (forall dz n, varea (EroDep_dz ops dz n) = varea n) ->
  (forall i n, In i (active m) -> nth_error (nodes m) i = Some n ->
               0 < varea n) ->
  (forall act ns ns' i n n',
     (forall k cn, In k act -> nth_error ns k = Some cn -> 0 < varea cn) ->
     Diffuse_apply ops true act ns = Ok ns' ->
     nth_error ns i = Some n -> nth_error ns' i = Some n' -> z n' <= z n) /\
  (forall rt dtmax dt st' i n n',
     Diffuse_body ops er true rt (dtmax, m) = Ok (dt, st') ->
     nth_error (nodes m) i = Some n ->
     nth_error (nodes (snd st')) i = Some n' -> z n' <= z n) /\
  (forall fuel rt m' steps i n n',
     Diffuse fuel ops er rt true m = Some (Ok (m', steps)) ->
     nth_error (nodes m) i = Some n -> nth_error (nodes m') i = Some n' ->
     z n' <= z n).
Proof.
  intros Hz Hv Hpos. split; [|split].
  - intros act ns ns' i n n' Hp H Hn Hn'.
    destruct (Diffuse_apply_no_rise ops Hz Hv act ns ns ns' Hp
                (no_rise_refl ns) H) as [_ Hr].
    apply (Hr i n n' Hn Hn').
  - intros rt dtmax dt st' i n n' H Hn Hn'.
    destruct (Diffuse_body_no_rise ops Hz Hv er rt dtmax dt m (nodes m) st'
                Hpos (no_rise_refl _) H) as [[_ Hr] _].
    apply (Hr i n n' Hn Hn').
  - intros fuel rt m' steps i n n' H Hn Hn'. unfold Diffuse, finish in H.
    destruct (do_while fuel _ 0.0 rt _) as [[[s2 st2]| |]|] eqn:Er;
      try discriminate.
    inversion H; subst.
    destruct (Diffuse_loop_no_rise ops Hz Hv er (nodes m) (active m) fuel Hpos
                rt (Diffuse_dtmax er (edges m) rt, m) s2 steps
                (no_rise_refl (nodes m)) eq_refl Er) as [_ Hr].
    apply (Hr i n n' Hn Hn').
Qed.

Lemma C8_witness :
  exists ns',
    Diffuse_apply ops0 true [0%nat] [setQsin 5 node0; outlet0] = Ok ns' /\
    exists n', nth_error ns' 0 = Some n' /\ z n' <= z (setQsin 5 node0).
Proof.
  assert (E : Diffuse_apply ops0 true [0%nat] [setQsin 5 node0; outlet0]
              = Ok [EroDep_dz0 (0.0 / 1) (setQsin 0.0 (setQsin 5 node0));
                    outlet0]).
  { unfold Diffuse_apply, withNode. simpl. rdecide. reflexivity. }
  eexists. split; [exact E|]. eexists. split; [reflexivity|].
  refine (proj1 (C8_Diffuse_noDepo_never_raises ops0 erosion0
                   (mesh_of (setQsin 5 node0)) _ _ _)
            [0%nat] [setQsin 5 node0; outlet0] _ 0%nat _ _ _ E eq_refl eq_refl).
  - intros dz n. reflexivity.
  - intros dz n. reflexivity.
  - intros i n [<-|[]] Hn. inversion Hn; subst. simpl. lra.
  - intros k cn [<-|[]] Hn. inversion Hn; subst. simpl. lra.
Defined.

(** ** The regime of a node in DetachErode (C1) *)

(** The elevations are the same. *)
Definition same_z (ns ns' : list tLNode) : Prop :=
  List.length ns' = List.length ns /\
  forall i n n',
    nth_error ns i = Some n -> nth_error ns' i = Some n' -> z n' = z n.

Lemma same_z_refl (ns : list tLNode) : same_z ns ns.
Proof.
  split; [reflexivity|]. intros i n n' H H'. congruence.
Qed.

Lemma same_z_trans (a b c : list tLNode) :
  same_z a b -> same_z b c -> same_z a c.
Proof.
  intros [L1 H1] [L2 H2]. split; [congruence|].
  intros i n n' Ha Hc.
  destruct (nth_error b i) as [nb|] eqn:Eb.
  - rewrite (H2 _ _ _ Eb Hc). eauto.
  - apply nth_error_None in Eb.
    assert (nth_error a i <> None) by congruence.
    apply nth_error_Some in H. lia.
Qed.

Lemma same_z_upd (ns : list tLNode) (i : nat) (cn cn' : tLNode) :
  nth_error ns i = Some cn -> z cn' = z cn -> same_z ns (upd ns i cn').
Proof.
  intros E Hz. split; [apply upd_length|].
  intros j n n' Hn Hn'. rewrite nth_error_upd in Hn'.
  destruct (Nat.eqb_spec i j) as [->|Hij].
  - rewrite E in Hn. inversion Hn; subst.
    destruct (j <? List.length ns)%nat; inversion Hn'; subst. assumption.
  - congruence.
Qed.

Lemma addQsin_i_z (j : nat) (v : R) (n n' : tLNode) :
  addQsin_i j v n = Ok n' -> z n' = z n.
Proof.
  unfold addQsin_i. intros H. break_ok H. reflexivity.
Qed.

Lemma forward_influx_same_z (ns ns' : list tLNode) (i : nat) :
  forward_influx ns i = Ok ns' -> same_z ns ns'.
Proof.
  unfold forward_influx. intros H.
  apply bind_Ok in H. destruct H as (cn & _ & H).
  revert H. apply (forM_inv (fun a => same_z ns a)); [|apply same_z_refl].
  intros j a a' Ha Hf. eapply same_z_trans; [exact Ha|].
  apply bind_Ok in Hf. destruct Hf as (cn1 & _ & Hf).
  apply bind_Ok in Hf. destruct Hf as (qi & _ & Hf).
  unfold withNode in Hf.
  apply bind_Ok in Hf. destruct Hf as (dn & Edn & Hf).
  apply bind_Ok in Hf. destruct Hf as (dn' & Eadd & Hf).
  inversion Hf; subst.
  eapply same_z_upd; [apply getNode_Ok; exact Edn|].
  eapply addQsin_i_z; exact Eadd.
Qed.

Lemma substep_dz_detach (cn : tLNode) (dtmax : R) :
  - drdt cn < (qs cn - qsin cn) / varea cn ->
  substep_dz cn dtmax = (drdt cn * dtmax, 0%nat).
Proof. intros H. unfold substep_dz. now rewrite Rltb_true. Qed.

Lemma substep_dz_trans (cn : tLNode) (dtmax : R) :
  (qs cn - qsin cn) / varea cn <= - drdt cn ->
  substep_dz cn dtmax = (- ((qs cn - qsin cn) / varea cn) * dtmax, 1%nat).
Proof. intros H. unfold substep_dz. now rewrite Rltb_false. Qed.

(** In the rate pass, the rate of the node is minus its detachment capacity
    or minus its excess capacity, whichever erodes less. *)
Lemma DetachErode_rate_node_inv (lfuel : nat) (c : tConsts) (er : tErosion)
  (i : nat) (ns ns' : list tLNode) :
  DetachErode_rate_node lfuel c er i ns = Ok ns' ->
  exists cn k depck qs cn1 d cn2 cnf,
    getNode ns i = Ok cn /\
    capacity_loop lfuel c (sedTrans er) cn 0 0 0 = Ok (k, depck, qs, cn1) /\
    tBedErodePwrLaw.DetachCapacity_lyr (bedErode er) cn1
      (if depck >? chandepth cn1 then k - 1 else k)%nat = Ok (d, cn2) /\
    drdt cnf = - d /\
    (d < (qs - qsin cn2) / varea cn2 -> dzdt cnf = - d) /\
    ((qs - qsin cn2) / varea cn2 <= d ->
     dzdt cnf = - ((qs - qsin cn2) / varea cn2)) /\
    onNode (upd ns i cnf) (downstrm cnf)
      (addQsin (qsin cnf - dzdt cnf * varea cnf)) = Ok ns'.
Proof.
  unfold DetachErode_rate_node. intros H.
  apply bind_Ok in H. destruct H as (cn & Ecn & H).
  apply bind_Ok in H. destruct H as (u & _ & H).
  apply bind_Ok in H. destruct H as ([[[k depck] qs] cn1] & Ecap & H).
  apply bind_Ok in H. destruct H as ([d cn2] & Edet & H).
  cbv zeta in H. simpl in H.
  exists cn, k, depck, qs, cn1, d, cn2.
  eexists. split; [exact Ecn|]. split; [exact Ecap|]. split.
  { destruct (depck >? chandepth cn1); exact Edet. }
  split; [|split; [|split; [|exact H]]]; unfold Rgtb;
    destruct (Rltb_spec ((qs - qsin cn2) / varea cn2) (- - d)) as [Hc|Hc];
    simpl; try reflexivity; intros; lra.
Qed.

(** A detachment-limited node whose depth for the sub-step is within 1e-9 of
    zero is left alone: only the influx of its downstream neighbour moves. *)
Lemma DetachErode_apply_node_skip (lfuel : nat) (ops : tNodeOps)
  (dtmax timegb : R) (i : nat) (ns ns' : list tLNode) (erolist ero' : list R)
  (cn : tLNode) :
  nth_error ns i = Some cn ->
  - drdt cn < (qs cn - qsin cn) / varea cn ->
  - 0.000000001 <= drdt cn * dtmax <= 0 ->
  DetachErode_apply_node lfuel ops dtmax timegb i (ns, erolist)
  = Ok (ns', ero') ->
  forward_influx ns i = Ok ns' /\ ero' = erolist /\ same_z ns ns'.
Proof.
  intros Hn Hlim Hdz H. unfold DetachErode_apply_node in H.
  assert (Eg : getNode ns i = Ok cn).
  { unfold getNode, subscript. now rewrite Hn. }
  rewrite Eg in H. simpl in H.
  rewrite (substep_dz_detach cn dtmax Hlim) in H.
  apply bind_Ok in H. destruct H as (ns1 & Ef & H).
  assert (Hs := forward_influx_same_z _ _ _ Ef).
  destruct (Rltb_spec (drdt cn * dtmax) 0) as [Hneg|Hz].
  - simpl in H.
    assert (E : detach_loop lfuel ops dtmax timegb i ns1 erolist 0 0
                  (drdt cn * dtmax)
                = (cn' <- getNode ns1 i ;; Ok (ns1, erolist))).
    { destruct lfuel; simpl; rewrite (Rltb_false (drdt cn * dtmax)) by lra;
        reflexivity. }
    rewrite E in H. apply bind_Ok in H. destruct H as (cn' & _ & H).
    inversion H; subst. auto.
  - unfold Rgtb in H. rewrite (Rltb_false 0 (drdt cn * dtmax)) in H by lra.
    inversion H; subst. auto.
Qed.

(** C1.  In DetachErode, with the excess capacity of a node taken as its
    transport capacity [Qs] minus its influx [Qsin], over its Voronoi area.
    In the pass that applies the sub-step: if the detachment capacity
    [-DrDt] is strictly less than the excess, the node is detachment-limited
    (flag 0) and the depth it is to change by is [DrDt*dtmax]; otherwise it
    is transport-limited (flag 1) and the depth is minus the excess times
    [dtmax].  That depth is then handed to the layer stack, and a
    detachment-limited depth between -1e-9 and 0 is not applied at all: no
    elevation changes.  In the pass that estimates the rates: [DrDt] is minus
    the detachment capacity [d] of the layer at the channel depth, and
    [DzDt] is [-d] when [d] is less than the excess of the accumulated
    capacity [qs] over [Qsin], per area, and minus that excess otherwise. *)
Theorem C1_DetachErode_regime (cn : tLNode) (dtmax : R) :
  let excap := (qs cn - qsin cn) / varea cn in
  (- drdt cn < excap -> substep_dz cn dtmax = (drdt cn * dtmax, 0%nat)) /\
  (excap <= - drdt cn -> substep_dz cn dtmax = (- excap * dtmax, 1%nat)) /\
  (forall lfuel ops timegb i ns erolist ns' ero',
     nth_error ns i = Some cn ->
     - drdt cn < excap ->
     - 0.000000001 <= drdt cn * dtmax <= 0 ->
     DetachErode_apply_node lfuel ops dtmax timegb i (ns, erolist)
     = Ok (ns', ero') ->
     forall j n n',
       nth_error ns j = Some n -> nth_error ns' j = Some n' -> z n' = z n) /\
  (forall lfuel c er i ns ns',
     DetachErode_rate_node lfuel c er i ns = Ok ns' ->
     exists cn0 k depck qs cn1 d cn2 cnf,
       getNode ns i = Ok cn0 /\
       capacity_loop lfuel c (sedTrans er) cn0 0 0 0 = Ok (k, depck, qs, cn1) /\
       tBedErodePwrLaw.DetachCapacity_lyr (bedErode er) cn1
         (if depck >? chandepth cn1 then k - 1 else k)%nat = Ok (d, cn2) /\
       drdt cnf = - d /\
       (d < (qs - qsin cn2) / varea cn2 -> dzdt cnf = - d) /\
       ((qs - qsin cn2) / varea cn2 <= d ->
        dzdt cnf = - ((qs - qsin cn2) / varea cn2)) /\
       onNode (upd ns i cnf) (downstrm cnf)
         (addQsin (qsin cnf - dzdt cnf * varea cnf)) = Ok ns').
Proof.
  intros excap. split; [|split; [|split]].
  - apply substep_dz_detach.
  - apply substep_dz_trans.
  - intros lfuel ops timegb i ns erolist ns' ero' Hn Hlim Hdz H.
    destruct (DetachErode_apply_node_skip _ _ _ _ _ _ _ _ _ _ Hn Hlim Hdz H)
      as (_ & _ & [_ Hs]).
    exact Hs.
  - intros lfuel c er i ns ns'. apply DetachErode_rate_node_inv.
Qed.

(** The same, as an equation: the pass over such a node only forwards its
    influx. *)
Lemma DetachErode_apply_node_skip_eq (lfuel : nat) (ops : tNodeOps)
  (dtmax timegb : R) (i : nat) (ns ns1 : list tLNode) (erolist : list R)
  (cn cn1 : tLNode) :
  nth_error ns i = Some cn ->
  - drdt cn < (qs cn - qsin cn) / varea cn ->
  - 0.000000001 <= drdt cn * dtmax <= 0 ->
  forward_influx ns i = Ok ns1 ->
  nth_error ns1 i = Some cn1 ->
  DetachErode_apply_node lfuel ops dtmax timegb i (ns, erolist)
  = Ok (ns1, erolist).
Proof.
  intros Hn Hlim Hdz Ef Hn1. unfold DetachErode_apply_node.
  assert (Eg : getNode ns i = Ok cn).
  { unfold getNode, subscript. now rewrite Hn. }
  assert (Eg1 : getNode ns1 i = Ok cn1).
  { unfold getNode, subscript. now rewrite Hn1. }
  rewrite Eg. cbn [bind].
  rewrite (substep_dz_detach cn dtmax Hlim). rewrite Ef. cbn [bind].
  destruct (Rltb_spec (drdt cn * dtmax) 0) as [Hneg|Hz].
  - cbn [Nat.eqb].
    destruct lfuel; cbn [detach_loop];
      rewrite (Rltb_false (drdt cn * dtmax)) by lra;
      rewrite Eg1; reflexivity.
  - unfold Rgtb. rewrite (Rltb_false 0 (drdt cn * dtmax)) by lra.
    reflexivity.
Qed.

(** A node about to be processed by the pass that applies a sub-step: its
    detachment rate is -5e-10, its capacity 1, its influx 0. *)
Definition node_slow : tLNode :=
  mkNode 10 1 0.01 10 100 2 0.03 1 false false 1 1 2 1
         2 (- 5e-10) (- 5e-10) 1 0 [0.3; 0.7] [0; 0] [layer0].

Lemma forward_influx_node_slow :
  forward_influx [node_slow; outlet0] 0 =
  Ok [node_slow;
      setQsin (0 + 0 + 0)
        (setQsinm [0 + 0; 0 + 0]
           (setQsin (0 + 0) (setQsinm [0 + 0; 0] outlet0)))].
Proof. unfold forward_influx, withNode. simpl. reflexivity. Qed.

(** Counterexample to C1 as stated: the node is detachment-limited
    (5e-10 < 1) and the detachment rate times the sub-step is -5e-10, yet the
    pass leaves its elevation at 10: the layer loop runs only while
    [dz < -0.000000001]. *)
Lemma C1_counterexample :
  exists ns' ero' n',
    DetachErode_apply_node 1 ops0 1 1 0 ([node_slow; outlet0], [0; 0])
    = Ok (ns', ero') /\
    nth_error ns' 0 = Some n' /\
    - drdt node_slow < (qs node_slow - qsin node_slow) / varea node_slow /\
    drdt node_slow * 1 = - 5e-10 /\
    z n' - z node_slow = 0 /\
    z n' - z node_slow <> drdt node_slow * 1.
Proof.
  assert (Hlim : - drdt node_slow
                 < (qs node_slow - qsin node_slow) / varea node_slow)
    by (simpl; lra).
  assert (Hdz : - 0.000000001 <= drdt node_slow * 1 <= 0) by (simpl; lra).
  eexists. exists [0; 0], node_slow. split.
  - apply (DetachErode_apply_node_skip_eq 1 ops0 1 1 0 [node_slow; outlet0] _
             [0; 0] node_slow node_slow);
      [reflexivity | exact Hlim | exact Hdz
      | exact forward_influx_node_slow | reflexivity].
  - split; [reflexivity|]. split; [exact Hlim|].
    simpl. repeat split; lra.
Qed.

(* ================================================================== *)
(** * Part III.  Further properties of the code                       *)
(* ================================================================== *)

(** ** tBedErodePwrLaw::SetTimeStep *)

Lemma pow_pos (x y : R) : 0 < x -> 0 < Cmath.pow x y.
Proof.
  intros H. rewrite pow_pos_base by assumption.
  unfold Rpower. apply exp_pos.
Qed.

(** X1.  [SetTimeStep] ends the run on a negative slope and on a negative
    discharge.  Otherwise, for a non-negative [kb] and a flow edge of
    positive length, it returns a positive time step: the sentinel 100000
    when the wave speed [kb*Q^mb*S^(nb-1)] is zero, and else the step whose
    product with the wave speed is 0.2 times the length of the flow edge.
    (A zero slope with [nb < 1] and a zero discharge with [mb < 0], where C
    divides by zero, are left out.) *)
Theorem SetTimeStep_courant (b : tBedErodePwrLaw.t) (len : tLNode -> R)
  (n : tLNode) :
  (slope n < 0 -> exists msg, tBedErodePwrLaw.SetTimeStep b len n = Fatal msg) /\
  (0 <= slope n -> q n < 0 ->
   exists msg, tBedErodePwrLaw.SetTimeStep b len n = Fatal msg) /\
  (0 <= tBedErodePwrLaw.kb b -> 0 < len n ->
   0 <= slope n -> 0 <= q n ->
   0 < slope n \/ 1 <= tBedErodePwrLaw.nb b ->
   0 < q n \/ 0 <= tBedErodePwrLaw.mb b ->
   let v := tBedErodePwrLaw.kb b * Cmath.pow (q n) (tBedErodePwrLaw.mb b)
            * Cmath.pow (slope n) (tBedErodePwrLaw.nb b - 1) in
   exists dt,
     tBedErodePwrLaw.SetTimeStep b len n = Ok dt /\ 0 < dt /\
     (v = 0 -> dt = 100000) /\
     (v <> 0 -> dt * v = 0.2 * len n)).
Proof.
  split; [|split].
  - intros Hs. unfold tBedErodePwrLaw.SetTimeStep.
    replace 0.0 with 0 by lra. rewrite Rltb_true by lra.
    eexists; reflexivity.
  - intros Hs Hq. unfold tBedErodePwrLaw.SetTimeStep.
    replace 0.0 with 0 by lra. rewrite Rltb_false by lra.
    unfold Rgeb. rewrite Rleb_false by lra. eexists; reflexivity.
  - intros Hk Hl Hs Hq _ _ v. unfold tBedErodePwrLaw.SetTimeStep.
    replace 0.0 with 0 by lra.
    rewrite Rltb_false by lra. unfold Rgeb. rewrite Rleb_true by lra.
    cbn [assert bind]. replace 1.0 with 1 by lra. fold v.
    assert (Hv : 0 <= v).
    { unfold v. apply Rmult_le_pos; [apply Rmult_le_pos|];
        [assumption | apply pow_nonneg | apply pow_nonneg]. }
    destruct (Reqb_spec v 0) as [E|E].
    + exists 100000. repeat split; intros; (lra || contradiction).
    + exists (0.2 * len n / v). split; [reflexivity|].
      assert (0 < v) by lra. split; [|split].
      * apply Rdiv_lt_0_compat; lra.
      * intros; contradiction.
      * intros _. field. lra.
Qed.

Definition bedErode_lin : tBedErodePwrLaw.t := tBedErodePwrLaw.mk 2 1 1 1 1 0.

Lemma SetTimeStep_courant_witness :
  exists dt,
    tBedErodePwrLaw.SetTimeStep bedErode_lin (fun _ => 50) node0 = Ok dt /\
    0 < dt.
Proof.
  assert (H1 : 0 <= tBedErodePwrLaw.kb bedErode_lin) by (simpl; lra).
  assert (H2 : 0 < (fun _ : tLNode => 50) node0) by lra.
  assert (H3 : 0 <= slope node0) by (simpl; lra).
  assert (H4 : 0 <= q node0) by (simpl; lra).
  assert (H5 : 0 < slope node0 \/ 1 <= tBedErodePwrLaw.nb bedErode_lin)
    by (left; simpl; lra).
  assert (H6 : 0 < q node0 \/ 0 <= tBedErodePwrLaw.mb bedErode_lin)
    by (left; simpl; lra).
  destruct (proj2 (proj2 (SetTimeStep_courant bedErode_lin (fun _ => 50) node0))
              H1 H2 H3 H4 H5 H6) as (dt & E & Hp & _).
  exists dt. split; assumption.
Defined.

(** ** The unit conversion of the constructors *)

(** [secPerYear^(-m) * x^m] is [(x/secPerYear)^m]: the factor the
    constructors fold into [kt] turns a discharge per year into a discharge
    per second. *)
Lemma kt_conversion (x m : R) :
  0 < x ->
  Cmath.pow secPerYear (- m) * Cmath.pow x m = Cmath.pow (x / secPerYear) m.
Proof.
  intros Hx.
  assert (Hs : 0 < secPerYear) by (unfold secPerYear; lra).
  assert (Hd : 0 < x / secPerYear) by (apply Rdiv_lt_0_compat; assumption).
  rewrite !pow_pos_base by assumption.
  rewrite Rpower_Ropp.
  assert (E : Rpower (x / secPerYear) m * Rpower secPerYear m = Rpower x m).
  { rewrite Rpower_mult_distr by assumption. f_equal. field. lra. }
  rewrite <- E. field.
  assert (0 < Rpower secPerYear m) by (unfold Rpower; apply exp_pos). lra.
Qed.

(** X2.  The constructors of the two power laws read [KT] in SI units: with
    the [kt] they store, the shear stress the detachment law computes, and
    the one the transport law stores on a node, is
    [KT * (Q/W/secPerYear)^m * S^n], the discharge per unit width being
    taken per second, whenever that discharge is positive. *)
Theorem ctor_kt_in_SI_units (infile : tInputFile) (n : tLNode) :
  0 < q n / hydrwidth n ->
  tBedErodePwrLaw.shear (tBedErodePwrLaw.ctor infile) n
  = ReadDouble infile "KT"
    * Cmath.pow (q n / hydrwidth n / secPerYear) (ReadDouble infile "MB")
    * Cmath.pow (slope n) (ReadDouble infile "NB") /\
  (floodstatus n = false -> 0 <= slope n ->
   exists cap n',
     tSedTransPwrLaw.TransCapacity (tSedTransPwrLaw.ctor infile) n
     = Ok (cap, n') /\
     tau n'
     = ReadDouble infile "KT"
       * Cmath.pow (q n / hydrwidth n / secPerYear) (ReadDouble infile "MF")
       * Cmath.pow (slope n) (ReadDouble infile "NF")).
Proof.
  intros Hq. split.
  - unfold tBedErodePwrLaw.shear, tBedErodePwrLaw.ctor.
    cbn [tBedErodePwrLaw.kt tBedErodePwrLaw.mb tBedErodePwrLaw.nb].
    rewrite <- (kt_conversion _ (ReadDouble infile "MB") Hq). ring.
  - intros Hf Hs. unfold tSedTransPwrLaw.TransCapacity.
    rewrite Rltb_false by lra. rewrite Hf. cbn [negb].
    do 2 eexists. split; [reflexivity|].
    cbn [tau setQs setTau]. unfold tSedTransPwrLaw.ctor.
    cbn [tSedTransPwrLaw.kt tSedTransPwrLaw.mf tSedTransPwrLaw.nf].
    rewrite <- (kt_conversion _ (ReadDouble infile "MF") Hq). ring.
Qed.

Lemma ctor_kt_in_SI_units_witness :
  tBedErodePwrLaw.shear (tBedErodePwrLaw.ctor infile0) node0
  = ReadDouble infile0 "KT"
    * Cmath.pow (q node0 / hydrwidth node0 / secPerYear)
        (ReadDouble infile0 "MB")
    * Cmath.pow (slope node0) (ReadDouble infile0 "NB").
Proof.
  assert (H : 0 < q node0 / hydrwidth node0) by (simpl; lra).
  exact (proj1 (ctor_kt_in_SI_units infile0 node0 H)).
Defined.

(** ** What the capacity laws leave alone *)

(** Everything a node holds but the scratch fields the capacity laws write:
    the shear stress [tau], the detachment rate [drdt], and the transport
    capacities [qs] and [qsm]. *)
Definition kept (n : tLNode) :=
  (z n, varea n, slope n, q n, drarea n, hydrwidth n, hydrrough n,
   chandepth n, floodstatus n, boundary n, tauc n, maxregdep n, numg n,
   downstrm n, dzdt n, qsin n, qsinm n, layerlist n).

Lemma kept_layerlist (n n' : tLNode) :
  kept n' = kept n -> layerlist n' = layerlist n.
Proof. unfold kept. intros H. now inversion H. Qed.

Lemma kept_numg (n n' : tLNode) : kept n' = kept n -> numg n' = numg n.
Proof. unfold kept. intros H. now inversion H. Qed.

Lemma kept_chandepth (n n' : tLNode) :
  kept n' = kept n -> chandepth n' = chandepth n.
Proof. unfold kept. intros H. now inversion H. Qed.

Lemma kept_z (n n' : tLNode) : kept n' = kept n -> z n' = z n.
Proof. unfold kept. intros H. now inversion H. Qed.

Lemma setQs_i_kept (i : nat) (v : R) (n n' : tLNode) :
  setQs_i i v n = Ok n' ->
  kept n' = kept n /\ tau n' = tau n /\ drdt n' = drdt n /\ qs n' = qs n /\
  List.length (qsm n') = List.length (qsm n).
Proof.
  unfold setQs_i. intros H. apply bind_Ok in H. destruct H as (x & _ & H).
  inversion H; subst. cbn [qsm setQsm]. rewrite upd_length.
  repeat split; reflexivity.
Qed.

Lemma Rsum_cons (x : R) (l : list R) : Rsum (x :: l) = x + Rsum l.
Proof. reflexivity. Qed.

Lemma Rsum_upd (l : list R) (i : nat) (x y : R) :
  nth_error l i = Some x -> Rsum (upd l i y) = Rsum l - x + y.
Proof.
  revert i. induction l as [|h t IH]; intros [|i] H; simpl in *;
    try discriminate.
  - inversion H; subst. lra.
  - rewrite (IH i H). lra.
Qed.

Lemma addQs_i_kept (i : nat) (v : R) (n n' : tLNode) :
  addQs_i i v n = Ok n' ->
  kept n' = kept n /\ tau n' = tau n /\ drdt n' = drdt n /\
  qs n' = qs n + v /\
  List.length (qsm n') = List.length (qsm n) /\
  Rsum (qsm n') = Rsum (qsm n) + v.
Proof.
  unfold addQs_i, getQsm, subscript. intros H.
  destruct (nth_error (qsm n) i) as [x|] eqn:E; simpl in H; [|discriminate].
  inversion H; subst. cbn [qsm qs setQs setQsm]. rewrite upd_length.
  rewrite (Rsum_upd _ _ x) by assumption.
  repeat split; try reflexivity. lra.
Qed.

Lemma skipn_nth_error {A : Type} (l : list A) (a : nat) (x : A) :
  nth_error l a = Some x -> skipn a l = x :: skipn (S a) l.
Proof.
  revert a. induction l as [|h t IH]; intros [|a] H; simpl in *;
    try discriminate.
  - now inversion H.
  - now apply IH.
Qed.

Lemma getLayerDgrade_nth (n : tLNode) (i j : nat) (l : tLayer) (g : R) :
  nth_error (layerlist n) i = Some l -> nth_error (ldgrade l) j = Some g ->
  getLayerDgrade n i j = Ok g.
Proof.
  intros H Hj. unfold getLayerDgrade, getLayer, subscript. rewrite H.
  cbn [bind]. now rewrite Hj.
Qed.

(** [for(i=0; i<node->getNumg(); i++) node->addQs(i, cap*
    node->getLayerDgrade(lyr,i)/node->getLayerDepth(lyr));] when the layer
    and the node hold the sizes it walks: it returns, and the capacities of
    the sizes grow by [cap] times the share of the layer they make up. *)
Lemma addQs_sizes (cap : R) (lyr : nat) (l : tLayer) :
  forall (k a : nat) (n : tLNode),
    nth_error (layerlist n) lyr = Some l ->
    (a + k <= List.length (ldgrade l))%nat ->
    (a + k <= List.length (qsm n))%nat ->
    exists n',
      forM (seq a k)
        (fun i node =>
           dg <- getLayerDgrade node lyr i ;;
           ld <- getLayerDepth node lyr ;;
           addQs_i i (cap * dg / ld) node) n = Ok n' /\
      kept n' = kept n /\ tau n' = tau n /\ drdt n' = drdt n /\
      List.length (qsm n') = List.length (qsm n) /\
      Rsum (qsm n')
      = Rsum (qsm n) + cap * Rsum (firstn k (skipn a (ldgrade l))) / ldepth l.
Proof.
  induction k as [|k IH]; intros a n Hl Hg Hq.
  - exists n. simpl. repeat split; try reflexivity. unfold Rdiv. ring.
  - destruct (nth_error (ldgrade l) a) as [dg|] eqn:Edg;
      [|apply nth_error_None in Edg; lia].
    destruct (nth_error (qsm n) a) as [x|] eqn:Ex;
      [|apply nth_error_None in Ex; lia].
    cbn [seq forM].
    rewrite (getLayerDgrade_nth n lyr a l dg Hl Edg). cbn [bind].
    rewrite (getLayerDepth_Some n lyr l Hl). cbn [bind].
    destruct (addQs_i a (cap * dg / ldepth l) n) as [n1| |] eqn:E1;
      try (unfold addQs_i, getQsm, subscript in E1; rewrite Ex in E1;
           discriminate).
    destruct (addQs_i_kept _ _ _ _ E1) as (K1 & T1 & D1 & _ & L1 & S1).
    cbn [bind].
    destruct (IH (S a) n1) as (n' & E & K & T & D & L & Sm).
    { rewrite (kept_layerlist _ _ K1). exact Hl. }
    { lia. }
    { rewrite L1. lia. }
    exists n'. split; [exact E|].
    split; [congruence|]. split; [congruence|]. split; [congruence|].
    split; [congruence|].
    rewrite Sm, S1, (skipn_nth_error _ _ _ Edg). cbn [firstn].
    rewrite Rsum_cons. unfold Rdiv. ring.
Qed.

(** ** tSedTransPwrLaw::TransCapacity *)

(** The shear stress and the capacity of the law on a node that is not
    flooded. *)
Definition PwrLaw_tau (p : tSedTransPwrLaw.t) (n : tLNode) : R :=
  tSedTransPwrLaw.kt p
  * Cmath.pow (q n / hydrwidth n) (tSedTransPwrLaw.mf p)
  * Cmath.pow (slope n) (tSedTransPwrLaw.nf p).

Definition PwrLaw_cap (p : tSedTransPwrLaw.t) (n : tLNode) : R :=
  tSedTransPwrLaw.kf p * hydrwidth n
  * Cmath.pow (Rmax 0 (PwrLaw_tau p n - tSedTransPwrLaw.tauc p))
      (tSedTransPwrLaw.pf p).

Lemma PwrLaw_TransCapacity_value (p : tSedTransPwrLaw.t) (n : tLNode) :
  floodstatus n = false -> 0 <= slope n ->
  tSedTransPwrLaw.TransCapacity p n
  = Ok (PwrLaw_cap p n, setQs (PwrLaw_cap p n) (setTau (PwrLaw_tau p n) n)).
Proof.
  intros Hf Hs. unfold tSedTransPwrLaw.TransCapacity.
  rewrite Rltb_false by lra. rewrite Hf. cbn [negb]. cbv zeta.
  cbn [hydrwidth setTau]. rewrite pos_part_max. reflexivity.
Qed.

Lemma PwrLaw_TransCapacity_flooded (p : tSedTransPwrLaw.t) (n : tLNode) :
  floodstatus n = true -> 0 <= slope n ->
  tSedTransPwrLaw.TransCapacity p n = Ok (0, setQs 0 n).
Proof.
  intros Hf Hs. unfold tSedTransPwrLaw.TransCapacity.
  rewrite Rltb_false by lra. rewrite Hf. reflexivity.
Qed.

Lemma PwrLaw_cap_nonneg (p : tSedTransPwrLaw.t) (n : tLNode) :
  0 <= tSedTransPwrLaw.kf p -> 0 <= hydrwidth n -> 0 <= PwrLaw_cap p n.
Proof.
  intros Hk Hw. unfold PwrLaw_cap.
  apply Rmult_le_pos; [apply Rmult_le_pos; assumption | apply pow_nonneg].
Qed.

Lemma PwrLaw_cap_mono (p : tSedTransPwrLaw.t) (n1 n2 : tLNode) :
  0 <= tSedTransPwrLaw.kf p -> 0 <= tSedTransPwrLaw.pf p ->
  0 <= hydrwidth n1 -> hydrwidth n2 = hydrwidth n1 ->
  PwrLaw_tau p n1 <= PwrLaw_tau p n2 ->
  PwrLaw_cap p n1 <= PwrLaw_cap p n2.
Proof.
  intros Hk Hp Hw Ew Ht. unfold PwrLaw_cap. rewrite Ew.
  apply Rmult_le_compat_l; [apply Rmult_le_pos; assumption|].
  apply pow_mono_base; [assumption|]. split.
  - apply Rmax_l.
  - apply Rle_max_compat_l. lra.
Qed.

(** X3.  The power-law transport capacity (whole-node shape) with
    non-negative [kf], [kt], [mf], [nf] and [pf], on a node with a positive
    channel width: the value returned is never negative, and it does not
    decrease when the discharge grows from [x1 >= 0] to [x2] on a node of
    non-negative slope, nor when the slope grows from [x1 >= 0] to [x2] on a
    node of non-negative discharge, the rest of the node being the same
    (flooded or not).  Every power is taken of a base that is not
    negative. *)
Theorem PwrLaw_TransCapacity_monotone
  (p : tSedTransPwrLaw.t) (n : tLNode) (x1 x2 : R) :
  0 <= tSedTransPwrLaw.kf p -> 0 <= tSedTransPwrLaw.kt p ->
  0 <= tSedTransPwrLaw.mf p -> 0 <= tSedTransPwrLaw.nf p ->
  0 <= tSedTransPwrLaw.pf p ->
  0 < hydrwidth n -> 0 <= x1 <= x2 ->
  (0 <= slope n ->
     returns_le (Ok (0, n)) (tSedTransPwrLaw.TransCapacity p (setQ x1 n)) /\
     returns_le (tSedTransPwrLaw.TransCapacity p (setQ x1 n))
                (tSedTransPwrLaw.TransCapacity p (setQ x2 n))) /\
  (0 <= q n ->
     returns_le (Ok (0, n)) (tSedTransPwrLaw.TransCapacity p (setSlope x1 n)) /\
     returns_le (tSedTransPwrLaw.TransCapacity p (setSlope x1 n))
                (tSedTransPwrLaw.TransCapacity p (setSlope x2 n))).
Proof.
  intros Hkf Hkt Hmf Hnf Hpf Hw H12.
  assert (Hw' : 0 <= hydrwidth n) by lra.
  destruct (floodstatus n) eqn:Hf.
  - split; intros Hs; split;
      rewrite !PwrLaw_TransCapacity_flooded
        by (try exact Hf; cbn [slope setQ setSlope]; lra);
      unfold returns_le; simpl; lra.
  - assert (Hq : PwrLaw_tau p (setQ x1 n) <= PwrLaw_tau p (setQ x2 n)).
    { unfold PwrLaw_tau. cbn [q hydrwidth slope setQ].
      assert (Hb : 0 <= x1 / hydrwidth n <= x2 / hydrwidth n).
      { unfold Rdiv. pose proof (Rinv_0_lt_compat _ Hw). split; nra. }
      pose proof (pow_mono_base _ _ (tSedTransPwrLaw.mf p) Hmf Hb).
      pose proof (pow_nonneg (slope n) (tSedTransPwrLaw.nf p)).
      apply Rmult_le_compat_r; [assumption|].
      apply Rmult_le_compat_l; assumption. }
    assert (Hsl : 0 <= q n ->
                  PwrLaw_tau p (setSlope x1 n) <= PwrLaw_tau p (setSlope x2 n)).
    { intros Hq0. unfold PwrLaw_tau. cbn [q hydrwidth slope setSlope].
      assert (Hb : 0 <= q n / hydrwidth n).
      { unfold Rdiv. pose proof (Rinv_0_lt_compat _ Hw). nra. }
      pose proof (pow_mono_base _ _ (tSedTransPwrLaw.nf p) Hnf H12).
      pose proof (pow_mono_base 0 _ (tSedTransPwrLaw.mf p) Hmf
                    (conj (Rle_refl 0) Hb)) as Hm.
      pose proof (pow_nonneg 0 (tSedTransPwrLaw.mf p)).
      apply Rmult_le_compat_l; [|assumption].
      apply Rmult_le_pos; lra. }
    split; intros Hs; split;
      rewrite !PwrLaw_TransCapacity_value
        by (try exact Hf; cbn [slope setQ setSlope]; lra);
      unfold returns_le; cbn [returned];
      try (apply PwrLaw_cap_nonneg; assumption);
      apply PwrLaw_cap_mono; try assumption; try reflexivity;
      apply Hsl; assumption.
Qed.

(** A power-law transport law with [mf = nf = pf = 1]. *)
Definition sedTrans_lin : tSedTransPwrLaw.t := tSedTransPwrLaw.mk 1 2 1 1 1 0.

Lemma PwrLaw_TransCapacity_monotone_witness :
  returns_le (tSedTransPwrLaw.TransCapacity sedTrans_lin (setSlope 1 node0))
             (tSedTransPwrLaw.TransCapacity sedTrans_lin (setSlope 2 node0)).
Proof.
  assert (H1 : 0 <= tSedTransPwrLaw.kf sedTrans_lin) by (simpl; lra).
  assert (H2 : 0 <= tSedTransPwrLaw.kt sedTrans_lin) by (simpl; lra).
  assert (H3 : 0 <= tSedTransPwrLaw.mf sedTrans_lin) by (simpl; lra).
  assert (H4 : 0 <= tSedTransPwrLaw.nf sedTrans_lin) by (simpl; lra).
  assert (H5 : 0 <= tSedTransPwrLaw.pf sedTrans_lin) by (simpl; lra).
  assert (H6 : 0 < hydrwidth node0) by (simpl; lra).
  assert (H7 : 0 <= 1 <= 2) by lra.
  assert (H8 : 0 <= q node0) by (simpl; lra).
  exact (proj2 (proj2 (PwrLaw_TransCapacity_monotone sedTrans_lin node0 1 2
                         H1 H2 H3 H4 H5 H6 H7) H8)).
Defined.

(** X4.  The weighted shape of the power-law transport capacity, on a node
    of non-negative slope whose layer [lyr] and whose capacity array hold
    the [numg] size classes: it returns [weight] times the value the
    whole-node shape returns, stores that as the total capacity and the same
    shear stress, leaves the rest of the node as it was, and adds to the
    capacities of the size classes amounts that sum to the value returned
    times the share of the layer depth the classes make up. *)
Theorem PwrLaw_TransCapacity_weighted
  (p : tSedTransPwrLaw.t) (n : tLNode) (lyr : nat) (weight : R) (l : tLayer) :
  0 <= slope n ->
  nth_error (layerlist n) lyr = Some l ->
  (numg n <= List.length (ldgrade l))%nat ->
  (numg n <= List.length (qsm n))%nat ->
  exists v n1 nw,
    tSedTransPwrLaw.TransCapacity p n = Ok (v, n1) /\
    tSedTransPwrLaw.TransCapacity_w p n lyr weight = Ok (weight * v, nw) /\
    kept nw = kept n /\ tau nw = tau n1 /\ qs nw = weight * v /\
    Rsum (qsm nw)
    = Rsum (qsm n)
      + weight * v * Rsum (firstn (numg n) (ldgrade l)) / ldepth l.
Proof.
  intros Hs Hl Hg Hq. destruct (floodstatus n) eqn:Hf.
  - destruct (addQs_sizes 0 lyr l (numg n) 0 n Hl Hg Hq)
      as (n' & E & K & T & D & L & Sm).
    exists 0, (setQs 0 n), (setQs 0 n').
    split; [now apply PwrLaw_TransCapacity_flooded|]. split.
    + unfold tSedTransPwrLaw.TransCapacity_w.
      rewrite Rltb_false by lra. rewrite Hf. cbn [negb].
      rewrite E. cbn [bind]. replace (weight * 0) with 0 by ring.
      reflexivity.
    + split; [exact K|]. split; [exact T|].
      split; [cbn [qs setQs]; ring|].
      cbn [qsm setQs]. rewrite Sm. cbn [skipn]. unfold Rdiv. ring.
  - set (n0 := setTau (PwrLaw_tau p n) n).
    destruct (addQs_sizes (weight * PwrLaw_cap p n) lyr l (numg n) 0 n0 Hl Hg Hq)
      as (n' & E & K & T & D & L & Sm).
    exists (PwrLaw_cap p n), (setQs (PwrLaw_cap p n) n0),
      (setQs (weight * PwrLaw_cap p n) n').
    split; [now apply PwrLaw_TransCapacity_value|]. split.
    + unfold tSedTransPwrLaw.TransCapacity_w.
      rewrite Rltb_false by lra. rewrite Hf. cbn [negb]. cbv zeta.
      rewrite pos_part_max. cbn [hydrwidth setTau numg].
      fold (PwrLaw_tau p n).
      replace (weight * tSedTransPwrLaw.kf p * hydrwidth n
               * Cmath.pow (Rmax 0 (PwrLaw_tau p n - tSedTransPwrLaw.tauc p))
                   (tSedTransPwrLaw.pf p))
        with (weight * PwrLaw_cap p n) by (unfold PwrLaw_cap; ring).
      fold n0. rewrite E. reflexivity.
    + split; [exact K|]. split; [exact T|].
      split; [reflexivity|].
      cbn [qsm setQs]. rewrite Sm. subst n0. cbn [skipn qsm setTau].
      unfold Rdiv. ring.
Qed.

Lemma PwrLaw_TransCapacity_weighted_witness :
  exists v n1 nw,
    tSedTransPwrLaw.TransCapacity sedTrans_lin node0 = Ok (v, n1) /\
    tSedTransPwrLaw.TransCapacity_w sedTrans_lin node0 0 0.5
    = Ok (0.5 * v, nw).
Proof.
  assert (H1 : 0 <= slope node0) by (simpl; lra).
  assert (H2 : nth_error (layerlist node0) 0 = Some layer0) by reflexivity.
  assert (H3 : (numg node0 <= List.length (ldgrade layer0))%nat)
    by (simpl; lia).
  assert (H4 : (numg node0 <= List.length (qsm node0))%nat) by (simpl; lia).
  destruct (PwrLaw_TransCapacity_weighted sedTrans_lin node0 0 0.5 layer0
              H1 H2 H3 H4) as (v & n1 & nw & E1 & E2 & _).
  exists v, n1, nw. split; assumption.
Defined.

(** ** The capacity laws write scratch fields only *)

(** [n'] is [n] but for the shear stress and the transport capacities. *)
Definition capacity_written (n n' : tLNode) : Prop :=
  kept n' = kept n /\ drdt n' = drdt n /\
  List.length (qsm n') = List.length (qsm n).

Lemma capacity_written_refl (n : tLNode) : capacity_written n n.
Proof. repeat split. Qed.

Lemma capacity_written_trans (a b c : tLNode) :
  capacity_written a b -> capacity_written b c -> capacity_written a c.
Proof.
  intros (K1 & D1 & L1) (K2 & D2 & L2). repeat split; congruence.
Qed.

Lemma capacity_written_setTau (v : R) (n : tLNode) :
  capacity_written n (setTau v n).
Proof. repeat split. Qed.

Lemma capacity_written_setQs (v : R) (n : tLNode) :
  capacity_written n (setQs v n).
Proof. repeat split. Qed.

Lemma capacity_written_setQs_i (i : nat) (v : R) (n n' : tLNode) :
  setQs_i i v n = Ok n' -> capacity_written n n'.
Proof.
  intros H. destruct (setQs_i_kept _ _ _ _ H) as (K & _ & D & _ & L).
  repeat split; assumption.
Qed.

Lemma capacity_written_addQs_i (i : nat) (v : R) (n n' : tLNode) :
  addQs_i i v n = Ok n' -> capacity_written n n'.
Proof.
  intros H. destruct (addQs_i_kept _ _ _ _ H) as (K & _ & D & _ & L & _).
  repeat split; assumption.
Qed.

Lemma PwrLaw_TransCapacity_written (p : tSedTransPwrLaw.t) (n n' : tLNode)
  (v : R) :
  tSedTransPwrLaw.TransCapacity p n = Ok (v, n') -> capacity_written n n'.
Proof.
  unfold tSedTransPwrLaw.TransCapacity. intros H.
  destruct (slope n <? 0); [discriminate|].
  destruct (floodstatus n); cbn [negb] in H; inversion H; subst;
    repeat split.
Qed.

Lemma PwrLaw_TransCapacity_w_written (p : tSedTransPwrLaw.t) (n n' : tLNode)
  (lyr : nat) (w v : R) :
  tSedTransPwrLaw.TransCapacity_w p n lyr w = Ok (v, n') ->
  capacity_written n n'.
Proof.
  unfold tSedTransPwrLaw.TransCapacity_w. intros H.
  destruct (slope n <? 0); [discriminate|].
  match type of H with
  | (let '(_, _) := ?x in _) = _ => destruct x as [cap n0] eqn:E0
  end.
  assert (H0 : capacity_written n n0).
  { destruct (floodstatus n); cbn [negb] in E0; inversion E0; subst;
      repeat split. }
  apply bind_Ok in H. destruct H as (n1 & Hf & H). inversion H; subst.
  apply (capacity_written_trans n n0); [exact H0|].
  apply (capacity_written_trans n0 n1); [|apply capacity_written_setQs].
  revert Hf.
  apply (forM_inv (capacity_written n0)); [|apply capacity_written_refl].
  intros i a a' Ha Hb.
  apply bind_Ok in Hb. destruct Hb as (dg & _ & Hb).
  apply bind_Ok in Hb. destruct Hb as (ld & _ & Hb).
  exact (capacity_written_trans _ _ _ Ha
           (capacity_written_addQs_i _ _ _ _ Hb)).
Qed.

Lemma PwrLawMulti_TransCapacity_w_written (p : tSedTransPwrLawMulti.t)
  (n n' : tLNode) (lyr : nat) (w v : R) :
  tSedTransPwrLawMulti.TransCapacity_w p n lyr w = Ok (v, n') ->
  capacity_written n n'.
Proof.
  unfold tSedTransPwrLawMulti.TransCapacity_w. intros H.
  destruct (slope n <? 0); [discriminate|].
  apply bind_Ok in H. destruct H as ([frac d50] & _ & H). cbv zeta in H.
  apply bind_Ok in H. destruct H as ([tot n1] & Hf & H).
  inversion H; subst.
  apply (capacity_written_trans n n1); [|apply capacity_written_setQs].
  change n1 with (snd (v, n1)). revert Hf.
  apply (forM_inv (fun st : R * tLNode => capacity_written n (snd st)));
    [|apply capacity_written_setTau].
  intros i [t a] [t' a'] Ha Hb. cbn [snd] in *.
  apply bind_Ok in Hb. destruct Hb as (tc & _ & Hb).
  apply bind_Ok in Hb. destruct Hb as (d & _ & Hb).
  apply bind_Ok in Hb. destruct Hb as (f & _ & Hb).
  cbv zeta in Hb.
  apply bind_Ok in Hb. destruct Hb as (a1 & Ha1 & Hb).
  inversion Hb; subst.
  exact (capacity_written_trans _ _ _ Ha
           (capacity_written_addQs_i _ _ _ _ Ha1)).
Qed.

(** Follow a chain of writes of capacities from [n] to the node of the
    goal. *)
Ltac written_chain :=
  repeat match goal with
    | H : setQs_i _ _ _ = Ok _ |- _ => apply capacity_written_setQs_i in H
    | H : addQs_i _ _ _ = Ok _ |- _ => apply capacity_written_addQs_i in H
    end;
  repeat match goal with
    | |- capacity_written _ (setQs _ ?b) =>
        apply (fun a H => capacity_written_trans a b _ H
                            (capacity_written_setQs _ b))
    end;
  repeat match goal with
    | |- capacity_written ?a ?a => apply capacity_written_refl
    | H : capacity_written ?a ?c |- capacity_written ?a ?c => exact H
    | H : capacity_written ?b ?c |- capacity_written ?a ?c =>
        apply (capacity_written_trans a b c); [clear H|exact H]
    end.

Lemma Wilcock_TransCapacity_written (c : tConsts) (w : tSedTransWilcock.t)
  (n n' : tLNode) (v : R) :
  tSedTransWilcock.TransCapacity c w n = Ok (v, n') -> capacity_written n n'.
Proof.
  unfold tSedTransWilcock.TransCapacity. intros H.
  apply bind_Ok in H. destruct H as (dg & _ & H).
  apply bind_Ok in H. destruct H as (ld & _ & H). cbv zeta in H.
  destruct (slope n <? 0).
  - apply bind_Ok in H. destruct H as (a1 & E1 & H).
    apply bind_Ok in H. destruct H as (a2 & E2 & H).
    inversion H; subst. written_chain.
  - apply bind_Ok in H. destruct H as (a1 & E1 & H).
    apply bind_Ok in H. destruct H as (a2 & E2 & H).
    apply bind_Ok in H. destruct H as (q0 & _ & H).
    apply bind_Ok in H. destruct H as (q1 & _ & H).
    inversion H; subst.
    destruct (_ >? _) in E1; destruct (_ >? _) in E2; written_chain.
Qed.

(** The two sand/gravel laws share the shape of their weighted call. *)
Ltac weighted_written H :=
  let ld := fresh "ld" in let u := fresh "u" in let dg := fresh "dg" in
  apply bind_Ok in H; destruct H as (ld & _ & H);
  apply bind_Ok in H; destruct H as (u & _ & H);
  apply bind_Ok in H; destruct H as (dg & _ & H); cbv zeta in H;
  match type of H with
  | (if ?b then _ else _) = _ => destruct b
  end;
  [ let a1 := fresh "a" in let a2 := fresh "a" in
    let E1 := fresh "E" in let E2 := fresh "E" in
    apply bind_Ok in H; destruct H as (a1 & E1 & H);
    apply bind_Ok in H; destruct H as (a2 & E2 & H);
    inversion H; subst;
    match type of E2 with
    | (if ?b then _ else _) = _ =>
        destruct b; [|inversion E2; subst]
    end; written_chain
  | let qss := fresh "qss" in let qsg := fresh "qsg" in
    let a1 := fresh "a" in let a2 := fresh "a" in
    let E1 := fresh "E" in let E2 := fresh "E" in
    apply bind_Ok in H; destruct H as ([qss a1] & E1 & H);
    apply bind_Ok in H; destruct H as ([qsg a2] & E2 & H);
    inversion H; subst;
    match type of E1 with
    | (if ?b then _ else _) = _ =>
        destruct b;
        [ let x := fresh "x" in let Ex := fresh "E" in
          apply bind_Ok in E1; destruct E1 as (x & Ex & E1);
          inversion E1; subst
        | inversion E1; subst ]
    end;
    match type of E2 with
    | (if ?b then _ else _) = _ =>
        destruct b;
        [ match type of E2 with
          | (if ?b' then _ else _) = _ =>
              destruct b';
              [ let y := fresh "y" in let Ey := fresh "E" in
                apply bind_Ok in E2; destruct E2 as (y & Ey & E2);
                inversion E2; subst
              | inversion E2; subst ]
          end
        | inversion E2; subst ]
    end; written_chain ].

Lemma Wilcock_TransCapacity_w_written (c : tConsts) (w : tSedTransWilcock.t)
  (n n' : tLNode) (lyr : nat) (weight v : R) :
  tSedTransWilcock.TransCapacity_w c w n lyr weight = Ok (v, n') ->
  capacity_written n n'.
Proof.
  unfold tSedTransWilcock.TransCapacity_w. intros H. weighted_written H.
Qed.

Lemma MineTailings_TransCapacity_written (c : tConsts)
  (w : tSedTransMineTailings.t) (n n' : tLNode) (v : R) :
  tSedTransMineTailings.TransCapacity c w n = Ok (v, n') ->
  capacity_written n n'.
Proof.
  unfold tSedTransMineTailings.TransCapacity. intros H.
  apply bind_Ok in H. destruct H as (dg & _ & H).
  apply bind_Ok in H. destruct H as (ld & _ & H). cbv zeta in H.
  destruct (slope n <? 0).
  - apply bind_Ok in H. destruct H as (a1 & E1 & H).
    apply bind_Ok in H. destruct H as (a2 & E2 & H).
    inversion H; subst. written_chain.
  - apply bind_Ok in H. destruct H as (a1 & E1 & H).
    apply bind_Ok in H. destruct H as (a2 & E2 & H).
    apply bind_Ok in H. destruct H as (q0 & _ & H).
    apply bind_Ok in H. destruct H as (q1 & _ & H).
    inversion H; subst.
    destruct (_ >? _) in E1; destruct (_ >? _) in E2; written_chain.
Qed.

Lemma MineTailings_TransCapacity_w_written (c : tConsts)
  (w : tSedTransMineTailings.t) (n n' : tLNode) (lyr : nat) (weight v : R) :
  tSedTransMineTailings.TransCapacity_w c w n lyr weight = Ok (v, n') ->
  capacity_written n n'.
Proof.
  unfold tSedTransMineTailings.TransCapacity_w. intros H. weighted_written H.
Qed.

Lemma TransCapacity_written (c : tConsts) (s : tSedTrans) (n n' : tLNode)
  (v : R) :
  TransCapacity c s n = Ok (v, n') -> capacity_written n n'.
Proof.
  destruct s as [p|p|p|p]; cbn [TransCapacity]; intros H.
  - eapply PwrLaw_TransCapacity_written; eassumption.
  - unfold tSedTransPwrLawMulti.TransCapacity in H. inversion H; subst.
    apply capacity_written_refl.
  - eapply Wilcock_TransCapacity_written; eassumption.
  - eapply MineTailings_TransCapacity_written; eassumption.
Qed.

Lemma TransCapacity_w_written (c : tConsts) (s : tSedTrans) (n n' : tLNode)
  (lyr : nat) (w v : R) :
  TransCapacity_w c s n lyr w = Ok (v, n') -> capacity_written n n'.
Proof.
  destruct s as [p|p|p|p]; cbn [TransCapacity_w]; intros H.
  - eapply PwrLaw_TransCapacity_w_written; eassumption.
  - eapply PwrLawMulti_TransCapacity_w_written; eassumption.
  - eapply Wilcock_TransCapacity_w_written; eassumption.
  - eapply MineTailings_TransCapacity_w_written; eassumption.
Qed.

Lemma DetachCapacity_written (b : tBedErodePwrLaw.t) (n n' : tLNode) (v : R) :
  tBedErodePwrLaw.DetachCapacity b n = Ok (v, n') ->
  kept n' = kept n /\ qs n' = qs n /\ qsm n' = qsm n.
Proof.
  unfold tBedErodePwrLaw.DetachCapacity. intros H.
  apply bind_Ok in H. destruct H as (u1 & _ & H).
  apply bind_Ok in H. destruct H as (u2 & _ & H).
  destruct (floodstatus n); [inversion H; subst; repeat split|].
  cbv zeta in H. destruct (slope n <? 0); [discriminate|].
  apply bind_Ok in H. destruct H as (u3 & _ & H).
  apply bind_Ok in H. destruct H as (u4 & _ & H).
  apply bind_Ok in H. destruct H as (e & _ & H).
  inversion H; subst. repeat split.
Qed.

Lemma DetachCapacity_dt_written (b : tBedErodePwrLaw.t) (n n' : tLNode)
  (dt v : R) :
  tBedErodePwrLaw.DetachCapacity_dt b n dt = Ok (v, n') ->
  kept n' = kept n /\ qs n' = qs n /\ qsm n' = qsm n.
Proof.
  unfold tBedErodePwrLaw.DetachCapacity_dt. intros H. cbv zeta in H.
  destruct (floodstatus n); [inversion H; subst; repeat split|].
  destruct (slope n <? 0); [discriminate|].
  apply bind_Ok in H. destruct H as (e & _ & H).
  inversion H; subst. repeat split.
Qed.

Lemma DetachCapacity_lyr_written (b : tBedErodePwrLaw.t) (n n' : tLNode)
  (i : nat) (v : R) :
  tBedErodePwrLaw.DetachCapacity_lyr b n i = Ok (v, n') ->
  kept n' = kept n /\ qs n' = qs n /\ qsm n' = qsm n.
Proof.
  unfold tBedErodePwrLaw.DetachCapacity_lyr. intros H. cbv zeta in H.
  destruct (floodstatus n); [inversion H; subst; repeat split|].
  destruct (slope n <? 0); [discriminate|].
  apply bind_Ok in H. destruct H as (e & _ & H).
  inversion H; subst. repeat split.
Qed.

(** X5.  No capacity law touches the state of a node beyond its scratch
    fields.  Whenever a call returns, the elevation, the Voronoi area, the
    slope, the discharge, the drainage area, the channel geometry, the flood
    and boundary flags, the critical shear, the downstream neighbour, the
    rate [dzdt], the sediment influx (total and per size) and the layers are
    what they were.  The transport laws (the four of them, in both call
    shapes) write the shear stress and the transport capacities only, and
    keep the number of size classes; the detachment law (in its three call
    shapes) writes the shear stress and the detachment rate only. *)
Theorem capacity_laws_write_scratch_only
  (c : tConsts) (s : tSedTrans) (b : tBedErodePwrLaw.t) (n : tLNode) :
  (forall v n',
     TransCapacity c s n = Ok (v, n') ->
     kept n' = kept n /\ drdt n' = drdt n /\
     List.length (qsm n') = List.length (qsm n)) /\
  (forall lyr w v n',
     TransCapacity_w c s n lyr w = Ok (v, n') ->
     kept n' = kept n /\ drdt n' = drdt n /\
     List.length (qsm n') = List.length (qsm n)) /\
  (forall v n',
     tBedErodePwrLaw.DetachCapacity b n = Ok (v, n') ->
     kept n' = kept n /\ qs n' = qs n /\ qsm n' = qsm n) /\
  (forall dt v n',
     tBedErodePwrLaw.DetachCapacity_dt b n dt = Ok (v, n') ->
     kept n' = kept n /\ qs n' = qs n /\ qsm n' = qsm n) /\
  (forall i v n',
     tBedErodePwrLaw.DetachCapacity_lyr b n i = Ok (v, n') ->
     kept n' = kept n /\ qs n' = qs n /\ qsm n' = qsm n).
Proof.
  split; [|split; [|split; [|split]]].
  - intros v n' H. exact (TransCapacity_written c s n n' v H).
  - intros lyr w v n' H. exact (TransCapacity_w_written c s n n' lyr w v H).
  - intros v n'. apply DetachCapacity_written.
  - intros dt v n'. apply DetachCapacity_dt_written.
  - intros i v n'. apply DetachCapacity_lyr_written.
Qed.

(** ** The layer loop of DetachErode that sums the transport capacity *)

(** The capacity laws contain no loop over the layers: they return or end
    the run. *)
Lemma subscript_returns {A : Type} (l : list A) (i : nat) (what : string) :
  subscript l i what <> OutOfFuel.
Proof. unfold subscript. destruct (nth_error l i); discriminate. Qed.

Lemma assert_returns (b : bool) (what : string) : assert b what <> OutOfFuel.
Proof. destruct b; discriminate. Qed.

Lemma bind_returns {A B : Type} (r : result A) (k : A -> result B) :
  r <> OutOfFuel -> (forall a, r = Ok a -> k a <> OutOfFuel) ->
  bind r k <> OutOfFuel.
Proof. destruct r; simpl; intros H1 H2; auto. discriminate. Qed.

Lemma forM_returns {S : Type} (f : nat -> S -> result S) :
  (forall i s, f i s <> OutOfFuel) ->
  forall idxs s, forM idxs f s <> OutOfFuel.
Proof.
  intros Hf. induction idxs as [|i rest IH]; intros s; simpl.
  - discriminate.
  - apply bind_returns; auto.
Qed.

Lemma getLayerDepth_returns (n : tLNode) (i : nat) :
  getLayerDepth n i <> OutOfFuel.
Proof.
  unfold getLayerDepth, getLayer. apply bind_returns.
  - apply subscript_returns.
  - discriminate.
Qed.

Lemma getLayerDgrade_returns (n : tLNode) (i j : nat) :
  getLayerDgrade n i j <> OutOfFuel.
Proof.
  unfold getLayerDgrade, getLayer. apply bind_returns.
  - apply subscript_returns.
  - intros; apply subscript_returns.
Qed.

Lemma setQs_i_returns (i : nat) (v : R) (n : tLNode) :
  setQs_i i v n <> OutOfFuel.
Proof.
  unfold setQs_i, getQsm. apply bind_returns.
  - apply subscript_returns.
  - discriminate.
Qed.

Lemma addQs_i_returns (i : nat) (v : R) (n : tLNode) :
  addQs_i i v n <> OutOfFuel.
Proof.
  unfold addQs_i, getQsm. apply bind_returns.
  - apply subscript_returns.
  - discriminate.
Qed.

(** Go through the binds and tests of a call. *)
Ltac returns :=
  repeat first
    [ apply subscript_returns | apply assert_returns
    | apply getLayerDepth_returns | apply getLayerDgrade_returns
    | apply setQs_i_returns | apply addQs_i_returns
    | discriminate
    | apply bind_returns; [|intros ? ?]
    | apply forM_returns; intros ? ?
    | progress cbv zeta
    | match goal with
      | |- (if ?b then _ else _) <> OutOfFuel => destruct b
      | |- (let '(_, _) := ?p in _) <> OutOfFuel => destruct p
      | |- (match ?p with (_, _) => _ end) _ <> OutOfFuel => destruct p
      end ].

Lemma TransCapacity_w_returns (c : tConsts) (s : tSedTrans) (n : tLNode)
  (lyr : nat) (w : R) :
  TransCapacity_w c s n lyr w <> OutOfFuel.
Proof.
  destruct s as [p|p|p|p]; cbn [TransCapacity_w].
  - unfold tSedTransPwrLaw.TransCapacity_w. returns.
  - unfold tSedTransPwrLawMulti.TransCapacity_w. returns.
  - unfold tSedTransWilcock.TransCapacity_w. returns.
  - unfold tSedTransMineTailings.TransCapacity_w. returns.
Qed.

Lemma getLayerDepth_inv (n : tLNode) (i : nat) (ld : R) :
  getLayerDepth n i = Ok ld ->
  exists l, nth_error (layerlist n) i = Some l /\ ld = ldepth l.
Proof.
  unfold getLayerDepth, getLayer, subscript.
  destruct (nth_error (layerlist n) i) as [l|]; simpl; [|discriminate].
  intros H; inversion H; subst. eauto.
Qed.

Lemma getLayerDepth_None (n : tLNode) (i : nat) :
  nth_error (layerlist n) i = None ->
  getLayerDepth n i = Fatal "layer index".
Proof.
  intros H. unfold getLayerDepth, getLayer, subscript. now rewrite H.
Qed.

Lemma Rsum_nonneg (l : list R) : (forall x, In x l -> 0 <= x) -> 0 <= Rsum l.
Proof.
  induction l as [|h t IH]; intros H; simpl; [lra|].
  assert (0 <= h) by (apply H; now left).
  assert (0 <= Rsum t) by (apply IH; intros; apply H; now right).
  unfold Rsum in *. lra.
Qed.

Lemma In_skipn {A : Type} (l : list A) (i : nat) (x : A) :
  In x (skipn i l) -> In x l.
Proof.
  revert i. induction l as [|h t IH]; intros [|i] H; simpl in *; auto.
  right. eauto.
Qed.

(** With more iterations in the budget than there are layers left, the loop
    returns or ends the run. *)
Lemma capacity_loop_returns (c : tConsts) (s : tSedTrans) :
  forall (lfuel : nat) (cn : tLNode) (i : nat) (depck qs : R),
    (getNumLayer cn - i < lfuel)%nat ->
    capacity_loop lfuel c s cn i depck qs <> OutOfFuel.
Proof.
  induction lfuel as [|lfuel IH]; intros cn i depck qs Hf; [lia|].
  cbn [capacity_loop].
  destruct (chandepth cn - depck >? 0.0001); [|discriminate].
  apply bind_returns; [apply getLayerDepth_returns|intros ld Hld].
  destruct (getLayerDepth_inv _ _ _ Hld) as (l & Hl & _).
  assert (Hi : (i < getNumLayer cn)%nat).
  { unfold getNumLayer. apply nth_error_Some. congruence. }
  apply bind_returns.
  { destruct (_ <=? _); apply TransCapacity_w_returns. }
  intros [cap cn'] Hc.
  assert (Hw : capacity_written cn cn').
  { destruct (_ <=? _) in Hc; eapply TransCapacity_w_written; eassumption. }
  destruct Hw as (K & _ & _).
  apply bind_returns; [apply getLayerDepth_returns|intros ld' _].
  apply IH. unfold getNumLayer in *. rewrite (kept_layerlist _ _ K). lia.
Qed.

(** When the channel is deeper than the layers are thick, the loop ends the
    run: it reads the depth of a layer past the last one, unless a capacity
    law has ended the run before. *)
Lemma capacity_loop_overrun (c : tConsts) (s : tSedTrans) :
  forall (lfuel : nat) (cn : tLNode) (i : nat) (depck qs : R),
    (getNumLayer cn - i < lfuel)%nat ->
    (forall l, In l (layerlist cn) -> 0 <= ldepth l) ->
    depck + Rsum (map ldepth (skipn i (layerlist cn))) + 0.0001
    < chandepth cn ->
    exists msg, capacity_loop lfuel c s cn i depck qs = Fatal msg.
Proof.
  induction lfuel as [|lfuel IH]; intros cn i depck qs Hf Hpos Hdeep; [lia|].
  cbn [capacity_loop].
  assert (Hrest : 0 <= Rsum (map ldepth (skipn i (layerlist cn)))).
  { apply Rsum_nonneg. intros x Hx. apply in_map_iff in Hx.
    destruct Hx as (l & <- & Hin). apply Hpos. eapply In_skipn; eassumption. }
  unfold Rgtb at 1. rewrite Rltb_true by lra.
  destruct (nth_error (layerlist cn) i) as [l|] eqn:Hl.
  - rewrite (getLayerDepth_Some cn i l Hl). cbn [bind].
    match goal with
    | |- context [bind ?r _] => destruct r as [[cap cn']|msg|] eqn:Hc
    end; cbn [bind].
    + assert (Hw : capacity_written cn cn').
      { destruct (_ <=? _) in Hc; eapply TransCapacity_w_written; eassumption. }
      destruct Hw as (K & _ & _).
      assert (Hl' : nth_error (layerlist cn') i = Some l).
      { rewrite (kept_layerlist _ _ K). exact Hl. }
      rewrite (getLayerDepth_Some cn' i l Hl'). cbn [bind].
      apply IH.
      * unfold getNumLayer in *. rewrite (kept_layerlist _ _ K).
        assert (i < List.length (layerlist cn))%nat
          by (apply nth_error_Some; congruence).
        lia.
      * rewrite (kept_layerlist _ _ K). exact Hpos.
      * rewrite (kept_layerlist _ _ K), (kept_chandepth _ _ K).
        rewrite (skipn_nth_error _ _ _ Hl) in Hdeep. cbn [map] in Hdeep.
        rewrite Rsum_cons in Hdeep. lra.
    + eexists; reflexivity.
    + exfalso. destruct (_ <=? _) in Hc;
        exact (TransCapacity_w_returns _ _ _ _ _ Hc).
  - rewrite (getLayerDepth_None cn i Hl). eexists; reflexivity.
Qed.

(** X6.  The loop of DetachErode that sums the transport capacity over the
    layers within the channel depth takes at most as many iterations as the
    node has layers, plus the test that ends it: with a budget above the
    number of layers it returns or ends the run, whatever the transport law.
    And when the channel depth exceeds the total thickness of the layers
    (none of them negative) by more than 0.0001, it ends the run. *)
Theorem capacity_loop_within_layers
  (c : tConsts) (s : tSedTrans) (cn : tLNode) (lfuel : nat) :
  (getNumLayer cn < lfuel)%nat ->
  capacity_loop lfuel c s cn 0 0 0 <> OutOfFuel /\
  ((forall l, In l (layerlist cn) -> 0 <= ldepth l) ->
   Rsum (map ldepth (layerlist cn)) + 0.0001 < chandepth cn ->
   exists msg, capacity_loop lfuel c s cn 0 0 0 = Fatal msg).
Proof.
  intros Hf. split.
  - apply capacity_loop_returns. lia.
  - intros Hpos Hdeep. apply capacity_loop_overrun; try assumption; try lia.
    cbn [skipn]. lra.
Qed.

Lemma capacity_loop_within_layers_witness :
  capacity_loop 2 consts0 (sedTrans erosion0) node0 0 0 0 <> OutOfFuel.
Proof.
  assert (H : (getNumLayer node0 < 2)%nat) by (unfold getNumLayer; simpl; lia).
  exact (proj1 (capacity_loop_within_layers consts0 (sedTrans erosion0)
                  node0 2 H)).
Defined.

(** ** tSedTransPwrLawMulti *)

(** A pass over indices returns when each of its steps does, under an
    invariant of the state. *)
Lemma forM_total {S : Type} (Inv : S -> Prop) (f : nat -> S -> result S)
  (idxs : list nat) :
  (forall i s, In i idxs -> Inv s -> exists s', f i s = Ok s' /\ Inv s') ->
  forall s, Inv s -> exists s', forM idxs f s = Ok s' /\ Inv s'.
Proof.
  induction idxs as [|i rest IH]; intros Hf s Hs; simpl.
  - eauto.
  - destruct (Hf i s (or_introl eq_refl) Hs) as (s1 & E1 & H1).
    rewrite E1. cbn [bind]. apply IH; [|exact H1].
    intros j s0 Hj. apply Hf. now right.
Qed.

(** The constructor keeps nine size classes at most, and one diameter and
    one critical shear stress, not negative when the diameter is not, for
    each. *)
Lemma PwrLawMulti_ctor_sizes (infile : tInputFile) :
  let p := tSedTransPwrLawMulti.ctor infile in
  (tSedTransPwrLawMulti.miNumgrnsizes p <= 9)%nat /\
  List.length (tSedTransPwrLawMulti.mdGrndiam p)
  = tSedTransPwrLawMulti.miNumgrnsizes p /\
  List.length (tSedTransPwrLawMulti.mdTauc p)
  = tSedTransPwrLawMulti.miNumgrnsizes p /\
  ((forall d, In d (tSedTransPwrLawMulti.mdGrndiam p) -> 0 <= d) ->
   forall tc, In tc (tSedTransPwrLawMulti.mdTauc p) -> 0 <= tc).
Proof.
  unfold tSedTransPwrLawMulti.ctor. cbv zeta.
  cbn [tSedTransPwrLawMulti.miNumgrnsizes tSedTransPwrLawMulti.mdGrndiam
       tSedTransPwrLawMulti.mdTauc].
  split; [|split; [|split]].
  - destruct (9 <? ReadInt infile "NUMGRNSIZE")%Z eqn:E; [simpl; lia|].
    apply Z.ltb_ge in E. lia.
  - now rewrite length_map, length_seq.
  - now rewrite !length_map, length_seq.
  - intros Hd tc Htc. apply in_map_iff in Htc. destruct Htc as (d & <- & Hin).
    specialize (Hd d Hin). nra.
Qed.

Lemma frac_loop_length (node : tLNode) (lyr : nat) (diam : list R) :
  forall (idxs : list nat) (frac frac' : list R) (d d' : R),
    forM idxs
      (fun i '(frac, d50) =>
         dg <- getLayerDgrade node lyr i ;;
         ld <- getLayerDepth node lyr ;;
         d <- subscript diam i "mdGrndiam" ;;
         let f := dg / ld in
         Ok (frac ++ [f], d50 + f * d))
      (frac, d) = Ok (frac', d') ->
    List.length frac' = (List.length frac + List.length idxs)%nat.
Proof.
  induction idxs as [|i rest IH]; intros frac frac' d d' H; simpl in H.
  - inversion H; subst. simpl. lia.
  - apply bind_Ok in H. destruct H as ([f1 d1] & E1 & H).
    apply bind_Ok in E1. destruct E1 as (dg & _ & E1).
    apply bind_Ok in E1. destruct E1 as (ld & _ & E1).
    apply bind_Ok in E1. destruct E1 as (dd & _ & E1).
    inversion E1; subst.
    rewrite (IH _ _ _ _ H), length_app. simpl. lia.
Qed.

(** A power of a base that is not negative is not negative. *)
Lemma pow_nonneg_base (x y : R) : 0 <= x -> 0 <= Cmath.pow x y.
Proof.
  intros Hx. unfold Cmath.pow.
  destruct (Rltb_spec 0 x) as [Hp|Hn].
  - unfold Rpower. left. apply exp_pos.
  - destruct (Reqb_spec y 0); lra.
Qed.

Lemma Rdiv_nonneg (a b : R) : 0 <= a -> 0 <= b -> 0 <= a / b.
Proof.
  intros Ha Hb. unfold Rdiv. destruct (Req_dec_T b 0) as [E|E].
  - subst b. rewrite Rinv_0. lra.
  - assert (0 < / b) by (apply Rinv_0_lt_compat; lra). nra.
Qed.

(** With a layer of positive depth that holds no negative amount of any
    size, and no negative diameter, the mean grain size is not negative. *)
Lemma frac_loop_d50_nonneg (node : tLNode) (lyr : nat) (l : tLayer)
  (diam : list R) :
  nth_error (layerlist node) lyr = Some l ->
  0 < ldepth l ->
  (forall x, In x (ldgrade l) -> 0 <= x) ->
  (forall d, In d diam -> 0 <= d) ->
  forall (idxs : list nat) (frac frac' : list R) (d d' : R),
    forM idxs
      (fun i '(frac, d50) =>
         dg <- getLayerDgrade node lyr i ;;
         ld <- getLayerDepth node lyr ;;
         d <- subscript diam i "mdGrndiam" ;;
         let f := dg / ld in
         Ok (frac ++ [f], d50 + f * d))
      (frac, d) = Ok (frac', d') ->
    0 <= d -> 0 <= d'.
Proof.
  intros Hl Hld Hdg Hdiam.
  induction idxs as [|i rest IH]; intros frac frac' d d' H Hd0; simpl in H.
  - inversion H; subst. exact Hd0.
  - apply bind_Ok in H. destruct H as ([f1 d1] & E1 & H).
    apply bind_Ok in E1. destruct E1 as (dg & Edg & E1).
    apply bind_Ok in E1. destruct E1 as (ld & Eld & E1).
    apply bind_Ok in E1. destruct E1 as (dd & Edd & E1).
    inversion E1; subst; clear E1.
    rewrite (getLayerDepth_Some node lyr l Hl) in Eld.
    inversion Eld; subst; clear Eld.
    unfold getLayerDgrade, getLayer, subscript in Edg. rewrite Hl in Edg.
    cbn [bind] in Edg.
    destruct (nth_error (ldgrade l) i) as [x|] eqn:Ex; [|discriminate].
    inversion Edg; subst; clear Edg.
    unfold subscript in Edd.
    destruct (nth_error diam i) as [y|] eqn:Ey; [|discriminate].
    inversion Edd; subst; clear Edd.
    apply (IH _ _ _ _ H).
    pose proof (Hdg _ (nth_error_In _ _ Ex)).
    pose proof (Hdiam _ (nth_error_In _ _ Ey)).
    assert (0 <= dg / ldepth l) by (apply Rdiv_nonneg; lra).
    nra.
Qed.

(** X7.  The weighted shape of the multi-size power law, for a law built by
    its constructor (the law whose size the array [frac] has), on a node of
    non-negative slope whose layer [lyr] and whose capacity array hold the
    size classes of the law: the call returns (no array is read out of
    range), the total capacity it stores is the value it returns, and the
    capacities of the size classes grow by amounts that sum to that value.
    On a flooded node the slope is taken as zero: with positive exponents
    [nf] and [pf], no negative grain diameter, and a layer of positive depth
    that holds no negative amount of any size (so that the mean grain size
    and with it the base of every power is not negative), the shear stress
    stored and the value returned are zero. *)
Theorem PwrLawMulti_TransCapacity_w_total
  (p : tSedTransPwrLawMulti.t) (infile : tInputFile) (n : tLNode) (lyr : nat)
  (w : R) (l : tLayer) :
  p = tSedTransPwrLawMulti.ctor infile ->
  0 <= slope n ->
  nth_error (layerlist n) lyr = Some l ->
  (tSedTransPwrLawMulti.miNumgrnsizes p <= List.length (ldgrade l))%nat ->
  (tSedTransPwrLawMulti.miNumgrnsizes p <= List.length (qsm n))%nat ->
  exists v n',
    tSedTransPwrLawMulti.TransCapacity_w p n lyr w = Ok (v, n') /\
    qs n' = v /\
    Rsum (qsm n') = Rsum (qsm n) + v /\
    (floodstatus n = true ->
     0 < tSedTransPwrLawMulti.nf p -> 0 < tSedTransPwrLawMulti.pf p ->
     (forall d, In d (tSedTransPwrLawMulti.mdGrndiam p) -> 0 <= d) ->
     0 < ldepth l -> (forall x, In x (ldgrade l) -> 0 <= x) ->
     v = 0 /\ tau n' = 0).
Proof.
  intros Hp Hs Hl Hg Hq.
  destruct (PwrLawMulti_ctor_sizes infile) as (H9 & Ld & Lt & Hpos).
  cbv zeta in H9, Ld, Lt, Hpos. rewrite <- Hp in H9, Ld, Lt, Hpos. clear Hp.
  set (N := tSedTransPwrLawMulti.miNumgrnsizes p) in *.
  unfold tSedTransPwrLawMulti.TransCapacity_w. rewrite Rltb_false by lra.
  fold N.
  match goal with
  | |- context [forM ?idx ?f ([], 0)] =>
      destruct (forM_total (fun _ => True) f idx) with (s := (@nil R, 0))
        as ([frac d50] & E1 & _)
  end.
  { intros i [fr d] Hi _. apply in_seq in Hi.
    destruct (nth_error (ldgrade l) i) as [dg|] eqn:Edg;
      [|apply nth_error_None in Edg; lia].
    destruct (nth_error (tSedTransPwrLawMulti.mdGrndiam p) i) as [dd|] eqn:Ed;
      [|apply nth_error_None in Ed; lia].
    rewrite (getLayerDgrade_nth n lyr i l dg Hl Edg). cbn [bind].
    rewrite (getLayerDepth_Some n lyr l Hl). cbn [bind].
    unfold subscript. rewrite Ed. cbn [bind]. eexists. split; [reflexivity|trivial]. }
  { trivial. }
  assert (Lf : List.length frac = N).
  { rewrite (frac_loop_length _ _ _ _ _ _ _ _ E1), length_seq. reflexivity. }
  rewrite E1. cbn [bind]. cbv zeta.
  set (tauv := tSedTransPwrLawMulti.kt p
               * Cmath.pow (q n / hydrwidth n) (tSedTransPwrLawMulti.mf p)
               * Cmath.pow (if floodstatus n then 0 else slope n)
                   (tSedTransPwrLawMulti.nf p)).
  set (Z := floodstatus n = true /\
            0 < tSedTransPwrLawMulti.nf p /\ 0 < tSedTransPwrLawMulti.pf p /\
            (forall d, In d (tSedTransPwrLawMulti.mdGrndiam p) -> 0 <= d) /\
            0 < ldepth l /\ (forall x, In x (ldgrade l) -> 0 <= x)).
  assert (Hz : Z -> tauv = 0).
  { intros (Hf & Hnf & _ & _). unfold tauv. rewrite Hf.
    rewrite pow_base_0 by assumption. ring. }
  assert (H50 : Z -> 0 <= d50).
  { intros (_ & _ & _ & Hd & Hld & Hdg).
    apply (frac_loop_d50_nonneg n lyr l _ Hl Hld Hdg Hd _ _ _ _ _ E1). lra. }
  match goal with
  | |- context [forM ?idx ?f (0, setTau tauv n)] =>
      destruct (forM_total
                  (fun st : R * tLNode =>
                     capacity_written n (snd st) /\ tau (snd st) = tauv /\
                     Rsum (qsm (snd st)) = Rsum (qsm n) + fst st /\
                     (Z -> fst st = 0)) f idx)
        with (s := (0, setTau tauv n))
        as ([tot nd] & E2 & Hw & Ht & Hsum & Hzero)
  end.
  { intros i [t0 nd] Hi (Hw & Ht & Hsum & Hzero). cbn [fst snd] in *.
    apply in_seq in Hi.
    destruct (nth_error (tSedTransPwrLawMulti.mdTauc p) i) as [tc|] eqn:Etc;
      [|apply nth_error_None in Etc; lia].
    destruct (nth_error (tSedTransPwrLawMulti.mdGrndiam p) i) as [dd|] eqn:Ed;
      [|apply nth_error_None in Ed; lia].
    destruct (nth_error frac i) as [f|] eqn:Ef;
      [|apply nth_error_None in Ef; lia].
    unfold subscript. rewrite Etc, Ed, Ef. cbn [bind].
    rewrite pos_part_max.
    set (cap := f * w * tSedTransPwrLawMulti.kf p * hydrwidth nd
                * Cmath.pow
                    (Rmax 0
                       (tauv - tc * Cmath.pow (dd / d50)
                                      (- tSedTransPwrLawMulti.mdHidingexp p)))
                    (tSedTransPwrLawMulti.pf p)).
    destruct Hw as (K & D & L).
    destruct (nth_error (qsm nd) i) as [x|] eqn:Ex;
      [|apply nth_error_None in Ex; lia].
    destruct (addQs_i i cap nd) as [nd1| |] eqn:Ea;
      try (unfold addQs_i, getQsm, subscript in Ea; rewrite Ex in Ea;
           discriminate).
    destruct (addQs_i_kept _ _ _ _ Ea) as (K1 & T1 & D1 & _ & L1 & S1).
    cbn [bind]. eexists. split; [reflexivity|]. cbn [fst snd].
    split; [repeat split; congruence|]. split; [congruence|].
    split; [rewrite S1, Hsum; ring|].
    intros HZ. rewrite (Hzero HZ).
    assert (Ecap : cap = 0).
    { unfold cap. rewrite (Hz HZ). pose proof (H50 HZ) as Hd50.
      destruct HZ as (_ & _ & Hpf & Hd & _ & _).
      assert (0 <= tc).
      { apply Hpos; [exact Hd|]. eapply nth_error_In; eassumption. }
      assert (Hbase : 0 <= dd / d50).
      { apply Rdiv_nonneg; [|exact Hd50].
        apply Hd. eapply nth_error_In; eassumption. }
      pose proof (pow_nonneg_base (dd / d50)
                    (- tSedTransPwrLawMulti.mdHidingexp p) Hbase).
      rewrite Rmax_left by nra. rewrite pow_base_0 by assumption. ring. }
    rewrite Ecap. ring. }
  { cbn [fst snd]. split; [apply capacity_written_setTau|].
    split; [reflexivity|]. split; [cbn [qsm setTau]; ring|]. reflexivity. }
  rewrite E2. cbn [bind fst snd] in *.
  exists tot, (setQs tot nd). split; [reflexivity|]. split; [reflexivity|].
  split; [exact Hsum|].
  intros Hf Hnf Hpf Hd Hld Hdg.
  assert (HZ : Z) by (repeat split; assumption).
  split; [exact (Hzero HZ)|]. cbn [tau setQs]. rewrite Ht. exact (Hz HZ).
Qed.

Lemma PwrLawMulti_TransCapacity_w_total_witness :
  exists v n',
    tSedTransPwrLawMulti.TransCapacity_w
      (tSedTransPwrLawMulti.ctor infile0) node0 0 1 = Ok (v, n') /\
    qs n' = v.
Proof.
  assert (H1 : 0 <= slope node0) by (simpl; lra).
  assert (H2 : nth_error (layerlist node0) 0 = Some layer0) by reflexivity.
  assert (H3 : (tSedTransPwrLawMulti.miNumgrnsizes
                  (tSedTransPwrLawMulti.ctor infile0)
                <= List.length (ldgrade layer0))%nat) by (simpl; lia).
  assert (H4 : (tSedTransPwrLawMulti.miNumgrnsizes
                  (tSedTransPwrLawMulti.ctor infile0)
                <= List.length (qsm node0))%nat) by (simpl; lia).
  destruct (PwrLawMulti_TransCapacity_w_total
              (tSedTransPwrLawMulti.ctor infile0) infile0 node0 0 1 layer0
              eq_refl H1 H2 H3 H4) as (v & n' & E & Hq & _).
  exists v, n'. split; assumption.
Defined.



(** ** The critical shear stress of the sand/gravel laws *)

(** With the interpolant meeting the two reference values and the low
    reference (used for little sand) not below the high one, the critical
    shear stress does not increase with the sand fraction and stays between
    the two references. *)
Lemma taucrit_of_antitone (low s b high p p' : R) :
  s * 0.10 + b = low -> s * 0.40 + b = high -> high <= low -> p <= p' ->
  taucrit_of p' low s b high <= taucrit_of p low s b high /\
  high <= taucrit_of p low s b high <= low.
Proof.
  intros Hl Hh Hle Hp. unfold taucrit_of. rcases; nra.
Qed.

Lemma sand_refs_ordered (D g0 g1 : R) :
  0 <= D -> 0 < g0 <= 0.8 * g1 ->
  0.04 * (D * 9.81 * g0) * 0.8531
  <= 0.8 * (g1 / g0) * 0.040 * (D * 9.81 * g0) * 0.8531.
Proof.
  intros HD [H0 H1].
  assert (Hx : g1 / g0 * g0 = g1) by (field; lra).
  set (x := g1 / g0) in *.
  assert (Hh : 0 <= D * (0.8 * (x * g0) - g0)).
  { rewrite Hx. apply Rmult_le_pos; lra. }
  nra.
Qed.

(** X9.  In the Wilcock and the mine-tailings law, built by their
    constructors with a sediment no lighter than water and a non-negative
    gravel diameter, the critical shear stress of the gravel fraction never
    increases with the sand fraction, and lies between the high and the low
    reference value.  The same holds of the sand fraction when the sand
    diameter is positive and at most 0.8 times the gravel diameter. *)
Theorem taucrit_never_increases_with_sand
  (c : tConsts) (infile : tInputFile) (p p' : R) :
  RHO c <= RHOSED c ->
  0 <= ReadDouble infile "GRAINDIAM2" ->
  p <= p' ->
  let w := tSedTransWilcock.ctor c infile in
  let m := tSedTransMineTailings.ctor c infile in
  (tSedTransWilcock.taucrit_grav w p' <= tSedTransWilcock.taucrit_grav w p /\
   tSedTransWilcock.hightaucg w <= tSedTransWilcock.taucrit_grav w p
   <= tSedTransWilcock.lowtaucg w /\
   tSedTransMineTailings.taucrit_grav m p'
   <= tSedTransMineTailings.taucrit_grav m p /\
   tSedTransMineTailings.hightaucg m <= tSedTransMineTailings.taucrit_grav m p
   <= tSedTransMineTailings.lowtaucg m) /\
  (0 < ReadDouble infile "GRAINDIAM1"
   <= 0.8 * ReadDouble infile "GRAINDIAM2" ->
   tSedTransWilcock.taucrit_sand w p' <= tSedTransWilcock.taucrit_sand w p /\
   tSedTransWilcock.hightaucs w <= tSedTransWilcock.taucrit_sand w p
   <= tSedTransWilcock.lowtaucs w /\
   tSedTransMineTailings.taucrit_sand m p'
   <= tSedTransMineTailings.taucrit_sand m p /\
   tSedTransMineTailings.hightaucs m <= tSedTransMineTailings.taucrit_sand m p
   <= tSedTransMineTailings.lowtaucs m).
Proof.
  intros HD Hg Hp w m.
  destruct (Wilcock_ctor_meets c infile) as (Ws1 & Ws2 & Wg1 & Wg2).
  destruct (MineTailings_ctor_meets c infile) as (Ms1 & Ms2 & Mg1 & Mg2).
  fold w in Ws1, Ws2, Wg1, Wg2. fold m in Ms1, Ms2, Mg1, Mg2.
  assert (HgW : tSedTransWilcock.hightaucg w <= tSedTransWilcock.lowtaucg w).
  { unfold w, tSedTransWilcock.ctor.
    cbn [tSedTransWilcock.hightaucg tSedTransWilcock.lowtaucg]. nra. }
  assert (HgM : tSedTransMineTailings.hightaucg m
                <= tSedTransMineTailings.lowtaucg m).
  { unfold m, tSedTransMineTailings.ctor.
    cbn [tSedTransMineTailings.hightaucg tSedTransMineTailings.lowtaucg]. nra. }
  split.
  - destruct (taucrit_of_antitone _ _ _ _ p p' Wg1 Wg2 HgW Hp) as [A1 A2].
    destruct (taucrit_of_antitone _ _ _ _ p p' Mg1 Mg2 HgM Hp) as [B1 B2].
    repeat split; try apply A1; try apply A2; try apply B1; try apply B2.
  - intros Hs.
    assert (HD' : 0 <= RHOSED c - RHO c) by lra.
    assert (HsW : tSedTransWilcock.hightaucs w <= tSedTransWilcock.lowtaucs w).
    { unfold w, tSedTransWilcock.ctor.
      cbn [tSedTransWilcock.hightaucs tSedTransWilcock.lowtaucs].
      apply sand_refs_ordered; assumption. }
    assert (HsM : tSedTransMineTailings.hightaucs m
                  <= tSedTransMineTailings.lowtaucs m).
    { unfold m, tSedTransMineTailings.ctor.
      cbn [tSedTransMineTailings.hightaucs tSedTransMineTailings.lowtaucs].
      apply sand_refs_ordered; assumption. }
    destruct (taucrit_of_antitone _ _ _ _ p p' Ws1 Ws2 HsW Hp) as [A1 A2].
    destruct (taucrit_of_antitone _ _ _ _ p p' Ms1 Ms2 HsM Hp) as [B1 B2].
    repeat split; try apply A1; try apply A2; try apply B1; try apply B2.
Qed.

Lemma taucrit_never_increases_with_sand_witness :
  tSedTransWilcock.taucrit_grav wilcock0 0.3
  <= tSedTransWilcock.taucrit_grav wilcock0 0.2.
Proof.
  assert (H1 : RHO consts0 <= RHOSED consts0) by (simpl; lra).
  assert (H2 : 0 <= ReadDouble infile0 "GRAINDIAM2") by (simpl; lra).
  assert (H3 : 0.2 <= 0.3) by lra.
  exact (proj1 (proj1 (taucrit_never_increases_with_sand consts0 infile0
                         0.2 0.3 H1 H2 H3))).
Defined.

(** ** tEquilibCheck: the history of samples *)

(** The times of the entries grow strictly along the list. *)
Fixpoint increasing (l : list (R * R)) : Prop :=
  match l with
  | a :: ((b :: _) as t) => fst a < fst b /\ increasing t
  | _ => True
  end.

Lemma increasing_tail (a : R * R) (l : list (R * R)) :
  increasing (a :: l) -> increasing l.
Proof. destruct l; simpl; tauto. Qed.

Lemma increasing_head_lt (l : list (R * R)) :
  forall a x, increasing (a :: l) -> In x l -> fst a < fst x.
Proof.
  induction l as [|b t IH]; intros a x Hi Hx; [contradiction|].
  destruct Hi as [Hab Ht]. destruct Hx as [<-|Hx]; [exact Hab|].
  specialize (IH b x Ht Hx). lra.
Qed.

Lemma increasing_snoc (l : list (R * R)) (x : R * R) :
  increasing l ->
  (forall last, LastP l = Ok last -> fst last < fst x) ->
  increasing (l ++ [x]).
Proof.
  induction l as [|a t IH]; intros Hi Hl; [exact I|].
  destruct t as [|b t'].
  - simpl. split; [|exact I]. apply Hl. reflexivity.
  - destruct Hi as [Hab Ht]. change ((a :: b :: t') ++ [x])
      with (a :: ((b :: t') ++ [x])).
    change (fst a < fst b /\ increasing ((b :: t') ++ [x])).
    split; [exact Hab|]. apply IH; [exact Ht|].
    intros last HL. apply Hl. unfold LastP in *. simpl in *.
    destruct (rev t' ++ [b]) eqn:E; [destruct (rev t'); discriminate|].
    simpl. exact HL.
Qed.

Lemma LastP_nil_inv (l : list (R * R)) (msg : string) :
  LastP l = Fatal msg -> l = [].
Proof.
  unfold LastP. destruct l as [|a t]; [reflexivity|]. simpl.
  destruct (rev t ++ [a]) eqn:E; [destruct (rev t); discriminate|discriminate].
Qed.

Lemma LastP_cons (a : R * R) (t : list (R * R)) :
  exists old last, a :: t = old ++ [last] /\ LastP (a :: t) = Ok last.
Proof.
  destruct (exists_last (l := a :: t)) as (old & last & E); [discriminate|].
  exists old, last. split; [exact E|]. rewrite E. apply LastP_app.
Qed.

(** What a sample that is taken leaves behind. *)
Lemma FindIterChngRate_sample (time : R) (m : tMesh) (e : tEquilibCheck.t)
  (sr : R) (e' : tEquilibCheck.t) :
  tEquilibCheck.FindIterChngRate time m e = Ok (sr, e') ->
  exists mean,
    tEquilibCheck.massList e'
    = tEquilibCheck.massList e ++ [(time, mean)] /\
    tEquilibCheck.shortRate e' = sr /\
    tEquilibCheck.longTime e' = tEquilibCheck.longTime e /\
    tEquilibCheck.longRate e' = tEquilibCheck.longRate e /\
    (tEquilibCheck.massList e = [] -> 0 < time /\ sr = mean / time) /\
    (forall last,
       tEquilibCheck.LastP (tEquilibCheck.massList e) = Ok last ->
       fst last < time /\ sr = (mean - snd last) / (time - fst last)).
Proof.
  intros H. unfold tEquilibCheck.FindIterChngRate in H.
  apply bind_Ok in H. destruct H as ([mass area] & _ & H). cbv zeta in H.
  apply bind_Ok in H. destruct H as (sr' & Hsr & H).
  inversion H; subst; clear H. exists (mass / area).
  cbn [tEquilibCheck.massList tEquilibCheck.shortRate tEquilibCheck.longTime
       tEquilibCheck.longRate].
  repeat (split; [reflexivity|]).
  destruct (tEquilibCheck.massList e) as [|a t] eqn:EL.
  - cbn in Hsr. unfold Rgtb in Hsr.
    destruct (Rltb_spec 0 time); cbn in Hsr; [|discriminate].
    inversion Hsr; subst. split; [auto|]. intros last HL. discriminate.
  - split; [discriminate|]. intros last HL.
    cbn [List.length Nat.eqb negb] in Hsr. rewrite HL in Hsr.
    cbn [bind] in Hsr. unfold Rgtb in Hsr.
    replace 0.0 with 0 in Hsr by lra.
    destruct (Rltb_spec 0 (time - fst last)); cbn in Hsr; [|discriminate].
    inversion Hsr; subst. split; [lra|reflexivity].
Qed.

Lemma FindIterChngRate_increasing (time : R) (m : tMesh)
  (e : tEquilibCheck.t) (sr : R) (e' : tEquilibCheck.t) :
  tEquilibCheck.FindIterChngRate time m e = Ok (sr, e') ->
  increasing (tEquilibCheck.massList e) ->
  increasing (tEquilibCheck.massList e').
Proof.
  intros H Hi.
  destruct (FindIterChngRate_sample _ _ _ _ _ H)
    as (mean & Em & _ & _ & _ & _ & H1).
  rewrite Em. apply increasing_snoc; [exact Hi|].
  intros last HL. apply (H1 last HL).
Qed.

(** X10.  [FindIterChngRate] returns only when the time has advanced: past
    the time of the latest entry of the history, or past zero when the
    history is empty (as it is in the constructors that take a first sample,
    which therefore cannot be used at time zero).  When it returns, the
    history has grown by one entry, holding the current time, at its end and
    is otherwise as it was; the short-term rate is the change of the mean
    elevation since the latest entry over the time gone by (the mean
    elevation over the time, on an empty history); the window and the
    long-term rate are untouched; and a history whose times grow strictly
    still does so. *)
Theorem FindIterChngRate_history (time : R) (m : tMesh) (e : tEquilibCheck.t) :
  (forall sr e',
     tEquilibCheck.FindIterChngRate time m e = Ok (sr, e') ->
     exists mean,
       tEquilibCheck.massList e'
       = tEquilibCheck.massList e ++ [(time, mean)] /\
       tEquilibCheck.shortRate e' = sr /\
       tEquilibCheck.longTime e' = tEquilibCheck.longTime e /\
       tEquilibCheck.longRate e' = tEquilibCheck.longRate e /\
       (tEquilibCheck.massList e = [] -> 0 < time /\ sr = mean / time) /\
       (forall last,
          tEquilibCheck.LastP (tEquilibCheck.massList e) = Ok last ->
          fst last < time /\ sr = (mean - snd last) / (time - fst last)) /\
       (increasing (tEquilibCheck.massList e) ->
        increasing (tEquilibCheck.massList e'))) /\
  (forall e',
     tEquilibCheck.ctor_mesh time m = Ok e' ->
     0 < time /\
     exists mean,
       tEquilibCheck.massList e' = [(time, mean)] /\
       tEquilibCheck.shortRate e' = mean / time) /\
  (forall fileRef e',
     tEquilibCheck.ctor_file time m fileRef = Ok e' ->
     0 < time /\
     tEquilibCheck.longTime e' = ReadDouble fileRef "EQUITIME" /\
     exists mean,
       tEquilibCheck.massList e' = [(time, mean)] /\
       tEquilibCheck.shortRate e' = mean / time).
Proof.
  assert (Main := FindIterChngRate_sample time m).
  split; [|split].
  - intros sr e' H.
    destruct (Main e sr e' H) as (mean & Em & Es & El & Er & H0 & H1).
    exists mean. repeat (split; [assumption|]).
    exact (FindIterChngRate_increasing _ _ _ _ _ H).
  - intros e' H. unfold tEquilibCheck.ctor_mesh in H.
    apply bind_Ok in H. destruct H as ([sr e1] & H & E). inversion E; subst.
    destruct (Main _ sr e' H) as (mean & Em & Es & _ & _ & H0 & _).
    destruct (H0 eq_refl) as [Ht Hs]. split; [exact Ht|].
    exists mean. split; [exact Em|congruence].
  - intros fileRef e' H. unfold tEquilibCheck.ctor_file in H.
    apply bind_Ok in H. destruct H as ([sr e1] & H & E). inversion E; subst.
    destruct (Main _ sr e' H) as (mean & Em & Es & El & _ & H0 & _).
    destruct (H0 eq_refl) as [Ht Hs]. split; [exact Ht|].
    split; [exact El|].
    exists mean. split; [exact Em|congruence].
Qed.

(** On a history whose times grow strictly and whose latest entry has
    reached the target, the scan stops on an entry before the latest: the
    oldest entry, or one that lies before the target. *)
Lemma scan_total (target : R) :
  forall (rest old : list (R * R)) (ca na new : R * R),
    ca :: na :: rest = old ++ [new] ->
    increasing (ca :: na :: rest) ->
    target <= fst new ->
    exists ca',
      tEquilibCheck.scan target ca na rest = Ok ca' /\
      In ca' old /\ (ca' = ca \/ fst ca' < target) /\ fst ca' < fst new.
Proof.
  induction rest as [|nx rest IH]; intros old ca na new E Hi Ht.
  - destruct old as [|o1 [|o2 old]]; try discriminate.
    + inversion E as [[E1 E2]]. subst o1 new. destruct Hi as [Hlt _].
      cbn [tEquilibCheck.scan]. rewrite Rltb_false by lra.
      exists ca. split; [reflexivity|]. split; [now left|].
      split; [now left|exact Hlt].
    + inversion E as [[E1 E2 E3]]. destruct old; discriminate.
  - destruct old as [|o1 old]; [discriminate|].
    inversion E as [[E1 E2]]. subst o1.
    assert (Hnew : In new (na :: nx :: rest)).
    { rewrite E2. apply in_or_app. right. now left. }
    cbn [tEquilibCheck.scan].
    destruct (Rltb_spec (fst na) target) as [Hlt|Hge].
    + destruct (IH old na nx new E2 (increasing_tail _ _ Hi) Ht)
        as (ca' & Es & Hin & Hor & Hlast).
      exists ca'. split; [exact Es|]. split; [now right|].
      split; [right; destruct Hor as [->|]; lra|exact Hlast].
    + exists ca. split; [reflexivity|]. split; [now left|].
      split; [now left|]. apply (increasing_head_lt _ _ _ Hi Hnew).
Qed.

(** The long-term rate on a history in order is always found. *)
Lemma FindLongTermChngRate_total
  (time : R) (m : tMesh) (e e1 : tEquilibCheck.t) (sr : R) :
  increasing (tEquilibCheck.massList e) ->
  0 <= tEquilibCheck.longTime e ->
  tEquilibCheck.FindIterChngRate time m e = Ok (sr, e1) ->
  exists r e2,
    tEquilibCheck.FindLongTermChngRate time m e = Ok (r, e2) /\
    tEquilibCheck.massList e2 = tEquilibCheck.massList e1 /\
    tEquilibCheck.shortRate e2 = sr /\
    tEquilibCheck.longRate e2 = r /\
    tEquilibCheck.longTime e2 = tEquilibCheck.longTime e /\
    (tEquilibCheck.longTime e <> 0 ->
     forall oldest rest mean,
       tEquilibCheck.massList e = oldest :: rest ->
       tEquilibCheck.massList e1
       = tEquilibCheck.massList e ++ [(time, mean)] ->
       exists ca,
         In ca (tEquilibCheck.massList e) /\
         fst ca < time /\
         r = (mean - snd ca) / (time - fst ca) /\
         (ca = oldest \/ tEquilibCheck.longTime e < time - fst ca)).
Proof.
  intros Hi Hw H.
  destruct (FindIterChngRate_inv _ _ _ _ _ H) as (mean & Em & El & Es).
  assert (Hi1 : increasing (tEquilibCheck.massList e1)).
  { exact (FindIterChngRate_increasing _ _ _ _ _ H Hi). }
  unfold tEquilibCheck.FindLongTermChngRate. rewrite H. cbn [bind].
  rewrite Em, LastP_app. cbn [bind fst snd]. rewrite <- Em, El.
  replace 0.0 with 0 by lra.
  destruct (Reqb_spec (tEquilibCheck.longTime e) 0) as [E0|E0].
  { cbn [orb]. do 2 eexists. split; [reflexivity|].
    cbn [tEquilibCheck.massList tEquilibCheck.shortRate
         tEquilibCheck.longRate tEquilibCheck.longTime].
    repeat split; try assumption; try congruence. }
  cbn [orb].
  destruct (tEquilibCheck.massList e) as [|oldest rest] eqn:EL.
  { rewrite Em. cbn [app List.length Nat.eqb].
    do 2 eexists. split; [reflexivity|].
    cbn [tEquilibCheck.massList tEquilibCheck.shortRate
         tEquilibCheck.longRate tEquilibCheck.longTime].
    repeat split; try assumption; try congruence. }
  assert (Hlen : Nat.eqb (List.length (tEquilibCheck.massList e1)) 1 = false).
  { rewrite Em, length_app. simpl. apply Nat.eqb_neq. lia. }
  rewrite Hlen.
  destruct (tEquilibCheck.massList e1) as [|ca0 [|na0 rest1]] eqn:EL1.
  { destruct rest; discriminate. }
  { destruct rest as [|? [|? ?]]; discriminate. }
  assert (Hca0 : ca0 = oldest) by (inversion Em; reflexivity).
  destruct (scan_total (time - tEquilibCheck.longTime e) rest1
              (oldest :: rest) ca0 na0 (time, mean) Em Hi1)
    as (ca & Es' & Hin & Hor & Hlt); [cbn [fst]; lra|].
  cbn [fst] in Hlt. rewrite Es'. cbn [bind]. unfold Rgtb.
  rewrite Rltb_true by lra. cbn [assert bind].
  do 2 eexists. split; [reflexivity|].
  cbn [tEquilibCheck.massList tEquilibCheck.shortRate
       tEquilibCheck.longRate tEquilibCheck.longTime].
  repeat split; try assumption; try congruence.
  intros _ oldest' rest' mean' E1 E2.
  assert (mean' = mean).
  { rewrite Em in E2. inversion E1; subst oldest' rest'.
    apply app_inj_tail in E2. destruct E2 as [_ E2]. now inversion E2. }
  subst mean'. inversion E1; subst oldest' rest'.
  exists ca. split; [exact Hin|]. split; [exact Hlt|]. split; [reflexivity|].
  destruct Hor as [->|Hor]; [left; exact Hca0|right; lra].
Qed.


(** X11.  [FindLongTermChngRate] on a history whose times grow strictly,
    with a window that is not negative: whenever the sample is taken (the
    time has advanced), the call returns; it never walks off the end of the
    history and its own assertion on the time difference holds.  The history
    and the short-term rate are those of [FindIterChngRate].  With a window
    other than zero and a history that was not empty, the long-term rate it
    returns and stores is the rate between the latest entry and an earlier
    entry [ca], where [ca] is the oldest entry or lies more than the window
    before the latest. *)
Theorem FindLongTermChngRate_returns
  (time : R) (m : tMesh) (e e1 : tEquilibCheck.t) (sr : R) :
  increasing (tEquilibCheck.massList e) ->
  0 <= tEquilibCheck.longTime e ->
  tEquilibCheck.FindIterChngRate time m e = Ok (sr, e1) ->
  exists r e2,
    tEquilibCheck.FindLongTermChngRate time m e = Ok (r, e2) /\
    tEquilibCheck.massList e2 = tEquilibCheck.massList e1 /\
    tEquilibCheck.shortRate e2 = sr /\
    tEquilibCheck.longRate e2 = r /\
    tEquilibCheck.longTime e2 = tEquilibCheck.longTime e /\
    (tEquilibCheck.longTime e <> 0 ->
     forall oldest rest mean,
       tEquilibCheck.massList e = oldest :: rest ->
       tEquilibCheck.massList e1
       = tEquilibCheck.massList e ++ [(time, mean)] ->
       exists ca,
         In ca (tEquilibCheck.massList e) /\
         fst ca < time /\
         r = (mean - snd ca) / (time - fst ca) /\
         (ca = oldest \/ tEquilibCheck.longTime e < time - fst ca)).
Proof. exact (FindLongTermChngRate_total time m e e1 sr). Qed.

(** A tracker with the history (0,10), (1,11) and a window of 2. *)
Lemma FindLongTermChngRate_returns_witness :
  exists r e2,
    tEquilibCheck.FindLongTermChngRate 2 mesh_13_5 (history2 2) = Ok (r, e2).
Proof.
  assert (H1 : increasing (tEquilibCheck.massList (history2 2)))
    by (simpl; repeat split; lra).
  assert (H2 : 0 <= tEquilibCheck.longTime (history2 2)) by (simpl; lra).
  assert (H3 : exists sr e1,
             tEquilibCheck.FindIterChngRate 2 mesh_13_5 (history2 2)
             = Ok (sr, e1)).
  { unfold tEquilibCheck.FindIterChngRate, history2, mesh_13_5.
    simpl. rdecide. simpl. do 2 eexists. reflexivity. }
  destruct H3 as (sr & e1 & H3).
  destruct (FindLongTermChngRate_returns 2 mesh_13_5 (history2 2) e1 sr
              H1 H2 H3) as (r & e2 & E & _).
  exists r, e2. exact E.
Defined.

Lemma FindIterChngRate_setLongTime (v time : R) (m : tMesh)
  (e e1 : tEquilibCheck.t) (sr : R) :
  tEquilibCheck.FindIterChngRate time m e = Ok (sr, e1) ->
  tEquilibCheck.FindIterChngRate time m (tEquilibCheck.setLongTime v e)
  = Ok (sr, tEquilibCheck.setLongTime v e1).
Proof.
  unfold tEquilibCheck.FindIterChngRate.
  cbn [tEquilibCheck.massList tEquilibCheck.setLongTime
       tEquilibCheck.longTime tEquilibCheck.longRate].
  destruct (forM _ _ _) as [[mass area]| |]; cbn [bind]; try discriminate.
  cbv zeta.
  match goal with
  | |- context [bind ?x _] => destruct x as [a| |]
  end; cbn [bind]; try discriminate.
  intros H. inversion H; subst. reflexivity.
Qed.

(** X12.  [setLongTime] never stores a negative window, so
    [FindLongTermChngRate( newtime )], on a history whose times grow
    strictly, returns for every [newtime] whenever the sample is taken.  The
    window it leaves is [newtime] when that is positive and zero otherwise,
    and with [newtime <= 0] the long-term rate is the short-term rate. *)
Theorem FindLongTermChngRate_new_window
  (newtime time : R) (m : tMesh) (e e1 : tEquilibCheck.t) (sr : R) :
  increasing (tEquilibCheck.massList e) ->
  tEquilibCheck.FindIterChngRate time m e = Ok (sr, e1) ->
  0 <= tEquilibCheck.longTime (tEquilibCheck.setLongTime newtime e) /\
  exists r e2,
    tEquilibCheck.FindLongTermChngRate_new newtime time m e = Ok (r, e2) /\
    tEquilibCheck.shortRate e2 = sr /\
    tEquilibCheck.longRate e2 = r /\
    (0 < newtime -> tEquilibCheck.longTime e2 = newtime) /\
    (newtime <= 0 -> tEquilibCheck.longTime e2 = 0 /\ r = sr).
Proof.
  intros Hi H.
  pose proof (FindIterChngRate_setLongTime newtime _ _ _ _ _ H) as H'.
  unfold tEquilibCheck.FindLongTermChngRate_new.
  destruct (Rltb_spec 0 newtime) as [Hpos|Hneg].
  - assert (EL : tEquilibCheck.longTime (tEquilibCheck.setLongTime newtime e)
                 = newtime).
    { cbn [tEquilibCheck.setLongTime tEquilibCheck.longTime]. unfold Rgtb.
      now rewrite Rltb_true. }
    split; [rewrite EL; lra|].
    destruct (FindLongTermChngRate_total time m
                (tEquilibCheck.setLongTime newtime e)
                (tEquilibCheck.setLongTime newtime e1) sr)
      as (r & e2 & E & _ & Es & Er & Elt & _);
      [exact Hi | rewrite EL; lra | exact H' |].
    exists r, e2. split; [exact E|]. split; [exact Es|]. split; [exact Er|].
    split; [intros _; congruence|intros; lra].
  - assert (EL : tEquilibCheck.longTime (tEquilibCheck.setLongTime newtime e)
                 = 0).
    { cbn [tEquilibCheck.setLongTime tEquilibCheck.longTime]. unfold Rgtb.
      rewrite Rltb_false by lra. lra. }
    split; [rewrite EL; lra|].
    rewrite (FindLongTermChngRate_short time m _ _ sr H' (or_introl EL)).
    do 2 eexists. split; [reflexivity|].
    cbn [tEquilibCheck.shortRate tEquilibCheck.longRate
         tEquilibCheck.longTime tEquilibCheck.setLongTime].
    split; [reflexivity|]. split; [reflexivity|].
    split; [intros; lra|]. intros _. unfold Rgtb.
    rewrite Rltb_false by lra. split; [lra|reflexivity].
Qed.

Lemma FindLongTermChngRate_new_window_witness :
  0 <= tEquilibCheck.longTime (tEquilibCheck.setLongTime (- 1) (history2 2)).
Proof.
  assert (H1 : increasing (tEquilibCheck.massList (history2 2)))
    by (simpl; repeat split; lra).
  assert (H3 : exists sr e1,
             tEquilibCheck.FindIterChngRate 2 mesh_13_5 (history2 2)
             = Ok (sr, e1)).
  { unfold tEquilibCheck.FindIterChngRate, history2, mesh_13_5.
    simpl. rdecide. simpl. do 2 eexists. reflexivity. }
  destruct H3 as (sr & e1 & H3).
  exact (proj1 (FindLongTermChngRate_new_window (- 1) 2 mesh_13_5
                  (history2 2) e1 sr H1 H3)).
Defined.

(** ** The sub-steps of the integrators *)

Section SubSteps.

Context {S : Type}.
Variable body : R -> S -> result (R * S).
Variables tol delta c : R.
Variable Inv : R -> S -> Prop.
Hypothesis tol_nonneg : 0 <= tol.
Hypothesis delta_pos : 0 < delta.
Hypothesis body_step :
  forall dtg s dt s',
    0 < dtg -> Inv dtg s -> body dtg s = Ok (dt, s') ->
    step_ok delta c dtg dt /\ (tol < dtg - dt -> Inv (dtg - dt) s').

(** Every sub-step of a run is positive, and there is at least one. *)
Lemma do_while_steps_positive (fuel : nat) :
  forall dtg s s' steps,
    0 < dtg -> Inv dtg s ->
    do_while fuel body tol dtg s = Some (Ok (s', steps)) ->
    steps <> [] /\ forall dt, In dt steps -> 0 < dt.
Proof using tol_nonneg delta_pos body_step.
  induction fuel as [|fuel IH]; intros dtg s s' steps Hpos HI H;
    [discriminate|]. simpl in H.
  destruct (body dtg s) as [[dt s1]| |] eqn:Eb; try discriminate.
  destruct (body_step _ _ _ _ Hpos HI Eb) as [[Hlo _] Hinv].
  assert (Hdt : 0 < dt).
  { unfold Rmin in Hlo. destruct (Rle_dec dtg delta); lra. }
  unfold Rgtb in H. destruct (Rltb_spec tol (dtg - dt)) as [Hc|Hc].
  - destruct (do_while fuel body tol (dtg - dt) s1) as [[[s2 st]| |]|] eqn:Er;
      try discriminate.
    assert (Hp : 0 < dtg - dt) by lra.
    destruct (IH _ _ _ _ Hp (Hinv Hc) Er) as [_ Hall].
    inversion H; subst. split; [discriminate|].
    intros x [<-|Hx]; auto.
  - inversion H; subst. split; [discriminate|].
    intros x [<-|[]]. exact Hdt.
Qed.

(** With [n] floors to go at most, a run takes [n+1] sub-steps at most. *)
Lemma do_while_steps_count (n : nat) :
  forall fuel dtg s s' steps,
    0 < dtg -> Inv dtg s -> dtg <= tol + INR n * delta ->
    do_while fuel body tol dtg s = Some (Ok (s', steps)) ->
    (List.length steps <= Datatypes.S n)%nat.
Proof using tol_nonneg delta_pos body_step.
  induction n as [|n IH]; intros fuel dtg s s' steps Hpos HI Hle H;
    (destruct fuel as [|fuel]; [discriminate|]); simpl in H;
    destruct (body dtg s) as [[dt s1]| |] eqn:Eb; try discriminate;
    destruct (body_step _ _ _ _ Hpos HI Eb) as [[Hlo _] Hinv];
    unfold Rgtb in H; destruct (Rltb_spec tol (dtg - dt)) as [Hc|Hc];
    try (inversion H; subst; simpl; lia).
  - exfalso. simpl in Hle. unfold Rmin in Hlo.
    destruct (Rle_dec dtg delta); lra.
  - assert (Hd : delta <= dt).
    { unfold Rmin in Hlo. destruct (Rle_dec dtg delta); lra. }
    destruct (do_while fuel body tol (dtg - dt) s1) as [[[s2 st]| |]|] eqn:Er;
      try discriminate.
    assert (Hst : (List.length st <= Datatypes.S n)%nat).
    { apply (IH fuel (dtg - dt) s1 s2 st); try lra; try assumption.
      - now apply Hinv.
      - rewrite S_INR in Hle. lra. }
    inversion H; subst. simpl. lia.
Qed.

End SubSteps.

Lemma finish_steps {S : Type} (f : S -> tMesh)
  (r : option (result (S * list R))) (m' : tMesh) (steps : list R) :
  finish f r = Some (Ok (m', steps)) ->
  exists s, r = Some (Ok (s, steps)).
Proof.
  unfold finish. destruct r as [[[s st]| |]|]; try discriminate.
  intros H; inversion H; subst. eauto.
Qed.

Lemma finish_None {S : Type} (f : S -> tMesh)
  (r : option (result (S * list R))) :
  r <> None -> finish f r <> None.
Proof. unfold finish. destruct r as [[[s st]| |]|]; congruence. Qed.

(** The three facts for a loop whose sub-steps keep to a floor [delta]. *)
Lemma loop_steps {S : Type} (body : R -> S -> result (R * S))
  (tol delta c : R) (dtg : R) (s : S) :
  0 <= tol -> 0 < delta -> 0 < dtg ->
  (forall dtg s dt s',
     0 < dtg -> body dtg s = Ok (dt, s') -> step_ok delta c dtg dt) ->
  (forall fuel s' steps,
     do_while fuel body tol dtg s = Some (Ok (s', steps)) ->
     steps <> [] /\ forall dt, In dt steps -> 0 < dt) /\
  (forall n : nat,
     dtg <= tol + INR n * delta ->
     (forall fuel, (n < fuel)%nat -> do_while fuel body tol dtg s <> None) /\
     (forall fuel s' steps,
        do_while fuel body tol dtg s = Some (Ok (s', steps)) ->
        (List.length steps <= Datatypes.S n)%nat)).
Proof.
  intros Ht Hd Hpos Hb.
  assert (Hstep : forall dtg s dt s',
             0 < dtg -> (fun (_ : R) (_ : S) => True) dtg s ->
             body dtg s = Ok (dt, s') ->
             step_ok delta c dtg dt /\
             (tol < dtg - dt -> (fun (_ : R) (_ : S) => True) (dtg - dt) s')).
  { intros. split; [eauto|trivial]. }
  split; [|intros n Hn; split].
  - intros fuel s' steps E.
    exact (do_while_steps_positive body tol delta c _ Ht Hd Hstep
             fuel dtg s s' steps Hpos I E).
  - intros fuel Hf.
    exact (do_while_fuel body tol delta c _ Ht Hd Hstep n dtg s Hpos I Hn
             fuel Hf).
  - intros fuel s' steps E.
    exact (do_while_steps_count body tol delta c _ Ht Hd Hstep n
             fuel dtg s s' steps Hpos I Hn E).
Qed.

(** X13.  In a run of an integrator over a positive time increment, every
    sub-step is positive and there is at least one: the time always
    advances.  This holds of ErodeDetachLim (both variants), StreamErode,
    StreamErodeMulti, DetachErode (when rain exceeds infiltration; it takes
    no sub-step otherwise) and Diffuse (on edges of positive length),
    whatever the collaborators do. *)
Theorem substeps_are_positive (dtg : R) :
  0 < dtg ->
  (forall fuel ops er strmNet m m' steps,
     ErodeDetachLim fuel ops er dtg strmNet m = Some (Ok (m', steps)) ->
     steps <> [] /\ forall dt, In dt steps -> 0 < dt) /\
  (forall fuel ops er strmNet UPtr m m' steps,
     ErodeDetachLimU fuel ops er dtg strmNet UPtr m = Some (Ok (m', steps)) ->
     steps <> [] /\ forall dt, In dt steps -> 0 < dt) /\
  (forall fuel c ops er strmNet m m' steps,
     StreamErode fuel c ops er dtg strmNet m = Some (Ok (m', steps)) ->
     steps <> [] /\ forall dt, In dt steps -> 0 < dt) /\
  (forall fuel c ops er strmNet time m m' steps,
     StreamErodeMulti fuel c ops er dtg strmNet time m
     = Some (Ok (m', steps)) ->
     steps <> [] /\ forall dt, In dt steps -> 0 < dt) /\
  (forall fuel lfuel c ops er strmNet time m m' steps,
     0 < getRainRate strmNet - getInfilt strmNet ->
     DetachErode fuel lfuel c ops er dtg strmNet time m
     = Some (Ok (m', steps)) ->
     steps <> [] /\ forall dt, In dt steps -> 0 < dt) /\
  (forall fuel ops er noDepoFlag m m' steps,
     (forall ce, In ce (edges m) -> 0 < elength ce) ->
     Diffuse fuel ops er dtg noDepoFlag m = Some (Ok (m', steps)) ->
     steps <> [] /\ forall dt, In dt steps -> 0 < dt).
Proof.
  intros Hpos. split; [|split; [|split; [|split; [|split]]]].
  - intros fuel ops er strmNet m m' steps E. unfold ErodeDetachLim in E.
    refine (proj1 (loop_steps _ 0.0000001 0.000005 0 dtg _ _ _ Hpos _)
              fuel m' steps E); try lra.
    intros. eapply ErodeDetachLim_body_ok; eassumption.
  - intros fuel ops er strmNet UPtr m m' steps E. unfold ErodeDetachLimU in E.
    assert (Hmin : 0 < dtg * 0.0001) by lra.
    refine (proj1 (loop_steps _ 0 (dtg * 0.0001) (dtg * 0.0001) dtg _ _ _
                     Hpos _) fuel m' steps E); try lra.
    intros. eapply ErodeDetachLimU_body_ok; eassumption.
  - intros fuel c ops er strmNet m m' steps E. unfold StreamErode in E.
    refine (proj1 (loop_steps _ 1e-6 1e-8 1e-8 dtg _ _ _ Hpos _)
              fuel m' steps E); try lra.
    intros. eapply StreamErode_body_ok; eassumption.
  - intros fuel c ops er strmNet time m m' steps E.
    unfold StreamErodeMulti in E.
    destruct (firstNumg m) as [k| |]; try discriminate.
    apply finish_steps in E. destruct E as (s & E).
    refine (proj1 (loop_steps _ 1e-6 3e-7 0.0015 dtg _ _ _ Hpos _)
              fuel s steps E); try lra.
    intros. eapply StreamErodeMulti_body_ok; eassumption.
  - intros fuel lfuel c ops er strmNet time m m' steps Hr E.
    unfold DetachErode, Rgtb in E. rewrite Rltb_true in E by exact Hr.
    destruct (firstNumg m) as [k| |]; try discriminate.
    apply finish_steps in E. destruct E as (s & E).
    refine (proj1 (loop_steps _ 1e-6 3e-5 3e-5 dtg _ _ _ Hpos _)
              fuel s steps E); try lra.
    intros. eapply DetachErode_body_ok; eassumption.
  - intros fuel ops er noDepoFlag m m' steps Hlen E. unfold Diffuse in E.
    apply finish_steps in E. destruct E as (s & E).
    destruct (Diffuse_dtmax_ok er (edges m) dtg Hpos Hlen) as [Hd0 Hd1].
    set (d0 := Diffuse_dtmax er (edges m) dtg) in *.
    assert (Hstep : forall rt st dt st',
               0 < rt -> Diffuse_inv d0 rt st ->
               Diffuse_body ops er noDepoFlag rt st = Ok (dt, st') ->
               step_ok d0 0 rt dt /\
               (0.0 < rt - dt -> Diffuse_inv d0 (rt - dt) st')).
    { intros. eapply Diffuse_body_ok; eassumption. }
    assert (HI : Diffuse_inv d0 dtg (d0, m)).
    { unfold Diffuse_inv. simpl. minmax; lra. }
    refine (do_while_steps_positive _ 0.0 d0 0 (Diffuse_inv d0) _ Hd0 Hstep
              fuel dtg _ s steps Hpos HI E). lra.
Qed.

(** A run of ErodeDetachLim with uplift that takes two sub-steps. *)
Lemma ErodeDetachLimU_run :
  exists m',
    ErodeDetachLimU 2 ops0 erosion0 1 strmNet0 uplift0
      (mesh_of (node_at 9.99995 0 0 0))
    = Some (Ok (m', [0.999995; 0.0001])).
Proof.
  unfold ErodeDetachLimU. simpl.
  rewrite ErodeDetachLimU_pass.
  assert (E1 : selU 9.99995 (1 * 0.0001) 1 = 0.999995).
  { unfold selU. rdecide. simpl. lra. }
  rewrite E1. unfold Rgtb. rewrite (Rltb_true 0 (1 - 0.999995)) by lra.
  rewrite ErodeDetachLimU_pass.
  assert (E2 : selU (9.99995 - 0.999995) (1 * 0.0001) (1 - 0.999995)
               = 0.0001).
  { unfold selU. rdecide. simpl. lra. }
  rewrite E2. rewrite Rltb_false by lra.
  eexists. reflexivity.
Qed.

Lemma substeps_are_positive_witness :
  0 < 1 /\
  exists m' steps,
    ErodeDetachLimU 2 ops0 erosion0 1 strmNet0 uplift0
      (mesh_of (node_at 9.99995 0 0 0))
    = Some (Ok (m', steps)) /\
    steps <> [] /\ forall dt, In dt steps -> 0 < dt.
Proof.
  assert (H : 0 < 1) by lra.
  split; [exact H|].
  destruct ErodeDetachLimU_run as (m' & E).
  exists m', [0.999995; 0.0001]. split; [exact E|].
  exact (proj1 (proj2 (substeps_are_positive 1 H)) 2%nat ops0 erosion0
           strmNet0 uplift0 (mesh_of (node_at 9.99995 0 0 0)) m'
           [0.999995; 0.0001] E).
Defined.

#[local] Set Warnings "-abstract-large-number".

Lemma INR_10000 : INR 10000 = 10000.
Proof. rewrite INR_IZR_INZ. reflexivity. Qed.

(** X14.  The number of sub-steps of a run over a positive time increment
    [dtg] is bounded by the floor the integrator keeps its sub-steps above.
    ErodeDetachLim with uplift, whose floor is [dtg*0.0001], returns within
    10001 passes and takes at most 10001 sub-steps, whatever [dtg] is.
    ErodeDetachLim, StreamErode, StreamErodeMulti and DetachErode, whose
    floors are 0.000005, 1e-8, 3e-7 and 3e-5, return within [n+1] passes and
    take at most [n+1] sub-steps once [n] floors cover [dtg] less the exit
    tolerance. *)
Theorem substep_budgets (dtg : R) :
  0 < dtg ->
  (forall ops er strmNet UPtr m,
     (forall fuel, (10000 < fuel)%nat ->
        ErodeDetachLimU fuel ops er dtg strmNet UPtr m <> None) /\
     (forall fuel m' steps,
        ErodeDetachLimU fuel ops er dtg strmNet UPtr m
        = Some (Ok (m', steps)) ->
        (List.length steps <= 10001)%nat)) /\
  (forall n : nat,
     (dtg <= 0.0000001 + INR n * 0.000005 ->
      forall ops er strmNet m,
        (forall fuel, (n < fuel)%nat ->
           ErodeDetachLim fuel ops er dtg strmNet m <> None) /\
        (forall fuel m' steps,
           ErodeDetachLim fuel ops er dtg strmNet m = Some (Ok (m', steps)) ->
           (List.length steps <= Datatypes.S n)%nat)) /\
     (dtg <= 1e-6 + INR n * 1e-8 ->
      forall c ops er strmNet m,
        (forall fuel, (n < fuel)%nat ->
           StreamErode fuel c ops er dtg strmNet m <> None) /\
        (forall fuel m' steps,
           StreamErode fuel c ops er dtg strmNet m = Some (Ok (m', steps)) ->
           (List.length steps <= Datatypes.S n)%nat)) /\
     (dtg <= 1e-6 + INR n * 3e-7 ->
      forall c ops er strmNet time m,
        (forall fuel, (n < fuel)%nat ->
           StreamErodeMulti fuel c ops er dtg strmNet time m <> None) /\
        (forall fuel m' steps,
           StreamErodeMulti fuel c ops er dtg strmNet time m
           = Some (Ok (m', steps)) ->
           (List.length steps <= Datatypes.S n)%nat)) /\
     (dtg <= 1e-6 + INR n * 3e-5 ->
      forall lfuel c ops er strmNet time m,
        (forall fuel, (n < fuel)%nat ->
           DetachErode fuel lfuel c ops er dtg strmNet time m <> None) /\
        (forall fuel m' steps,
           DetachErode fuel lfuel c ops er dtg strmNet time m
           = Some (Ok (m', steps)) ->
           (List.length steps <= Datatypes.S n)%nat))).
Proof.
  intros Hpos. split.
  - intros ops er strmNet UPtr m. unfold ErodeDetachLimU.
    assert (Hmin : 0 < dtg * 0.0001) by lra.
    assert (Hn : dtg <= 0 + INR 10000 * (dtg * 0.0001))
      by (rewrite INR_10000; lra).
    destruct (loop_steps (ErodeDetachLimU_body ops er UPtr (dtg * 0.0001))
                0 (dtg * 0.0001) (dtg * 0.0001) dtg
                (FindHydrGeom strmNet (FindChanGeom strmNet m)))
      as [_ Hb]; try lra.
    { intros. eapply ErodeDetachLimU_body_ok; eassumption. }
    exact (Hb 10000%nat Hn).
  - intros n. split; [|split; [|split]].
    + intros Hn ops er strmNet m. unfold ErodeDetachLim.
      destruct (loop_steps (ErodeDetachLim_body ops er) 0.0000001 0.000005 0
                  dtg (FindHydrGeom strmNet (FindChanGeom strmNet m)))
        as [_ Hb]; try lra.
      { intros. eapply ErodeDetachLim_body_ok; eassumption. }
      exact (Hb n Hn).
    + intros Hn c ops er strmNet m. unfold StreamErode.
      destruct (loop_steps (StreamErode_body c ops er strmNet) 1e-6 1e-8 1e-8
                  dtg (SortNodesByNetOrder strmNet m))
        as [_ Hb]; try lra.
      { intros. eapply StreamErode_body_ok; eassumption. }
      exact (Hb n Hn).
    + intros Hn c ops er strmNet time m. unfold StreamErodeMulti.
      destruct (firstNumg m) as [k| |];
        [|split; [discriminate|intros; discriminate]
         |split; [discriminate|intros; discriminate]].
      match goal with
      | |- context [do_while _ ?b ?tol dtg ?s] =>
          destruct (loop_steps b tol 3e-7 0.0015 dtg s) as [_ Hb]; try lra
      end.
      { intros. eapply StreamErodeMulti_body_ok; eassumption. }
      destruct (Hb n Hn) as [H1 H2]. split.
      * intros fuel Hf. apply finish_None. now apply H1.
      * intros fuel m' steps E. apply finish_steps in E.
        destruct E as (s & E). eapply H2; eassumption.
    + intros Hn lfuel c ops er strmNet time m. unfold DetachErode.
      destruct (getRainRate strmNet - getInfilt strmNet >? 0);
        [|split; [discriminate|intros fuel m' steps E; inversion E; simpl; lia]].
      destruct (firstNumg m) as [k| |];
        [|split; [discriminate|intros; discriminate]
         |split; [discriminate|intros; discriminate]].
      match goal with
      | |- context [do_while _ ?b ?tol dtg ?s] =>
          destruct (loop_steps b tol 3e-5 3e-5 dtg s) as [_ Hb]; try lra
      end.
      { intros. eapply DetachErode_body_ok; eassumption. }
      destruct (Hb n Hn) as [H1 H2]. split.
      * intros fuel Hf. apply finish_None. now apply H1.
      * intros fuel m' steps E. apply finish_steps in E.
        destruct E as (s & E). eapply H2; eassumption.
Qed.

Lemma substep_budgets_witness :
  0 < 1 /\
  ErodeDetachLimU 10001 ops0 erosion0 1 strmNet0 uplift0
    (mesh_of (node_at 10 0 0 0)) <> None.
Proof.
  assert (H : 0 < 1) by lra.
  split; [exact H|].
  refine (proj1 (proj1 (substep_budgets 1 H) ops0 erosion0 strmNet0 uplift0
                   (mesh_of (node_at 10 0 0 0))) 10001%nat _).
  apply Nat.lt_succ_diag_r.
Defined.

(** ** ErodeDetachLim only erodes *)

(** No layer of the node has a negative erodibility. *)
Definition erody_ok (n : tLNode) : Prop :=
  forall l, In l (layerlist n) -> 0 <= lerody l.

(** No node of [ns'] stands higher than in [ns]. *)
Definition not_raised (ns ns' : list tLNode) : Prop :=
  List.length ns' = List.length ns /\
  forall i n n',
    nth_error ns i = Some n -> nth_error ns' i = Some n' -> z n' <= z n.

Lemma not_raised_refl (ns : list tLNode) : not_raised ns ns.
Proof.
  split; [reflexivity|]. intros i n n' H H'. rewrite H in H'.
  inversion H'; subst. lra.
Qed.

Lemma not_raised_trans (a b c : list tLNode) :
  not_raised a b -> not_raised b c -> not_raised a c.
Proof.
  intros [L1 H1] [L2 H2]. split; [congruence|].
  intros i n n' Ha Hc.
  destruct (nth_error b i) as [nb|] eqn:Eb.
  - pose proof (H1 _ _ _ Ha Eb). pose proof (H2 _ _ _ Eb Hc). lra.
  - apply nth_error_None in Eb.
    assert (nth_error a i <> None) by congruence.
    apply nth_error_Some in H. lia.
Qed.

Lemma not_raised_upd (ns : list tLNode) (i : nat) (cn cn' : tLNode) :
  nth_error ns i = Some cn -> z cn' <= z cn -> not_raised ns (upd ns i cn').
Proof.
  intros E Hz. split; [apply upd_length|].
  intros j n n' Hn Hn'. rewrite nth_error_upd in Hn'.
  destruct (Nat.eqb_spec i j) as [->|Hij].
  - rewrite E in Hn. inversion Hn; subst.
    destruct (j <? List.length ns)%nat; inversion Hn'; subst. exact Hz.
  - rewrite Hn in Hn'. inversion Hn'; subst. lra.
Qed.

Lemma In_upd {A : Type} (l : list A) (i : nat) (a x : A) :
  In x (upd l i a) -> x = a \/ In x l.
Proof.
  revert i. induction l as [|h t IH]; intros [|i] H; simpl in *; auto.
  - destruct H as [<-|H]; auto.
  - destruct H as [<-|H]; auto. destruct (IH _ H); auto.
Qed.

Lemma withNode_inv (ns ns' : list tLNode) (i : nat)
  (f : tLNode -> result tLNode) :
  withNode ns i f = Ok ns' ->
  exists cn cn', nth_error ns i = Some cn /\ f cn = Ok cn' /\
                 ns' = upd ns i cn'.
Proof.
  unfold withNode. intros H.
  apply bind_Ok in H. destruct H as (cn & Ecn & H).
  apply bind_Ok in H. destruct H as (cn' & Ef & H).
  inversion H; subst. apply getNode_Ok in Ecn. eauto.
Qed.

(** The detachment capacity of a node whose top layer has a non-negative
    erodibility is not negative. *)
Lemma DetachCapacity_nonneg (b : tBedErodePwrLaw.t) (n n' : tLNode) (v : R) :
  tBedErodePwrLaw.DetachCapacity b n = Ok (v, n') -> erody_ok n -> 0 <= v.
Proof.
  unfold tBedErodePwrLaw.DetachCapacity. intros H He.
  apply bind_Ok in H. destruct H as (u1 & _ & H).
  apply bind_Ok in H. destruct H as (u2 & _ & H).
  destruct (floodstatus n); [inversion H; subst; lra|].
  cbv zeta in H. destruct (slope n <? 0); [discriminate|].
  apply bind_Ok in H. destruct H as (u3 & _ & H).
  apply bind_Ok in H. destruct H as (u4 & _ & H).
  apply bind_Ok in H. destruct H as (e & Ee & H).
  inversion H; subst.
  unfold getLayerErody, getLayer, subscript in Ee.
  cbn [layerlist setTau] in Ee.
  destruct (nth_error (layerlist n) 0) as [l|] eqn:El; [|discriminate].
  cbn [bind] in Ee. inversion Ee; subst.
  apply Rmult_le_pos; [|apply pow_nonneg].
  apply He. eapply nth_error_In; eassumption.
Qed.

(** The pass that finds the rates: elevations and layers stay, and the rate
    of every node it visits is not positive. *)
Lemma ErodeDetachLim_rates_sign (er : tErosion) :
  forall (act : list nat) (ns ns' : list tLNode),
    ErodeDetachLim_rates er act ns = Ok ns' ->
    (forall n, In n ns -> erody_ok n) ->
    not_raised ns ns' /\
    (forall n, In n ns' -> erody_ok n) /\
    (forall j n n',
       nth_error ns j = Some n -> nth_error ns' j = Some n' ->
       dzdt n <= 0 \/ In j act -> dzdt n' <= 0).
Proof.
  unfold ErodeDetachLim_rates.
  induction act as [|i rest IH]; intros ns ns' H He.
  - inversion H; subst. split; [apply not_raised_refl|]. split; [exact He|].
    intros j n n' Hn Hn' [Hd|[]]. congruence.
  - cbn [forM] in H. apply bind_Ok in H. destruct H as (ns1 & H1 & H).
    apply withNode_inv in H1. destruct H1 as (cn & cn' & Ecn & Ef & ->).
    apply bind_Ok in Ef. destruct Ef as ([cap cn1] & Ecap & Ef).
    inversion Ef; subst; clear Ef.
    destruct (DetachCapacity_written _ _ _ _ Ecap) as (K & _ & _).
    assert (Hcn : erody_ok cn) by (apply He; eapply nth_error_In; eassumption).
    pose proof (DetachCapacity_nonneg _ _ _ _ Ecap Hcn) as Hcap.
    set (cn2 := setDzDt (- cap) cn1) in *.
    assert (He1 : forall n, In n (upd ns i cn2) -> erody_ok n).
    { intros n Hn. apply In_upd in Hn. destruct Hn as [->|Hn]; [|auto].
      unfold erody_ok, cn2. cbn [layerlist setDzDt].
      rewrite (kept_layerlist _ _ K). exact Hcn. }
    destruct (IH _ _ H He1) as (R1 & E1 & D1).
    assert (R0 : not_raised ns (upd ns i cn2)).
    { apply (not_raised_upd ns i cn); [exact Ecn|].
      unfold cn2. cbn [z setDzDt]. rewrite (kept_z _ _ K). lra. }
    split; [eapply not_raised_trans; eassumption|]. split; [exact E1|].
    intros j n n' Hn Hn' Hor.
    destruct (nth_error (upd ns i cn2) j) as [n1|] eqn:En1.
    + apply (D1 j n1 n' En1 Hn').
      rewrite nth_error_upd in En1.
      destruct (Nat.eqb_spec i j) as [->|Hij].
      * left. destruct (j <? List.length ns)%nat; inversion En1; subst.
        unfold cn2. cbn [dzdt setDzDt]. lra.
      * rewrite Hn in En1. inversion En1; subst.
        destruct Hor as [Hd|[Hj|Hj]]; [left; exact Hd|congruence|right; exact Hj].
    + exfalso. apply nth_error_None in En1. rewrite upd_length in En1.
      assert (nth_error ns j <> None) by congruence.
      apply nth_error_Some in H0. lia.
Qed.

Section ErosionOnly.

Variable ops : tNodeOps.

(** What is asked of [EroDep]: asked to erode one size class, it does not
    raise the node; and it makes no erodibility negative. *)
Hypothesis EroDep_lowers :
  forall i v tt n ret n',
    EroDep ops i [v] tt n = Ok (ret, n') -> v <= 0 -> z n' <= z n.
Hypothesis EroDep_erody :
  forall i v tt n ret n',
    EroDep ops i v tt n = Ok (ret, n') -> erody_ok n -> erody_ok n'.

(** The pass that applies the rates over a positive sub-step. *)
Lemma ErodeDetachLim_apply_lowers (dtmax : R) :
  0 < dtmax ->
  forall (act : list nat) (ns ns' : list tLNode),
    NoDup act ->
    ErodeDetachLim_apply ops act dtmax ns = Ok ns' ->
    (forall n, In n ns -> erody_ok n) ->
    (forall j n, In j act -> nth_error ns j = Some n -> dzdt n <= 0) ->
    not_raised ns ns' /\ (forall n, In n ns' -> erody_ok n).
Proof using EroDep_lowers EroDep_erody.
  intros Hdt. unfold ErodeDetachLim_apply.
  induction act as [|i rest IH]; intros ns ns' Hnd H He Hd.
  - inversion H; subst. split; [apply not_raised_refl|exact He].
  - cbn [forM] in H. apply bind_Ok in H. destruct H as (ns1 & H1 & H).
    apply withNode_inv in H1. destruct H1 as (cn & cn' & Ecn & Ef & ->).
    cbv zeta in Ef. apply bind_Ok in Ef. destruct Ef as ([ret cn1] & Eero & Ef).
    inversion Ef; subst; clear Ef.
    inversion Hnd as [|? ? Hni Hnd']; subst.
    assert (Hcn : erody_ok cn) by (apply He; eapply nth_error_In; eassumption).
    assert (Hv : dzdt cn * dtmax <= 0).
    { pose proof (Hd i cn (or_introl eq_refl) Ecn). nra. }
    pose proof (EroDep_lowers _ _ _ _ _ _ Eero Hv) as Hz.
    pose proof (EroDep_erody _ _ _ _ _ _ Eero Hcn) as He'.
    destruct (IH (upd ns i cn') ns' Hnd' H) as (R1 & E1).
    { intros n Hn. apply In_upd in Hn. destruct Hn as [->|Hn]; auto. }
    { intros j n Hj Hn. rewrite nth_error_upd in Hn.
      destruct (Nat.eqb_spec i j) as [->|Hij]; [contradiction|].
      apply (Hd j n); [now right|exact Hn]. }
    split; [|exact E1].
    eapply not_raised_trans; [|exact R1].
    apply (not_raised_upd ns i cn); assumption.
Qed.

(** One pass of the loop, for either way of choosing the sub-step. *)
Lemma ErodeDetachLim_pass_lowers (er : tErosion)
  (dtmax_of : list nat -> list tLNode -> R -> result R) (dtg : R)
  (m m' : tMesh) (dt : R) :
  (forall act ns d, dtmax_of act ns dtg = Ok d -> 0 < d) ->
  NoDup (active m) ->
  (forall n, In n (nodes m) -> erody_ok n) ->
  (ns <- ErodeDetachLim_rates er (active m) (nodes m) ;;
   dtmax <- dtmax_of (active m) ns dtg ;;
   ns <- ErodeDetachLim_apply ops (active m) dtmax ns ;;
   Ok (dtmax, setNodes ns m)) = Ok (dt, m') ->
  not_raised (nodes m) (nodes m') /\
  (forall n, In n (nodes m') -> erody_ok n) /\
  active m' = active m.
Proof using EroDep_lowers EroDep_erody.
  intros Hdt Hnd He H.
  apply bind_Ok in H. destruct H as (ns1 & H1 & H).
  apply bind_Ok in H. destruct H as (d & H2 & H).
  apply bind_Ok in H. destruct H as (ns2 & H3 & H).
  inversion H; subst; clear H.
  destruct (ErodeDetachLim_rates_sign er _ _ _ H1 He) as (R1 & E1 & D1).
  destruct (ErodeDetachLim_apply_lowers dt (Hdt _ _ _ H2) _ _ _ Hnd H3 E1)
    as (R2 & E2).
  { intros j n Hj Hn.
    destruct (nth_error (nodes m) j) as [n0|] eqn:E0.
    - apply (D1 j n0 n E0 Hn). now right.
    - exfalso. apply nth_error_None in E0. destruct R1 as [L1 _].
      assert (nth_error ns1 j <> None) by congruence.
      apply nth_error_Some in H. lia. }
  cbn [nodes setNodes]. split; [eapply not_raised_trans; eassumption|].
  split; [exact E2|reflexivity].
Qed.

End ErosionOnly.

(** A property of the state that every pass keeps holds when the loop
    ends. *)
Lemma do_while_keeps {S : Type} (body : R -> S -> result (R * S)) (tol : R)
  (P : S -> Prop) :
  0 <= tol ->
  (forall dtg s dt s', 0 < dtg -> P s -> body dtg s = Ok (dt, s') -> P s') ->
  forall fuel dtg s s' steps,
    0 < dtg -> P s ->
    do_while fuel body tol dtg s = Some (Ok (s', steps)) -> P s'.
Proof.
  intros Ht Hb. induction fuel as [|fuel IH]; intros dtg s s' steps Hpos Hs H;
    [discriminate|]. simpl in H.
  destruct (body dtg s) as [[dt s1]| |] eqn:Eb; try discriminate.
  pose proof (Hb _ _ _ _ Hpos Hs Eb) as H1.
  unfold Rgtb in H. destruct (Rltb_spec tol (dtg - dt)) as [Hc|Hc].
  - destruct (do_while fuel body tol (dtg - dt) s1) as [[[s2 st]| |]|] eqn:Er;
      try discriminate.
    inversion H; subst. apply (IH (dtg - dt) s1 s' st); try assumption. lra.
  - inversion H; subst. exact H1.
Qed.

(** X15.  ErodeDetachLim, in both variants, only erodes.  For an [EroDep]
    that does not raise a node when asked to erode and that makes no
    erodibility negative, on a mesh (as the geometry collaborators leave it)
    whose active list names no node twice and whose layers have no negative
    erodibility: over a run for a positive time increment no node ends
    higher than it started, whatever the sub-steps taken. *)
Theorem ErodeDetachLim_only_erodes
  (ops : tNodeOps) (er : tErosion) (strmNet : tStreamNet) (UPtr : tUplift)
  (m : tMesh) (dtg : R) :
  (forall i v tt n ret n',
     EroDep ops i [v] tt n = Ok (ret, n') -> v <= 0 -> z n' <= z n) ->
  (forall i v tt n ret n',
     EroDep ops i v tt n = Ok (ret, n') -> erody_ok n -> erody_ok n') ->
  0 < dtg ->
  NoDup (active (FindHydrGeom strmNet (FindChanGeom strmNet m))) ->
  (forall n, In n (nodes (FindHydrGeom strmNet (FindChanGeom strmNet m))) ->
             erody_ok n) ->
  (forall fuel m' steps i n n',
     ErodeDetachLim fuel ops er dtg strmNet m = Some (Ok (m', steps)) ->
     nth_error (nodes (FindHydrGeom strmNet (FindChanGeom strmNet m))) i
     = Some n ->
     nth_error (nodes m') i = Some n' -> z n' <= z n) /\
  (forall fuel m' steps i n n',
     ErodeDetachLimU fuel ops er dtg strmNet UPtr m = Some (Ok (m', steps)) ->
     nth_error (nodes (FindHydrGeom strmNet (FindChanGeom strmNet m))) i
     = Some n ->
     nth_error (nodes m') i = Some n' -> z n' <= z n).
Proof.
  intros Hlow Hero Hpos Hnd He.
  set (m0 := FindHydrGeom strmNet (FindChanGeom strmNet m)) in *.
  set (P := fun m1 : tMesh =>
              not_raised (nodes m0) (nodes m1) /\
              (forall n, In n (nodes m1) -> erody_ok n) /\
              active m1 = active m0).
  assert (P0 : P m0).
  { split; [apply not_raised_refl|]. split; [exact He|reflexivity]. }
  split.
  - intros fuel m' steps i n n' E Hn Hn'. unfold ErodeDetachLim in E.
    fold m0 in E.
    assert (HP : P m').
    { refine (do_while_keeps (ErodeDetachLim_body ops er) 0.0000001 P _ _
                fuel dtg m0 m' steps Hpos P0 E); [lra|].
      intros d s dt s' Hd (R0 & E0 & A0) Hb.
      destruct (ErodeDetachLim_pass_lowers ops Hlow Hero er
                  ErodeDetachLim_dtmax d s s' dt) as (R1 & E1 & A1);
        try assumption.
      - intros act ns x Hx.
        pose proof (ErodeDetachLim_dtmax_ok act ns d x Hd Hx). minmax; lra.
      - rewrite A0. exact Hnd.
      - split; [eapply not_raised_trans; eassumption|].
        split; [exact E1|congruence]. }
    destruct HP as ((_ & Hr) & _). exact (Hr i n n' Hn Hn').
  - intros fuel m' steps i n n' E Hn Hn'. unfold ErodeDetachLimU in E.
    fold m0 in E. cbv zeta in E.
    assert (Hmin : 0 < dtg * 0.0001) by lra.
    assert (HP : P m').
    { refine (do_while_keeps
                (ErodeDetachLimU_body ops er UPtr (dtg * 0.0001)) 0 P _ _
                fuel dtg m0 m' steps Hpos P0 E); [lra|].
      intros d s dt s' Hd (R0 & E0 & A0) Hb.
      destruct (ErodeDetachLim_pass_lowers ops Hlow Hero er
                  (ErodeDetachLimU_dtmax UPtr (dtg * 0.0001)) d s s' dt)
        as (R1 & E1 & A1); try assumption.
      - intros act ns x Hx.
        pose proof (ErodeDetachLimU_dtmax_ok UPtr _ act ns d x Hd Hmin Hx).
        minmax; lra.
      - rewrite A0. exact Hnd.
      - split; [eapply not_raised_trans; eassumption|].
        split; [exact E1|congruence]. }
    destruct HP as ((_ & Hr) & _). exact (Hr i n n' Hn Hn').
Qed.

Lemma ErodeDetachLim_only_erodes_witness :
  exists m',
    ErodeDetachLimU 2 ops0 erosion0 1 strmNet0 uplift0
      (mesh_of (node_at 9.99995 0 0 0))
    = Some (Ok (m', [0.999995; 0.0001])) /\
    forall n', nth_error (nodes m') 0 = Some n' ->
               z n' <= z (node_at 9.99995 0 0 0).
Proof.
  destruct ErodeDetachLimU_run as (m' & E).
  assert (H1 : forall i v tt n ret n',
             EroDep ops0 i [v] tt n = Ok (ret, n') -> v <= 0 -> z n' <= z n).
  { intros i v tt n ret n' H Hv. inversion H; subst.
    cbn [z setZ Rsum fold_right]. lra. }
  assert (H2 : forall i v tt n ret n',
             EroDep ops0 i v tt n = Ok (ret, n') -> erody_ok n -> erody_ok n').
  { intros i v tt n ret n' H Hn. inversion H; subst. exact Hn. }
  assert (H3 : 0 < 1) by lra.
  assert (H4 : NoDup (active (FindHydrGeom strmNet0
                                (FindChanGeom strmNet0
                                   (mesh_of (node_at 9.99995 0 0 0)))))).
  { cbn. constructor; [intros []|constructor]. }
  assert (H5 : forall n,
             In n (nodes (FindHydrGeom strmNet0
                            (FindChanGeom strmNet0
                               (mesh_of (node_at 9.99995 0 0 0))))) ->
             erody_ok n).
  { intros n [<-|[<-|[]]] l [<-|[]]; cbn; lra. }
  exists m'. split; [exact E|]. intros n' En.
  exact (proj2 (ErodeDetachLim_only_erodes ops0 erosion0 strmNet0 uplift0
                  (mesh_of (node_at 9.99995 0 0 0)) 1 H1 H2 H3 H4 H5)
           2%nat m' [0.999995; 0.0001] 0%nat (node_at 9.99995 0 0 0) n'
           E eq_refl En).
Defined.

(** ** Diffuse *)

(** The sediment influx summed over the nodes. *)
Definition total_qsin (ns : list tLNode) : R := Rsum (map qsin ns).

(** [n'] is [n] but for its sediment influx [Qsin]. *)
Definition same_but_qsin (n n' : tLNode) : Prop := setQsin 0 n' = setQsin 0 n.

Lemma map_upd {A B : Type} (f : A -> B) (l : list A) (i : nat) (a : A) :
  map f (upd l i a) = upd (map f l) i (f a).
Proof.
  revert i. induction l as [|h t IH]; intros [|i]; simpl; try reflexivity.
  now rewrite IH.
Qed.

Lemma onNode_addQsin_total (ns ns' : list tLNode) (i : nat) (v : R) :
  onNode ns i (addQsin v) = Ok ns' ->
  total_qsin ns' = total_qsin ns + v /\
  List.length ns' = List.length ns /\
  forall j n n',
    nth_error ns j = Some n -> nth_error ns' j = Some n' -> same_but_qsin n n'.
Proof.
  unfold onNode. intros H. apply withNode_inv in H.
  destruct H as (cn & cn' & Ecn & Ef & ->). inversion Ef; subst; clear Ef.
  split; [|split].
  - unfold total_qsin. rewrite map_upd.
    rewrite (Rsum_upd _ _ (qsin cn)) by (now apply map_nth_error).
    unfold addQsin. cbn [qsin setQsin]. ring.
  - apply upd_length.
  - intros j n n' Hn Hn'. rewrite nth_error_upd in Hn'.
    destruct (Nat.eqb_spec i j) as [->|Hij].
    + rewrite Ecn in Hn. inversion Hn; subst.
      destruct (j <? List.length ns)%nat; inversion Hn'; subst. reflexivity.
    + rewrite Hn in Hn'. inversion Hn'; subst. reflexivity.
Qed.

Lemma same_but_qsin_trans (a b c : tLNode) :
  same_but_qsin a b -> same_but_qsin b c -> same_but_qsin a c.
Proof. unfold same_but_qsin. congruence. Qed.

Lemma Diffuse_edges_balance (ops : tNodeOps) (er : tErosion) (dtmax : R) :
  forall k es ns ns',
    (List.length es <= k)%nat ->
    Diffuse_edges ops er dtmax es ns = Ok ns' ->
    total_qsin ns' = total_qsin ns /\
    List.length ns' = List.length ns /\
    forall j n n',
      nth_error ns j = Some n -> nth_error ns' j = Some n' ->
      same_but_qsin n n'.
Proof.
  induction k as [|k IH]; intros es ns ns' Hl H.
  - destruct es; simpl in *; [|lia]. inversion H; subst.
    split; [reflexivity|]. split; [reflexivity|].
    intros j n n' Hn Hn'. congruence.
  - destruct es as [|ce rest]; simpl in H.
    + inversion H; subst. split; [reflexivity|]. split; [reflexivity|].
      intros j n n' Hn Hn'. congruence.
    + apply bind_Ok in H. destruct H as (ns1 & H1 & H).
      apply bind_Ok in H. destruct H as (ns2 & H2 & H).
      destruct (onNode_addQsin_total _ _ _ _ H1) as (T1 & L1 & S1).
      destruct (onNode_addQsin_total _ _ _ _ H2) as (T2 & L2 & S2).
      assert (S12 : forall j n n',
                 nth_error ns j = Some n -> nth_error ns2 j = Some n' ->
                 same_but_qsin n n').
      { intros j n n' Hn Hn'.
        destruct (nth_error ns1 j) as [n1|] eqn:E1.
        - eapply same_but_qsin_trans; eauto.
        - exfalso. apply nth_error_None in E1.
          assert (nth_error ns j <> None) by congruence.
          apply nth_error_Some in H0. lia. }
      assert (T12 : total_qsin ns2 = total_qsin ns) by (rewrite T2, T1; ring).
      destruct rest as [|ce' rest'].
      * inversion H; subst. split; [exact T12|]. split; [congruence|exact S12].
      * destruct (IH rest' ns2 ns') as (T3 & L3 & S3);
          [simpl in Hl; lia|exact H|].
        split; [congruence|]. split; [congruence|].
        intros j n n' Hn Hn'.
        destruct (nth_error ns2 j) as [n2|] eqn:E2.
        -- eapply same_but_qsin_trans; eauto.
        -- exfalso. apply nth_error_None in E2.
           assert (nth_error ns j <> None) by congruence.
           apply nth_error_Some in H0. lia.
Qed.

Lemma Diffuse_edges_frame (ops : tNodeOps) (er : tErosion) (dtmax : R)
  (es : list tEdge) (ns ns' : list tLNode) :
  Diffuse_edges ops er dtmax es ns = Ok ns' ->
  List.length ns' = List.length ns /\
  forall j n n',
    nth_error ns j = Some n -> nth_error ns' j = Some n' ->
    same_but_qsin n n'.
Proof.
  intros H.
  destruct (Diffuse_edges_balance ops er dtmax (List.length es) es ns ns'
              (le_n _) H) as (_ & L & S).
  split; assumption.
Qed.

(** X16.  The pass of Diffuse over the edges moves sediment and neither
    makes nor loses any: what it takes from the origin of an edge it gives
    to the destination, so the influx [Qsin] summed over all nodes is what it
    was before the pass, whatever the slopes are; and nothing but [Qsin]
    changes on any node. *)
Theorem Diffuse_edges_conserves
  (ops : tNodeOps) (er : tErosion) (dtmax : R) (es : list tEdge)
  (ns ns' : list tLNode) :
  Diffuse_edges ops er dtmax es ns = Ok ns' ->
  total_qsin ns' = total_qsin ns /\
  List.length ns' = List.length ns /\
  forall j n n',
    nth_error ns j = Some n -> nth_error ns' j = Some n' ->
    setQsin 0 n' = setQsin 0 n.
Proof.
  intros H.
  exact (Diffuse_edges_balance ops er dtmax (List.length es) es ns ns'
           (le_n _) H).
Qed.

Lemma Diffuse_edges_conserves_witness :
  exists ns',
    Diffuse_edges ops0 erosion0 1 [mkEdge 0 1 1 1] [node0; outlet0] = Ok ns' /\
    total_qsin ns' = total_qsin [node0; outlet0].
Proof.
  assert (E : exists ns',
             Diffuse_edges ops0 erosion0 1 [mkEdge 0 1 1 1] [node0; outlet0]
             = Ok ns').
  { unfold Diffuse_edges, onNode, withNode. simpl. eexists. reflexivity. }
  destruct E as (ns' & E). exists ns'. split; [exact E|].
  exact (proj1 (Diffuse_edges_conserves ops0 erosion0 1 [mkEdge 0 1 1 1]
                  [node0; outlet0] ns' E)).
Defined.

(** The largest sub-step the Courant condition allows on an edge. *)
Definition courant_bound (er : tErosion) (ce : tEdge) : R :=
  kEpsOver2 * (elength ce / (kd er * vedglen ce)).

Lemma Diffuse_dtmax_min (er : tErosion) (es : list tEdge) (rt : R) :
  Diffuse_dtmax er es rt <= rt /\
  (forall ce, In ce es -> kVerySmall < kd er * vedglen ce ->
              Diffuse_dtmax er es rt <= courant_bound er ce) /\
  (Diffuse_dtmax er es rt = rt \/
   exists ce, In ce es /\ kVerySmall < kd er * vedglen ce /\
              Diffuse_dtmax er es rt = courant_bound er ce).
Proof.
  unfold Diffuse_dtmax.
  set (f := fun dtmax ce =>
              let denom := kd er * vedglen ce in
              if denom >? kVerySmall then
                let delt := kEpsOver2 * (elength ce / denom) in
                if delt <? dtmax then delt else dtmax
              else dtmax).
  assert (G : forall es d,
             fold_left f es d <= d /\
             (forall ce, In ce es -> kVerySmall < kd er * vedglen ce ->
                         fold_left f es d <= courant_bound er ce) /\
             (fold_left f es d = d \/
              exists ce, In ce es /\ kVerySmall < kd er * vedglen ce /\
                         fold_left f es d = courant_bound er ce)).
  { clear es. induction es as [|ce es IH]; intros d; simpl.
    - split; [lra|]. split; [intros ce []|now left].
    - destruct (IH (f d ce)) as (H1 & H2 & H3).
      assert (Hf : f d ce <= d /\
                   (kVerySmall < kd er * vedglen ce ->
                    f d ce <= courant_bound er ce) /\
                   (f d ce = d \/
                    (kVerySmall < kd er * vedglen ce /\
                     f d ce = courant_bound er ce))).
      { unfold f, courant_bound, Rgtb. cbv zeta.
        destruct (Rltb_spec kVerySmall (kd er * vedglen ce)) as [Hc|Hc].
        - destruct (Rltb_spec
                      (kEpsOver2 * (elength ce / (kd er * vedglen ce))) d);
            repeat split; try lra; auto.
        - repeat split; try lra; auto. }
      destruct Hf as (F1 & F2 & F3).
      split; [lra|]. split.
      + intros ce' [<-|Hin] Hc.
        * specialize (F2 Hc). lra.
        * now apply H2.
      + destruct H3 as [H3|(ce' & Hin & Hc & H3)].
        * destruct F3 as [F3|[Hc F3]].
          -- left. congruence.
          -- right. exists ce. split; [now left|]. split; [exact Hc|congruence].
        * right. exists ce'. split; [now right|]. split; assumption. }
  apply G.
Qed.

(** A bound that every pass keeps on its sub-step holds of all the
    sub-steps of a run. *)
Lemma do_while_steps_all {S : Type} (body : R -> S -> result (R * S))
  (tol : R) (P : S -> Prop) (Q : R -> Prop) :
  (forall dtg s dt s', P s -> body dtg s = Ok (dt, s') -> Q dt /\ P s') ->
  forall fuel dtg s s' steps,
    P s ->
    do_while fuel body tol dtg s = Some (Ok (s', steps)) ->
    forall dt, In dt steps -> Q dt.
Proof.
  intros Hb. induction fuel as [|fuel IH]; intros dtg s s' steps Hs H;
    [discriminate|]. simpl in H.
  destruct (body dtg s) as [[dt s1]| |] eqn:Eb; try discriminate.
  destruct (Hb _ _ _ _ Hs Eb) as [Hq H1].
  destruct (dtg - dt >? tol).
  - destruct (do_while fuel body tol (dtg - dt) s1) as [[[s2 st]| |]|] eqn:Er;
      try discriminate.
    inversion H; subst. intros x [<-|Hx]; [exact Hq|].
    exact (IH _ _ _ _ H1 Er x Hx).
  - inversion H; subst. intros x [<-|[]]. exact Hq.
Qed.

(** X17.  Diffuse keeps to the Courant condition.  The sub-step it starts
    with is the smaller of the time asked for and the least bound
    [kEpsOver2*length/(kd*vedglen)] over the edges whose [kd*vedglen]
    exceeds [kVerySmall]; and no sub-step of a run, for any time asked for
    and any collaborators, exceeds the bound of any such edge. *)
Theorem Diffuse_keeps_courant
  (ops : tNodeOps) (er : tErosion) (rt : R) (noDepoFlag : bool) (m : tMesh) :
  Diffuse_dtmax er (edges m) rt <= rt /\
  (Diffuse_dtmax er (edges m) rt = rt \/
   exists ce, In ce (edges m) /\ kVerySmall < kd er * vedglen ce /\
              Diffuse_dtmax er (edges m) rt
              = kEpsOver2 * (elength ce / (kd er * vedglen ce))) /\
  forall fuel m' steps dt ce,
    Diffuse fuel ops er rt noDepoFlag m = Some (Ok (m', steps)) ->
    In dt steps -> In ce (edges m) -> kVerySmall < kd er * vedglen ce ->
    dt <= kEpsOver2 * (elength ce / (kd er * vedglen ce)).
Proof.
  destruct (Diffuse_dtmax_min er (edges m) rt) as (H1 & H2 & H3).
  split; [exact H1|]. split; [exact H3|].
  intros fuel m' steps dt ce E Hdt Hce Hc. unfold Diffuse in E.
  apply finish_steps in E. destruct E as (s & E).
  set (d0 := Diffuse_dtmax er (edges m) rt) in *.
  assert (Hall : forall x, In x steps -> x <= d0).
  { refine (do_while_steps_all (Diffuse_body ops er noDepoFlag) 0.0
              (fun st : R * tMesh => fst st <= d0) (fun x => x <= d0) _
              fuel rt (d0, m) s steps _ E); [|simpl; lra].
    intros dtg [dtmax m1] x st' Hs Hb. cbn [fst] in Hs.
    unfold Diffuse_body in Hb. cbv zeta in Hb.
    apply bind_Ok in Hb. destruct Hb as (ns1 & _ & Hb).
    apply bind_Ok in Hb. destruct Hb as (ns2 & _ & Hb).
    apply bind_Ok in Hb. destruct Hb as (ns3 & _ & Hb).
    inversion Hb; subst. cbn [fst]. split; [exact Hs|].
    unfold Rgtb. destruct (Rltb_spec (dtg - x) x); lra. }
  specialize (Hall dt Hdt). specialize (H2 ce Hce Hc).
  unfold courant_bound in H2. lra.
Qed.

Lemma finish_inv {S : Type} (f : S -> tMesh)
  (r : option (result (S * list R))) (m' : tMesh) (steps : list R) :
  finish f r = Some (Ok (m', steps)) ->
  exists s, r = Some (Ok (s, steps)) /\ f s = m'.
Proof.
  unfold finish. destruct r as [[[s st]| |]|]; try discriminate.
  intros H; inversion H; subst. eauto.
Qed.

(** ** The nodes outside the active list *)

Lemma do_while_keeps_any {S : Type} (body : R -> S -> result (R * S))
  (tol : R) (P : S -> Prop) :
  (forall dtg s dt s', P s -> body dtg s = Ok (dt, s') -> P s') ->
  forall fuel dtg s s' steps,
    P s -> do_while fuel body tol dtg s = Some (Ok (s', steps)) -> P s'.
Proof.
  intros Hb. induction fuel as [|fuel IH]; intros dtg s s' steps Hs H;
    [discriminate|]. simpl in H.
  destruct (body dtg s) as [[dt s1]| |] eqn:Eb; try discriminate.
  pose proof (Hb _ _ _ _ Hs Eb) as H1.
  destruct (dtg - dt >? tol).
  - destruct (do_while fuel body tol (dtg - dt) s1) as [[[s2 st]| |]|] eqn:Er;
      try discriminate.
    inversion H; subst. exact (IH _ _ _ _ H1 Er).
  - inversion H; subst. exact H1.
Qed.

(** A pass that writes the nodes it visits leaves the others alone. *)
Lemma forM_withNode_untouched (g : nat -> tLNode -> result tLNode)
  (act : list nat) (ns ns' : list tLNode) :
  forM act (fun i ns => withNode ns i (g i)) ns = Ok ns' ->
  forall j, ~ In j act -> nth_error ns' j = nth_error ns j.
Proof.
  intros H j Hj. revert H.
  apply (forM_inv_in (fun ns1 => nth_error ns1 j = nth_error ns j));
    [|reflexivity].
  intros i a a' Hi Ha Hf. apply withNode_inv in Hf.
  destruct Hf as (cn & cn' & _ & _ & ->). rewrite nth_error_upd.
  destruct (Nat.eqb_spec i j) as [->|Hij]; [contradiction|exact Ha].
Qed.

Lemma ErodeDetachLim_rates_untouched (er : tErosion) (act : list nat)
  (ns ns' : list tLNode) :
  ErodeDetachLim_rates er act ns = Ok ns' ->
  forall j, ~ In j act -> nth_error ns' j = nth_error ns j.
Proof.
  unfold ErodeDetachLim_rates.
  apply (forM_withNode_untouched
           (fun _ cn =>
              '(cap, cn) <- tBedErodePwrLaw.DetachCapacity (bedErode er) cn ;;
              Ok (setDzDt (- cap) cn))).
Qed.

Lemma ErodeDetachLim_apply_untouched (ops : tNodeOps) (dtmax : R)
  (act : list nat) (ns ns' : list tLNode) :
  ErodeDetachLim_apply ops act dtmax ns = Ok ns' ->
  forall j, ~ In j act -> nth_error ns' j = nth_error ns j.
Proof.
  unfold ErodeDetachLim_apply.
  apply (forM_withNode_untouched
           (fun _ cn =>
              let valgrd := [dzdt cn * dtmax] in
              '(_, cn) <- EroDep ops 0 valgrd 0 cn ;;
              Ok cn)).
Qed.

Lemma Diffuse_apply_untouched (ops : tNodeOps) (noDepoFlag : bool)
  (act : list nat) (ns ns' : list tLNode) :
  Diffuse_apply ops noDepoFlag act ns = Ok ns' ->
  forall j, ~ In j act -> nth_error ns' j = nth_error ns j.
Proof.
  unfold Diffuse_apply.
  apply (forM_withNode_untouched
           (fun _ cn =>
              let cn :=
                if noDepoFlag then
                  if qsin cn >? 0.0 then setQsin 0.0 cn else cn
                else cn in
              Ok (EroDep_dz ops (qsin cn / varea cn) cn))).
Qed.

(** The mesh but for its nodes. *)
Definition same_lists (m m' : tMesh) : Prop :=
  order m' = order m /\ nactive m' = nactive m /\ edges m' = edges m.

(** X18.  The integrators write the active nodes only.  Over a run of
    ErodeDetachLim, in either variant, a node that is not in the active list
    (a boundary node) is exactly what it was when the loop began, for every
    behaviour of [EroDep].  Over a run of Diffuse such a node changes in its
    sediment influx [Qsin] at most: its elevation and its layers stay.  And
    the node order, the count of active nodes and the edges of the mesh are
    what they were. *)
Theorem inactive_nodes_are_left_alone :
  (forall fuel ops er dtg strmNet m m' steps,
     ErodeDetachLim fuel ops er dtg strmNet m = Some (Ok (m', steps)) ->
     let m0 := FindHydrGeom strmNet (FindChanGeom strmNet m) in
     same_lists m0 m' /\
     forall j, ~ In j (active m0) ->
               nth_error (nodes m') j = nth_error (nodes m0) j) /\
  (forall fuel ops er dtg strmNet UPtr m m' steps,
     ErodeDetachLimU fuel ops er dtg strmNet UPtr m = Some (Ok (m', steps)) ->
     let m0 := FindHydrGeom strmNet (FindChanGeom strmNet m) in
     same_lists m0 m' /\
     forall j, ~ In j (active m0) ->
               nth_error (nodes m') j = nth_error (nodes m0) j) /\
  (forall fuel ops er rt noDepoFlag m m' steps,
     Diffuse fuel ops er rt noDepoFlag m = Some (Ok (m', steps)) ->
     same_lists m m' /\
     forall j n n',
       ~ In j (active m) ->
       nth_error (nodes m) j = Some n -> nth_error (nodes m') j = Some n' ->
       setQsin 0 n' = setQsin 0 n).
Proof.
  split; [|split].
  - intros fuel ops er dtg strmNet m m' steps E m0. unfold ErodeDetachLim in E.
    fold m0 in E.
    refine (do_while_keeps_any (ErodeDetachLim_body ops er) 0.0000001
              (fun m1 => same_lists m0 m1 /\
                         forall j, ~ In j (active m0) ->
                                   nth_error (nodes m1) j
                                   = nth_error (nodes m0) j)
              _ fuel dtg m0 m' steps _ E);
      [|split; [repeat split|reflexivity]].
    intros d s dt s' ((O & N & Ed) & Hs) Hb. unfold ErodeDetachLim_body in Hb.
    apply bind_Ok in Hb. destruct Hb as (ns1 & H1 & Hb).
    apply bind_Ok in Hb. destruct Hb as (x & _ & Hb).
    apply bind_Ok in Hb. destruct Hb as (ns2 & H2 & Hb).
    inversion Hb; subst. split; [repeat split; assumption|].
    intros j Hj. cbn [nodes setNodes].
    assert (Ha : active s = active m0) by (unfold active; congruence).
    rewrite (ErodeDetachLim_apply_untouched _ _ _ _ _ H2 j)
      by (rewrite Ha; exact Hj).
    rewrite (ErodeDetachLim_rates_untouched _ _ _ _ H1 j)
      by (rewrite Ha; exact Hj).
    exact (Hs j Hj).
  - intros fuel ops er dtg strmNet UPtr m m' steps E m0.
    unfold ErodeDetachLimU in E. fold m0 in E. cbv zeta in E.
    refine (do_while_keeps_any
              (ErodeDetachLimU_body ops er UPtr (dtg * 0.0001)) 0
              (fun m1 => same_lists m0 m1 /\
                         forall j, ~ In j (active m0) ->
                                   nth_error (nodes m1) j
                                   = nth_error (nodes m0) j)
              _ fuel dtg m0 m' steps _ E);
      [|split; [repeat split|reflexivity]].
    intros d s dt s' ((O & N & Ed) & Hs) Hb. unfold ErodeDetachLimU_body in Hb.
    apply bind_Ok in Hb. destruct Hb as (ns1 & H1 & Hb).
    apply bind_Ok in Hb. destruct Hb as (x & _ & Hb).
    apply bind_Ok in Hb. destruct Hb as (ns2 & H2 & Hb).
    inversion Hb; subst. split; [repeat split; assumption|].
    intros j Hj. cbn [nodes setNodes].
    assert (Ha : active s = active m0) by (unfold active; congruence).
    rewrite (ErodeDetachLim_apply_untouched _ _ _ _ _ H2 j)
      by (rewrite Ha; exact Hj).
    rewrite (ErodeDetachLim_rates_untouched _ _ _ _ H1 j)
      by (rewrite Ha; exact Hj).
    exact (Hs j Hj).
  - intros fuel ops er rt noDepoFlag m m' steps E. unfold Diffuse in E.
    apply finish_inv in E. destruct E as ([d' m1] & E & <-). cbn [snd].
    refine (do_while_keeps_any (Diffuse_body ops er noDepoFlag) 0.0
              (fun st : R * tMesh =>
                 same_lists m (snd st) /\
                 forall j n n',
                   ~ In j (active m) ->
                   nth_error (nodes m) j = Some n ->
                   nth_error (nodes (snd st)) j = Some n' ->
                   same_but_qsin n n')
              _ fuel rt (Diffuse_dtmax er (edges m) rt, m) (d', m1) steps _ E).
    + intros d [dm s] dt [dm' s'] ((O & N & Ed) & Hs) Hb. cbn [snd] in *.
      unfold Diffuse_body in Hb. cbv zeta in Hb.
      apply bind_Ok in Hb. destruct Hb as (ns1 & H1 & Hb).
      apply bind_Ok in Hb. destruct Hb as (ns2 & H2 & Hb).
      apply bind_Ok in Hb. destruct Hb as (ns3 & H3 & Hb).
      inversion Hb; subst. split; [repeat split; assumption|].
      intros j n n' Hj Hn Hn'. cbn [nodes setNodes] in Hn'.
      assert (Ha : active s = active m) by (unfold active; congruence).
      rewrite (Diffuse_apply_untouched _ _ _ _ _ H3 j) in Hn'
        by (rewrite Ha; exact Hj).
      destruct (Diffuse_edges_frame _ _ _ _ _ _ H2) as (L2 & S2).
      assert (U1 : nth_error ns1 j = nth_error (nodes s) j).
      { refine (forM_withNode_untouched (fun _ cn => Ok (setQsin 0 cn))
                  (active s) (nodes s) ns1 H1 j _). rewrite Ha. exact Hj. }
      destruct (nth_error ns1 j) as [n1|] eqn:E1.
      * symmetry in U1.
        eapply same_but_qsin_trans; [exact (Hs j n n1 Hj Hn U1)|].
        exact (S2 j n1 n' E1 Hn').
      * exfalso. apply nth_error_None in E1.
        assert (nth_error ns2 j <> None) by congruence.
        apply nth_error_Some in H. lia.
    + cbn [snd]. split; [repeat split|].
      intros j n n' _ Hn Hn'. rewrite Hn in Hn'. inversion Hn'; subst.
      reflexivity.
Qed.

(** ** A mesh without active nodes *)

Lemma setNodes_same (m : tMesh) : setNodes (nodes m) m = m.
Proof. destruct m; reflexivity. Qed.

Lemma active_none (m : tMesh) : nactive m = 0%nat -> active m = [].
Proof. intros H. unfold active. now rewrite H. Qed.

(** X19.  On a mesh with no active node each loop is a do-while that runs
    once.  ErodeDetachLim, in both variants and for every [dtg] (positive or
    not), StreamErode without an inlet for [dtg >= 1e-8], and Diffuse on a
    mesh without edges take the whole increment as their one sub-step and
    return the mesh as it was. *)
Theorem no_active_nodes :
  (forall fuel ops er dtg strmNet m,
     nactive (FindHydrGeom strmNet (FindChanGeom strmNet m)) = 0%nat ->
     ErodeDetachLim (S fuel) ops er dtg strmNet m
     = Some (Ok (FindHydrGeom strmNet (FindChanGeom strmNet m), [dtg]))) /\
  (forall fuel ops er dtg strmNet UPtr m,
     nactive (FindHydrGeom strmNet (FindChanGeom strmNet m)) = 0%nat ->
     ErodeDetachLimU (S fuel) ops er dtg strmNet UPtr m
     = Some (Ok (FindHydrGeom strmNet (FindChanGeom strmNet m), [dtg]))) /\
  (forall fuel c ops er dtg strmNet m,
     nactive (SortNodesByNetOrder strmNet m) = 0%nat ->
     getInletNodePtr strmNet = None ->
     1e-8 <= dtg ->
     exists dt,
       StreamErode (S fuel) c ops er dtg strmNet m
       = Some (Ok (SortNodesByNetOrder strmNet m, [dt])) /\ dt = dtg) /\
  (forall fuel ops er rt noDepoFlag m,
     nactive m = 0%nat -> edges m = [] ->
     Diffuse (S fuel) ops er rt noDepoFlag m = Some (Ok (m, [rt]))).
Proof.
  split; [|split; [|split]].
  - intros fuel ops er dtg strmNet m Hn. unfold ErodeDetachLim.
    set (m0 := FindHydrGeom strmNet (FindChanGeom strmNet m)) in *.
    cbn [do_while]. unfold ErodeDetachLim_body.
    rewrite (active_none m0 Hn). cbn. rewrite setNodes_same.
    unfold Rgtb. rewrite Rltb_false by lra. reflexivity.
  - intros fuel ops er dtg strmNet UPtr m Hn. unfold ErodeDetachLimU.
    set (m0 := FindHydrGeom strmNet (FindChanGeom strmNet m)) in *.
    cbn [do_while]. unfold ErodeDetachLimU_body.
    rewrite (active_none m0 Hn). cbn. rewrite setNodes_same.
    unfold Rgtb. rewrite Rltb_false by lra. reflexivity.
  - intros fuel c ops er dtg strmNet m Hn Hin Hd. unfold StreamErode.
    set (m0 := SortNodesByNetOrder strmNet m) in *.
    cbn [do_while]. unfold StreamErode_body.
    rewrite (active_none m0 Hn), Hin. cbn. rewrite setNodes_same.
    unfold kSmallTimeStep. rewrite (Rltb_false (dtg / 0.3 * 0.3)) by lra.
    unfold Rgtb. rewrite Rltb_false by lra.
    eexists. split; [reflexivity|]. lra.
  - intros fuel ops er rt noDepoFlag m Hn He. unfold Diffuse.
    rewrite He. cbn [do_while Diffuse_dtmax fold_left]. unfold Diffuse_body.
    rewrite (active_none m Hn), He. cbn. rewrite setNodes_same.
    unfold Rgtb. rewrite (Rltb_false 0.0 (rt - rt)) by lra. reflexivity.
Qed.

(** ** The assertion [dtmax>0] of StreamErode *)

Lemma subscript_never {A : Type} (l : list A) (i : nat) (what msg : string) :
  what <> msg -> subscript l i what <> Fatal msg.
Proof.
  intros H. unfold subscript. destruct (nth_error l i); [discriminate|].
  intros E. inversion E. contradiction.
Qed.

Lemma assert_never (b : bool) (what msg : string) :
  b = true \/ what <> msg -> assert b what <> Fatal msg.
Proof.
  intros H E. destruct b; simpl in E; [discriminate E|].
  inversion E; subst. destruct H as [H|H]; [discriminate H|contradiction].
Qed.

Lemma bind_never {A B : Type} (r : result A) (k : A -> result B)
  (msg : string) :
  r <> Fatal msg -> (forall a, r = Ok a -> k a <> Fatal msg) ->
  bind r k <> Fatal msg.
Proof.
  destruct r; simpl; intros H1 H2;
    [apply H2; reflexivity | | discriminate].
  intros E. apply H1. inversion E. reflexivity.
Qed.

Lemma forM_never {S : Type} (f : nat -> S -> result S) (msg : string) :
  (forall i s, f i s <> Fatal msg) ->
  forall idxs s, forM idxs f s <> Fatal msg.
Proof.
  intros Hf. induction idxs as [|i rest IH]; intros s; simpl.
  - discriminate.
  - apply bind_never; auto.
Qed.

(** Go through the binds and tests of a call that holds no assertion
    [dtmax>0]. *)
Ltac never :=
  repeat first
    [ discriminate
    | apply subscript_never; discriminate
    | apply assert_never; right; discriminate
    | apply bind_never; [|intros ? ?]
    | apply forM_never; intros ? ?
    | progress cbv zeta
    | progress unfold getNode, getLayer, getLayerDepth, getLayerDgrade,
        getLayerErody, getLayerSed, getQsm, getQsinm, setQs_i, addQs_i,
        onNode, withNode
    | match goal with
      | |- (if ?b then _ else _) <> Fatal _ => destruct b
      | |- (let '(_, _) := ?p in _) <> Fatal _ => destruct p
      end ].

Lemma TransCapacity_never (c : tConsts) (s : tSedTrans) (n : tLNode) :
  TransCapacity c s n <> Fatal "dtmax>0".
Proof.
  destruct s as [p|p|p|p]; cbn [TransCapacity].
  - unfold tSedTransPwrLaw.TransCapacity. never.
  - unfold tSedTransPwrLawMulti.TransCapacity. never.
  - unfold tSedTransWilcock.TransCapacity. never.
  - unfold tSedTransMineTailings.TransCapacity. never.
Qed.

Lemma DetachCapacity_never (b : tBedErodePwrLaw.t) (n : tLNode) :
  tBedErodePwrLaw.DetachCapacity b n <> Fatal "dtmax>0".
Proof. unfold tBedErodePwrLaw.DetachCapacity. never. Qed.

(** The sub-step StreamErode chooses is at least [kSmallTimeStep], whatever
    time is asked for. *)
Lemma StreamErode_dtmax_floor (act : list nat) (ns : list tLNode)
  (dtg dtmax : R) :
  StreamErode_dtmax act ns dtg = Ok dtmax -> kSmallTimeStep <= dtmax.
Proof.
  unfold StreamErode_dtmax. cbv zeta. intros H.
  apply bind_Ok in H. destruct H as (d & _ & H).
  destruct (Rltb_spec (d * 0.3) kSmallTimeStep); inversion H; subst; lra.
Qed.

(** X20.  The assertion [dtmax>0] of StreamErode never fails: the sub-step
    is at least [kSmallTimeStep = 1e-8] for every [dtg], positive or not, so
    no pass of the loop and no run ends on it, whatever the transport law,
    the mesh and the collaborators are. *)
Theorem StreamErode_assertion_holds
  (c : tConsts) (ops : tNodeOps) (er : tErosion) (strmNet : tStreamNet)
  (dtg : R) (m : tMesh) :
  (forall d m', StreamErode_body c ops er strmNet dtg m = Ok (d, m') ->
                1e-8 <= d) /\
  StreamErode_body c ops er strmNet dtg m <> Fatal "dtmax>0" /\
  forall fuel, StreamErode fuel c ops er dtg strmNet m
               <> Some (Fatal "dtmax>0").
Proof.
  assert (Hbody : forall dtg m,
             StreamErode_body c ops er strmNet dtg m <> Fatal "dtmax>0").
  { clear dtg m. intros dtg m. unfold StreamErode_body.
    apply bind_never; [unfold zeroQsin; never|intros ns1 _].
    apply bind_never.
    { unfold StreamErode_rates. apply forM_never. intros i s.
      apply bind_never; [never|intros cn _].
      apply bind_never; [apply TransCapacity_never|intros [cap cn1] _].
      cbv zeta. apply bind_never.
      { destruct (_ && _); [|discriminate].
        apply bind_never; [apply DetachCapacity_never|intros [d0 cn2] _].
        discriminate. }
      intros [pedr cn2] _. never. }
    intros ns2 _.
    apply bind_never; [unfold StreamErode_dtmax; never|intros d Hd].
    apply StreamErode_dtmax_floor in Hd. unfold kSmallTimeStep in Hd.
    apply bind_never; [unfold zeroQsin; never|intros ns3 _].
    apply bind_never; [destruct (getInletNodePtr strmNet); never|intros ns4 _].
    apply bind_never; [|intros; discriminate].
    unfold StreamErode_apply. apply forM_never. intros i s.
    apply bind_never; [never|intros cn _]. cbv zeta.
    apply bind_never; [|intros; never].
    apply assert_never. left. unfold Rgtb. apply Rltb_true. lra. }
  split; [|split].
  - intros d m' H. unfold StreamErode_body in H.
    apply bind_Ok in H. destruct H as (ns1 & _ & H).
    apply bind_Ok in H. destruct H as (ns2 & _ & H).
    apply bind_Ok in H. destruct H as (d' & Hd & H).
    apply bind_Ok in H. destruct H as (ns3 & _ & H).
    apply bind_Ok in H. destruct H as (ns4 & _ & H).
    apply bind_Ok in H. destruct H as (ns5 & _ & H).
    inversion H; subst.
    apply StreamErode_dtmax_floor in Hd. unfold kSmallTimeStep in Hd. exact Hd.
  - apply Hbody.
  - intros fuel. unfold StreamErode.
    generalize (SortNodesByNetOrder strmNet m) as m0. revert dtg.
    induction fuel as [|fuel IH]; intros dtg m0; [discriminate|].
    cbn [do_while].
    destruct (StreamErode_body c ops er strmNet dtg m0) as [[d m1]|msg|] eqn:Eb.
    + destruct (dtg - d >? 1e-6); [|discriminate].
      specialize (IH (dtg - d) m1).
      destruct (do_while fuel _ 1e-6 (dtg - d) m1) as [[[s2 st]|msg|]|];
        try discriminate.
      intros E. apply IH. inversion E. reflexivity.
    + intros E. inversion E; subst. exact (Hbody _ _ Eb).
    + discriminate.
Qed.

(** ** The sand/gravel laws: the capacity of the whole node *)

Lemma setQs_i_inv (i : nat) (v : R) (n n' : tLNode) :
  setQs_i i v n = Ok n' ->
  n' = setQsm (upd (qsm n) i v) n /\ (i < List.length (qsm n))%nat.
Proof.
  unfold setQs_i, getQsm, subscript. intros H.
  destruct (nth_error (qsm n) i) as [x|] eqn:E; simpl in H; [|discriminate].
  inversion H; subst. split; [reflexivity|].
  apply nth_error_Some. congruence.
Qed.

(** After [setQs(0,a)] and [setQs(1,b)], the sum [getQs(0)+getQs(1)] the
    law stores and returns is [a + b]. *)
Lemma two_sizes_total (a b v : R) (nd a1 a2 n' : tLNode) :
  setQs_i 0 a nd = Ok a1 -> setQs_i 1 b a1 = Ok a2 ->
  (q0 <- getQsm a2 0 ;; q1 <- getQsm a2 1 ;;
   let nd := setQs (q0 + q1) a2 in Ok (qs nd, nd)) = Ok (v, n') ->
  v = a + b /\ qs n' = v /\
  getQsm n' 0 = Ok a /\ getQsm n' 1 = Ok b /\ hydrwidth a1 = hydrwidth nd.
Proof.
  intros H1 H2 H.
  destruct (setQs_i_inv _ _ _ _ H1) as [-> L1].
  destruct (setQs_i_inv _ _ _ _ H2) as [-> L2].
  cbn [qsm setQsm] in L2. rewrite upd_length in L2.
  assert (E0 : getQsm (setQsm (upd (qsm (setQsm (upd (qsm nd) 0 a) nd)) 1 b)
                         (setQsm (upd (qsm nd) 0 a) nd)) 0 = Ok a).
  { unfold getQsm, subscript. cbn [qsm setQsm]. rewrite !nth_error_upd.
    cbn [Nat.eqb]. rewrite ?upd_length.
    destruct (Nat.ltb_spec 0 (List.length (qsm nd))); [reflexivity|lia]. }
  assert (E1 : getQsm (setQsm (upd (qsm (setQsm (upd (qsm nd) 0 a) nd)) 1 b)
                         (setQsm (upd (qsm nd) 0 a) nd)) 1 = Ok b).
  { unfold getQsm, subscript. cbn [qsm setQsm]. rewrite !nth_error_upd.
    cbn [Nat.eqb]. rewrite ?upd_length.
    destruct (Nat.ltb_spec 1 (List.length (qsm nd))); [reflexivity|lia]. }
  rewrite E0 in H. cbn [bind] in H. rewrite E1 in H. cbn [bind] in H.
  cbv zeta in H. inversion H; subst.
  repeat split; try reflexivity; assumption.
Qed.

(** A product of factors that are not negative. *)
Ltac nonneg :=
  first [ assumption | lra | apply Rmult_le_pos; nonneg ].

(** The shear stress of the Wilcock law on the whole node. *)
Definition Wilcock_tau (w : tSedTransWilcock.t) (nd : tLNode) : R :=
  tSedTransWilcock.taudim w
  * Cmath.pow (hydrrough nd * q nd * YEARPERSEC / hydrwidth nd) 0.6
  * Cmath.pow (slope nd) 0.7.

(** X21.  The Wilcock law on the whole node, for a positive sediment
    density, a non-negative [SECPERYEAR], channel width and ratio of the top
    layer depth to the regolith depth, and a sand fraction of the top layer
    between 0 and 1: the value returned is not negative, it is the total
    capacity stored on the node, and it is the sum of the capacities stored
    for sand and for gravel; and it is zero when the shear stress exceeds
    neither critical shear stress. *)
Theorem Wilcock_TransCapacity_nonneg
  (c : tConsts) (w : tSedTransWilcock.t) (nd n' : tLNode) (v : R) (l : tLayer)
  (dg : R) :
  0 < RHOSED c -> 0 <= SECPERYEAR c -> 0 <= hydrwidth nd ->
  nth_error (layerlist nd) 0 = Some l ->
  nth_error (ldgrade l) 0 = Some dg ->
  0 <= ldepth l / maxregdep nd ->
  0 <= dg / ldepth l <= 1 ->
  tSedTransWilcock.TransCapacity c w nd = Ok (v, n') ->
  0 <= v /\ qs n' = v /\
  (exists q0 q1, getQsm n' 0 = Ok q0 /\ getQsm n' 1 = Ok q1 /\
                 0 <= q0 /\ 0 <= q1 /\ v = q0 + q1) /\
  (0 <= slope nd ->
   Wilcock_tau w nd <= tSedTransWilcock.taucrit_sand w (dg / ldepth l) ->
   Wilcock_tau w nd <= tSedTransWilcock.taucrit_grav w (dg / ldepth l) ->
   v = 0).
Proof.
  intros HR HS HW Hl Hdg Hfac Hps H.
  unfold tSedTransWilcock.TransCapacity in H.
  rewrite (getLayerDgrade_nth nd 0 0 l dg Hl Hdg) in H. cbn [bind] in H.
  rewrite (getLayerDepth_Some nd 0 l Hl) in H. cbn [bind] in H.
  cbv zeta in H. fold (Wilcock_tau w nd) in H.
  set (ps := dg / ldepth l) in *. set (fac := ldepth l / maxregdep nd) in *.
  assert (HiR : 0 < / RHOSED c) by (apply Rinv_0_lt_compat; exact HR).
  destruct (Rltb_spec (slope nd) 0) as [Hneg|Hs].
  - apply bind_Ok in H. destruct H as (a1 & E1 & H).
    apply bind_Ok in H. destruct H as (a2 & E2 & H).
    inversion H; subst; clear H.
    destruct (setQs_i_inv _ _ _ _ E1) as [-> L1].
    destruct (setQs_i_inv _ _ _ _ E2) as [-> L2].
    cbn [qsm setQsm] in L2. rewrite upd_length in L2.
    split; [lra|]. split; [cbn [qs setQs]; lra|]. split.
    + exists 0, 0. unfold getQsm, subscript. cbn [qsm setQs setQsm].
      rewrite !nth_error_upd. cbn [Nat.eqb]. rewrite ?upd_length.
      destruct (Nat.ltb_spec 0 (List.length (qsm nd))); [|lia].
      destruct (Nat.ltb_spec 1 (List.length (qsm nd))); [|lia].
      repeat split; lra.
    + intros; lra.
  - apply bind_Ok in H. destruct H as (a1 & E1 & H).
    apply bind_Ok in H. destruct H as (a2 & E2 & H).
    set (tau := Wilcock_tau w nd) in *.
    pose proof (pow_nonneg tau 1.5) as Hp1.
    pose proof (pow_nonneg
                  (1 - Cmath.sqrt (tSedTransWilcock.taucrit_sand w ps / tau))
                  4.5) as Hp2.
    pose proof (pow_nonneg
                  (1 - tSedTransWilcock.taucrit_grav w ps / tau) 4.5) as Hp3.
    assert (exists a b,
               setQs_i 0 a nd = Ok a1 /\ setQs_i 1 b a1 = Ok a2 /\
               0 <= a /\ 0 <= b /\
               (tau <= tSedTransWilcock.taucrit_sand w ps -> a = 0) /\
               (tau <= tSedTransWilcock.taucrit_grav w ps -> b = 0))
      as (a & b & Ea & Eb & Ha & Hb & Za & Zb).
    { unfold Rgtb in E1, E2.
      assert (Hw1 : hydrwidth a1 = hydrwidth nd).
      { destruct (_ <? _) in E1;
          destruct (setQs_i_inv _ _ _ _ E1) as [-> _]; reflexivity. }
      rewrite Hw1 in E2.
      destruct (Rltb_spec (tSedTransWilcock.taucrit_sand w ps) tau) as [C1|C1];
        destruct (Rltb_spec (tSedTransWilcock.taucrit_grav w ps) tau)
          as [C2|C2];
        do 2 eexists; (split; [exact E1|]); (split; [exact E2|]);
        clearbody fac ps tau;
        repeat split; try lra; try (intros; lra); nonneg. }
    destruct (two_sizes_total a b v nd a1 a2 n' Ea Eb H)
      as (Ev & Eq & G0 & G1 & _).
    split; [lra|]. split; [exact Eq|]. split.
    + exists a, b. repeat split; assumption.
    + intros _ T1 T2. rewrite (Za T1), (Zb T2) in Ev. lra.
Qed.

Lemma Wilcock_TransCapacity_nonneg_witness :
  exists v n',
    tSedTransWilcock.TransCapacity consts0 wilcock0 node0 = Ok (v, n') /\
    0 <= v.
Proof.
  assert (H1 : 0 < RHOSED consts0) by (simpl; lra).
  assert (H2 : 0 <= SECPERYEAR consts0) by (simpl; lra).
  assert (H3 : 0 <= hydrwidth node0) by (simpl; lra).
  assert (H4 : nth_error (layerlist node0) 0 = Some layer0) by reflexivity.
  assert (H5 : nth_error (ldgrade layer0) 0 = Some 0.3) by reflexivity.
  assert (H6 : 0 <= ldepth layer0 / maxregdep node0) by (simpl; lra).
  assert (H7 : 0 <= 0.3 / ldepth layer0 <= 1) by (simpl; lra).
  destruct (tSedTransWilcock.TransCapacity consts0 wilcock0 node0)
    as [[v n']| |] eqn:E.
  - exists v, n'. split; [reflexivity|].
    exact (proj1 (Wilcock_TransCapacity_nonneg consts0 wilcock0 node0 n' v
                    layer0 0.3 H1 H2 H3 H4 H5 H6 H7 E)).
  - exfalso. revert E. unfold tSedTransWilcock.TransCapacity.
    rewrite (getLayerDgrade_nth node0 0 0 layer0 0.3 H4 H5). cbn [bind].
    rewrite (getLayerDepth_Some node0 0 layer0 H4). cbn [bind]. cbv zeta.
    rewrite Rltb_false by (simpl; lra).
    unfold setQs_i, getQsm, subscript.
    repeat match goal with
      | |- context [if ?b then _ else _] => destruct b
      end; cbn; discriminate.
  - exfalso. revert E. unfold tSedTransWilcock.TransCapacity.
    rewrite (getLayerDgrade_nth node0 0 0 layer0 0.3 H4 H5). cbn [bind].
    rewrite (getLayerDepth_Some node0 0 layer0 H4). cbn [bind]. cbv zeta.
    rewrite Rltb_false by (simpl; lra).
    unfold setQs_i, getQsm, subscript.
    repeat match goal with
      | |- context [if ?b then _ else _] => destruct b
      end; cbn; discriminate.
Defined.

(** ** The sample of tEquilibCheck is the area-weighted mean elevation *)

Lemma mass_area_level (h : R) (ns : list tLNode) :
  forall (act : list nat) (mass area mass' area' : R),
    (forall i n, In i act -> nth_error ns i = Some n ->
                 z n = h /\ 0 < varea n) ->
    forM act
      (fun i '(mass, area) =>
         cn <- getNode ns i ;;
         Ok (mass + z cn * varea cn, area + varea cn))
      (mass, area) = Ok (mass', area') ->
    mass' - h * area' = mass - h * area /\
    area <= area' /\ (act <> [] -> area < area').
Proof.
  induction act as [|i rest IH]; intros mass area mass' area' Hn H.
  - inversion H; subst. repeat split; try lra. intros C; contradiction.
  - cbn [forM] in H. apply bind_Ok in H. destruct H as ([m1 a1] & H1 & H).
    apply bind_Ok in H1. destruct H1 as (cn & Ecn & H1).
    inversion H1; subst; clear H1. apply getNode_Ok in Ecn.
    destruct (Hn i cn (or_introl eq_refl) Ecn) as [Hz Ha].
    destruct (IH _ _ _ _ (fun j n Hj => Hn j n (or_intror Hj)) H)
      as (E & L & _).
    rewrite Hz in *. repeat split; intros; lra.
Qed.

(** X22.  The mean elevation [FindIterChngRate] stores is weighted by the
    Voronoi areas of the active nodes: when the active nodes (at least one,
    each of positive area) all stand at the elevation [h], the entry added
    to the history is the current time with the mean [h], whatever the
    areas are, and the short-term rate returned on a history that was not
    empty is [h] less the mean of the latest entry, over the time gone by
    since that entry. *)
Theorem FindIterChngRate_level
  (time : R) (m : tMesh) (e e' : tEquilibCheck.t) (sr h : R) :
  active m <> [] ->
  (forall i n, In i (active m) -> nth_error (nodes m) i = Some n ->
               z n = h /\ 0 < varea n) ->
  tEquilibCheck.FindIterChngRate time m e = Ok (sr, e') ->
  tEquilibCheck.massList e' = tEquilibCheck.massList e ++ [(time, h)] /\
  (forall last,
     tEquilibCheck.LastP (tEquilibCheck.massList e) = Ok last ->
     sr = (h - snd last) / (time - fst last)).
Proof.
  intros Hne Hn H. unfold tEquilibCheck.FindIterChngRate in H.
  apply bind_Ok in H. destruct H as ([mass area] & Hm & H). cbv zeta in H.
  destruct (mass_area_level h (nodes m) (active m) 0.0 0.0 mass area Hn Hm)
    as (E & _ & La).
  specialize (La Hne).
  assert (Emean : mass / area = h) by (field_simplify_eq; lra).
  rewrite Emean in H.
  apply bind_Ok in H. destruct H as (sr' & Hsr & H).
  inversion H; subst; clear H.
  cbn [tEquilibCheck.massList]. split; [reflexivity|].
  intros last HL.
  destruct (tEquilibCheck.massList e) as [|a t] eqn:EL; [discriminate|].
  cbn [List.length Nat.eqb negb] in Hsr. rewrite HL in Hsr.
  cbn [bind] in Hsr.
  destruct (time - fst last >? 0.0); cbn in Hsr; [|discriminate].
  now inversion Hsr.
Qed.

Lemma FindIterChngRate_level_witness :
  exists sr e',
    tEquilibCheck.FindIterChngRate 2 mesh_13_5 (history2 2) = Ok (sr, e') /\
    tEquilibCheck.massList e' = [(0, 10); (1, 11); (2, 13.5)].
Proof.
  assert (H1 : active mesh_13_5 <> []) by discriminate.
  assert (H2 : forall i n,
             In i (active mesh_13_5) ->
             nth_error (nodes mesh_13_5) i = Some n ->
             z n = 13.5 /\ 0 < varea n).
  { intros i n [<-|[]] Hn. inversion Hn; subst. simpl. split; lra. }
  assert (H3 : exists sr e1,
             tEquilibCheck.FindIterChngRate 2 mesh_13_5 (history2 2)
             = Ok (sr, e1)).
  { unfold tEquilibCheck.FindIterChngRate, history2, mesh_13_5.
    simpl. rdecide. simpl. do 2 eexists. reflexivity. }
  destruct H3 as (sr & e1 & H3).
  exists sr, e1. split; [exact H3|].
  exact (proj1 (FindIterChngRate_level 2 mesh_13_5 (history2 2) e1 sr 13.5
                  H1 H2 H3)).
Defined.
